(** * A shallow embedding of the C++ symbol indexer (mcp_server)

    The Python sources embedded here are
    - [symbol_info.py]   (the [SymbolInfo] dataclass),
    - [call_graph.py]    (class [CallGraphAnalyzer]),
    - [file_scanner.py]  (class [FileScanner]),
    - [search_engine.py] (class [SearchEngine]),
    - [cache_manager.py] (class [CacheManager]),
    - [cpp_analyzer.py]  (class [CppAnalyzer]).

    Conventions.  A Python [str] is a [string]; an [int] is a [Z]; a
    [set] of strings is a [gset string]; a [dict] that the program never
    iterates is a [gmap]; a [dict] whose iteration order is observable
    (the by-name indexes, the file-hash table) is an insertion-ordered
    association list.  Iterating a Python [set] has no specified order;
    the embedding iterates in the order of [elements]. *)

From stdpp Require Import gmap strings list fin_maps sorting pretty.

From Stdlib Require Import ZArith Ascii.
Open Scope string_scope.
Open Scope list_scope.
Set Warnings "-clear-no-such-hyp,-register-all".

(** Python truthiness of a [str]: the empty string is falsy. *)
Definition truthy (s : string) : bool := negb (String.eqb s "").

(** ** symbol_info.py *)

Record SymbolInfo := mkSymbolInfo {
  name : string;
  kind : string;
  file : string;
  line : Z;
  column : Z;
  signature : string;
  is_project : bool;
  namespace : string;
  access : string;
  parent_class : string;
  base_classes : list string;
  usr : string;
  calls : list string;
  called_by : list string
}.

#[global] Instance SymbolInfo_eq_dec : EqDecision SymbolInfo.
Proof. solve_decision. Defined.

(** ** call_graph.py *)

Module CallGraph.

(** [defaultdict(set)]: reading a missing key yields the empty set. *)
Definition dd_get (m : gmap string (gset string)) (k : string) : gset string :=
  default ∅ (m !! k).

(** [m[k].add(x)] on a [defaultdict(set)]. *)
Definition dd_add (m : gmap string (gset string)) (k x : string)
  : gmap string (gset string) :=
  <[k := dd_get m k ∪ {[x]}]> m.

Record CallGraphAnalyzer := mkCG {
  call_graph : gmap string (gset string);
  reverse_call_graph : gmap string (gset string)
}.

(** [__init__] *)
Definition init : CallGraphAnalyzer := mkCG ∅ ∅.

Definition add_call (cg : CallGraphAnalyzer) (caller_usr callee_usr : string)
  : CallGraphAnalyzer :=
  if truthy caller_usr && truthy callee_usr then
    mkCG (dd_add (call_graph cg) caller_usr callee_usr)
         (dd_add (reverse_call_graph cg) callee_usr caller_usr)
  else cg.

Definition clear (cg : CallGraphAnalyzer) : CallGraphAnalyzer := mkCG ∅ ∅.

(** One round of the loops of [remove_symbol]:
    [m[k].discard(usr)] followed by [if not m[k]: del m[k]]. *)
Definition discard_prune (usr : string) (m : gmap string (gset string))
    (k : string) : gmap string (gset string) :=
  let s := dd_get m k ∖ {[usr]} in
  if decide (s = ∅) then delete k m else <[k := s]> m.

Definition remove_symbol (cg : CallGraphAnalyzer) (usr : string)
  : CallGraphAnalyzer :=
  let cg1 :=
    match call_graph cg !! usr with
    | Some called_functions =>
        mkCG (delete usr (call_graph cg))
             (foldl (discard_prune usr) (reverse_call_graph cg)
                    (elements called_functions))
    | None => cg
    end in
  match reverse_call_graph cg1 !! usr with
  | Some calling_functions =>
      mkCG (foldl (discard_prune usr) (call_graph cg1)
                  (elements calling_functions))
           (delete usr (reverse_call_graph cg1))
  | None => cg1
  end.

Definition add_calls_of (cg : CallGraphAnalyzer) (symbol : SymbolInfo)
  : CallGraphAnalyzer :=
  if truthy (usr symbol) && negb (bool_decide (calls symbol = [])) then
    foldl (λ g called_usr, add_call g (usr symbol) called_usr)
          cg (calls symbol)
  else cg.

Definition rebuild_from_symbols (cg : CallGraphAnalyzer)
    (symbols : list SymbolInfo) : CallGraphAnalyzer :=
  foldl add_calls_of (clear cg) symbols.

Definition find_callers (cg : CallGraphAnalyzer) (function_usr : string)
  : gset string := dd_get (reverse_call_graph cg) function_usr.

Definition find_callees (cg : CallGraphAnalyzer) (function_usr : string)
  : gset string := dd_get (call_graph cg) function_usr.

(** [get_call_paths]: the recursion is on [max_depth], which only ever
    decreases by one and stops at [max_depth <= 0]. *)
Fixpoint get_call_paths_rec (cg : CallGraphAnalyzer) (depth : nat)
    (from_usr to_usr : string) : list (list string) :=
  if decide (from_usr = to_usr) then [[from_usr]]
  else match depth with
       | O => []
       | S depth' =>
           flat_map
             (λ callee,
                if decide (callee = to_usr) then [[from_usr; to_usr]]
                else map (cons from_usr)
                         (get_call_paths_rec cg depth' callee to_usr))
             (elements (find_callees cg from_usr))
       end.

Definition get_call_paths (cg : CallGraphAnalyzer)
    (from_usr to_usr : string) (max_depth : Z) : list (list string) :=
  get_call_paths_rec cg (Z.to_nat max_depth) from_usr to_usr.

(** The operations that mutate a [CallGraphAnalyzer]. *)
Inductive Op :=
| OpAddCall (caller_usr callee_usr : string)
| OpRemoveSymbol (usr : string)
| OpRebuild (symbols : list SymbolInfo)
| OpClear.

Definition step (cg : CallGraphAnalyzer) (op : Op) : CallGraphAnalyzer :=
  match op with
  | OpAddCall u v => add_call cg u v
  | OpRemoveSymbol u => remove_symbol cg u
  | OpRebuild symbols => rebuild_from_symbols cg symbols
  | OpClear => clear cg
  end.

Definition run (ops : list Op) : CallGraphAnalyzer := foldl step init ops.

(** *** Symmetry of the two maps *)

Definition symmetric (cg : CallGraphAnalyzer) : Prop :=
  ∀ u v, v ∈ find_callees cg u ↔ u ∈ find_callers cg v.

(** Removing the out-edges of [x] from [fwd] and the matching entries
    of [bwd]: the first half of [remove_symbol]; the second half is
    the same computation with the two maps exchanged. *)
Definition half_remove (x : string) (fwd bwd : gmap string (gset string))
  : gmap string (gset string) * gmap string (gset string) :=
  match fwd !! x with
  | Some out => (delete x fwd, foldl (discard_prune x) bwd (elements out))
  | None => (fwd, bwd)
  end.

(** *** The empty USR is never a node *)

Definition no_empty_usr (m : gmap string (gset string)) : Prop :=
  ∀ k s, m !! k = Some s → k ≠ "" ∧ "" ∉ s.

Definition well_keyed (cg : CallGraphAnalyzer) : Prop :=
  no_empty_usr (call_graph cg) ∧ no_empty_usr (reverse_call_graph cg).

End CallGraph.

(** ** file_scanner.py *)

Module Scanner.

(** [pathlib.Path.parts]: the components of a path; an absolute path
    starts with the part ["/"]; empty and ["."] components are
    dropped. *)
Definition Path := list string.

Fixpoint components (cur : string) (s : string) : list string :=
  match s with
  | EmptyString => [cur]
  | String c s' =>
      if Ascii.eqb c "/" then cur :: components "" s'
      else components (cur +:+ String c EmptyString) s'
  end.

Definition to_Path (s : string) : Path :=
  (if String.prefix "/" s then ["/"] else []) ++
  filter (λ part, part ≠ "" ∧ part ≠ ".") (components "" s).

(** [os.path.join(a, b)] for a relative [b]. *)
Definition path_join (a b : string) : string :=
  if String.eqb a "" then b
  else if String.eqb (String.substring (String.length a - 1) 1 a) "/"
       then a +:+ b else a +:+ "/" +:+ b.

(** [Path(p).relative_to(root)]: [None] stands for [ValueError]. *)
Fixpoint relative_to (p root : Path) {struct root} : option Path :=
  match root with
  | [] => Some p
  | r :: root' =>
      match p with
      | x :: p' => if String.eqb x r then relative_to p' root' else None
      | [] => None
      end
  end.

(** The project tree that [os.walk] enumerates. *)
Inductive Node :=
| File (filename : string)
| Dir (dirname : string) (children : list Node).

Record FileScanner := mkScanner {
  project_root : string;
  include_dependencies : bool;
  EXCLUDE_DIRS : gset string;
  DEPENDENCY_DIRS : gset string
}.

Definition CPP_EXTENSIONS : list string :=
  [".cpp"; ".cc"; ".cxx"; ".c++"; ".h"; ".hpp"; ".hxx"; ".h++"].

(** [str.endswith] *)
Definition endswith (s ext : string) : bool :=
  let n := String.length s in
  let k := String.length ext in
  (k <=? n)%nat && String.eqb (String.substring (n - k) k s) ext.

Definition should_skip_directory (sc : FileScanner) (dir_path : string) : bool :=
  match relative_to (to_Path dir_path) (to_Path (project_root sc)) with
  | Some rel_path =>
      match rel_path with
      | [part] => bool_decide (part ∈ EXCLUDE_DIRS sc)
      | _ => false
      end
  | None => false
  end.

Definition should_skip_file (sc : FileScanner) (file_path : string) : bool :=
  match relative_to (to_Path file_path) (to_Path (project_root sc)) with
  | None => negb (include_dependencies sc)
  | Some rel_path =>
      match rel_path with
      | part :: _ => bool_decide (part ∈ EXCLUDE_DIRS sc)
      | [] => false
      end
  end.

Definition is_cpp (filename : string) : bool :=
  existsb (endswith filename) CPP_EXTENSIONS.

(** The inner loop of [find_cpp_files] for one [(root, dirs, filenames)]
    triple produced by [os.walk]. *)
Definition files_here (sc : FileScanner) (root : string) (entries : list Node)
  : list string :=
  flat_map
    (λ e, match e with
          | File filename =>
              if is_cpp filename &&
                 negb (should_skip_file sc (path_join root filename))
              then [path_join root filename] else []
          | Dir _ _ => []
          end) entries.

(** One directory of the top-down walk: the files of the directory,
    then the sub-directories that survive the in-place pruning of
    [dirs]. *)
Definition walk_entries (rec : string → Node → list string)
    (sc : FileScanner) (root : string) (entries : list Node) : list string :=
  files_here sc root entries ++
  flat_map
    (λ e, match e with
          | Dir d _ =>
              if should_skip_directory sc (path_join root d) then []
              else rec root e
          | File _ => []
          end) entries.

Fixpoint walk_node (sc : FileScanner) (root : string) (n : Node) : list string :=
  match n with
  | File _ => []
  | Dir d children => walk_entries (walk_node sc) sc (path_join root d) children
  end.

(** [find_cpp_files], on the entries of the project root. *)
Definition find_cpp_files (sc : FileScanner) (tree : list Node) : list string :=
  walk_entries (walk_node sc) sc (project_root sc) tree.

Definition is_project_file (sc : FileScanner) (file_path : string) : bool :=
  if String.eqb file_path "" then false
  else
    match relative_to (to_Path file_path) (to_Path (project_root sc)) with
    | Some rel_path =>
        negb (existsb (λ part, bool_decide (part ∈ DEPENDENCY_DIRS sc)) rel_path)
    | None => false
    end.

End Scanner.

(** ** Insertion-ordered dictionaries

    A Python [dict] keeps its keys in insertion order; assigning to an
    existing key keeps the key's position. *)

Section odict.

Context {V : Type}.

Fixpoint od_get (d : list (string * V)) (k : string) : option V :=
  match d with
  | [] => None
  | (k', v) :: d' => if decide (k' = k) then Some v else od_get d' k
  end.

(** [d[k] = v] *)
Fixpoint od_set (d : list (string * V)) (k : string) (v : V)
  : list (string * V) :=
  match d with
  | [] => [(k, v)]
  | (k', v') :: d' =>
      if decide (k' = k) then (k, v) :: d' else (k', v') :: od_set d' k v
  end.

(** [del d[k]] (the callers check [k in d] first) *)
Fixpoint od_del (d : list (string * V)) (k : string) : list (string * V) :=
  match d with
  | [] => []
  | (k', v') :: d' =>
      if decide (k' = k) then d' else (k', v') :: od_del d' k
  end.

Definition od_mem (d : list (string * V)) (k : string) : bool :=
  bool_decide (is_Some (od_get d k)).

Definition od_keys (d : list (string * V)) : list string := d.*1.

(** A well-formed dictionary has each key once. *)
Definition od_wf (d : list (string * V)) : Prop := NoDup (od_keys d).

End odict.

(** ** JSON documents

    [json.dump] followed by [json.load] is the identity on documents
    built from [dict]s with string keys, [list]s, [str]s, [int]s and
    [bool]s; the caches are modelled at the level of these documents.
    The [time.time()] stamp is kept as an integer tick; nothing reads
    it back. *)

Inductive JSON :=
| JNull
| JBool (b : bool)
| JInt (n : Z)
| JStr (s : string)
| JList (l : list JSON)
| JObj (fields : list (string * JSON)).

Definition jstrs (l : list string) : JSON := JList (JStr <$> l).

Definition as_str (j : JSON) : option string :=
  match j with JStr s => Some s | _ => None end.

Definition as_int (j : JSON) : option Z :=
  match j with JInt n => Some n | _ => None end.

Definition as_bool (j : JSON) : option bool :=
  match j with JBool b => Some b | _ => None end.

Definition as_list (j : JSON) : option (list JSON) :=
  match j with JList l => Some l | _ => None end.

Definition as_obj (j : JSON) : option (list (string * JSON)) :=
  match j with JObj fs => Some fs | _ => None end.

Definition as_strs (j : JSON) : option (list string) :=
  l ← as_list j; mapM as_str l.

(** [dict.get(key, default)] *)
Definition jget (fs : list (string * JSON)) (key : string) (dflt : JSON) : JSON :=
  default dflt (od_get fs key).

(** [SymbolInfo.to_dict] *)
Definition to_dict (s : SymbolInfo) : JSON :=
  JObj [("name", JStr (name s));
        ("kind", JStr (kind s));
        ("file", JStr (file s));
        ("line", JInt (line s));
        ("column", JInt (column s));
        ("signature", JStr (signature s));
        ("is_project", JBool (is_project s));
        ("namespace", JStr (namespace s));
        ("access", JStr (access s));
        ("parent_class", JStr (parent_class s));
        ("base_classes", jstrs (base_classes s));
        ("usr", JStr (usr s));
        ("calls", jstrs (calls s));
        ("called_by", jstrs (called_by s))].

Definition SymbolInfo_fields : list string :=
  ["name"; "kind"; "file"; "line"; "column"; "signature"; "is_project";
   "namespace"; "access"; "parent_class"; "base_classes"; "usr"; "calls";
   "called_by"].

(** The dataclass constructor [SymbolInfo] called with the entries of
    the dict [info] as keyword arguments.  [None] stands for the
    [TypeError] raised for a non-dict, an unexpected keyword or a
    missing required field; a value of another type than the field's
    annotation is outside this typed model and is rejected as well. *)
Definition from_dict (info : JSON) : option SymbolInfo :=
  fs ← as_obj info;
  if forallb (λ kv, bool_decide (kv.1 ∈ SymbolInfo_fields)) fs then
    name ← od_get fs "name" ≫= as_str;
    kind ← od_get fs "kind" ≫= as_str;
    file ← od_get fs "file" ≫= as_str;
    line ← od_get fs "line" ≫= as_int;
    column ← od_get fs "column" ≫= as_int;
    signature ← as_str (jget fs "signature" (JStr ""));
    is_project ← as_bool (jget fs "is_project" (JBool true));
    namespace ← as_str (jget fs "namespace" (JStr ""));
    access ← as_str (jget fs "access" (JStr "public"));
    parent_class ← as_str (jget fs "parent_class" (JStr ""));
    base_classes ← as_strs (jget fs "base_classes" (JList []));
    usr ← as_str (jget fs "usr" (JStr ""));
    calls ← as_strs (jget fs "calls" (JList []));
    called_by ← as_strs (jget fs "called_by" (JList []));
    Some (mkSymbolInfo name kind file line column signature is_project
            namespace access parent_class base_classes usr calls called_by)
  else None.

(** ** The host regular-expression engine

    [re] is a library of the host language, not part of the program;
    the embedding takes it as a parameter.  [re_compile pattern] stands
    for [re.compile(pattern, re.IGNORECASE)]: either the message of the
    [re.error] it raises, or the predicate "[regex.search(s)] finds a
    match".  [re_escape] is [re.escape]. *)

Record RegexEngine := mkRegexEngine {
  re_compile : string → string + (string → bool);
  re_escape : string → string
}.

(** ** Exceptions and outcomes *)

Inductive exn :=
| ReError (msg : string)
| AttributeError (cls attr : string)
| TypeError (msg : string).

Inductive Outcome (A : Type) :=
| Ok (a : A)
| Raise (e : exn).

Arguments Ok {A} a.

Arguments Raise {A} e.

(** ** The in-memory indexes

    [SymbolInfo] objects are mutable and shared between the indexes:
    [heap] holds the objects, the indexes hold references into it. *)

Definition Ref := nat.

Record Indexes := mkIndexes {
  heap : list SymbolInfo;
  class_index : list (string * list Ref);
  function_index : list (string * list Ref);
  file_index : gmap string (list Ref);
  usr_index : gmap string Ref;
  call_graph_analyzer : CallGraph.CallGraphAnalyzer
}.

(** An object that was never allocated is not reachable in Python; the
    placeholder makes [deref] total. *)
Definition no_object : SymbolInfo :=
  mkSymbolInfo "" "" "" 0 0 "" true "" "public" "" [] "" [] [].

Definition lookup_object (h : list SymbolInfo) (r : Ref) : SymbolInfo :=
  default no_object (h !! r).

Definition deref (ix : Indexes) (r : Ref) : SymbolInfo :=
  lookup_object (heap ix) r.

(** [d.get(k, [])] on a by-name index. *)
Definition get_list (d : list (string * list Ref)) (k : string) : list Ref :=
  default [] (od_get d k).

(** The records an index entry denotes. *)
Definition records (ix : Indexes) (refs : list Ref) : list SymbolInfo :=
  deref ix <$> refs.

Definition view (ix : Indexes) (d : list (string * list Ref))
  : list (string * list SymbolInfo) :=
  (λ kv, (kv.1, records ix kv.2)) <$> d.

(** ** search_engine.py *)

Module SearchEngine.

Record ClassHit := mkClassHit {
  c_name : string; c_kind : string; c_file : string; c_line : Z;
  c_is_project : bool; c_base_classes : list string
}.

Record FunctionHit := mkFunctionHit {
  f_name : string; f_kind : string; f_file : string; f_line : Z;
  f_signature : string; f_is_project : bool; f_parent_class : string
}.

Record SymbolHits := mkSymbolHits {
  classes : list ClassHit;
  functions : list FunctionHit
}.

Record MethodEntry := mkMethodEntry {
  m_name : string; m_signature : string; m_access : string; m_line : Z
}.

Record ClassInfo := mkClassInfo {
  ci_name : string; ci_kind : string; ci_file : string; ci_line : Z;
  ci_base_classes : list string; ci_methods : list MethodEntry;
  ci_is_project : bool
}.

Definition class_hit (info : SymbolInfo) : ClassHit :=
  mkClassHit (name info) (kind info) (file info) (line info)
             (is_project info) (base_classes info).

Definition function_hit (info : SymbolInfo) : FunctionHit :=
  mkFunctionHit (name info) (kind info) (file info) (line info)
                (signature info) (is_project info) (parent_class info).

(** The scan of [search_classes] once the pattern is compiled. *)
Definition scan_classes (ix : Indexes) (regex : string → bool)
    (project_only : bool) : list ClassHit :=
  flat_map
    (λ kv, if regex kv.1 then
             class_hit <$>
               filter (λ info, negb project_only || is_project info = true)
                      (records ix kv.2)
           else [])
    (class_index ix).

Definition search_classes (re : RegexEngine) (ix : Indexes)
    (pattern : string) (project_only : bool) : Outcome (list ClassHit) :=
  match re_compile re pattern with
  | inl msg => Raise (ReError msg)
  | inr regex => Ok (scan_classes ix regex project_only)
  end.

(** [class_name and info.parent_class != class_name] *)
Definition other_class (class_name : option string) (info : SymbolInfo) : bool :=
  match class_name with
  | Some c => truthy c && negb (String.eqb (parent_class info) c)
  | None => false
  end.

Definition scan_functions (ix : Indexes) (regex : string → bool)
    (project_only : bool) (class_name : option string) : list FunctionHit :=
  flat_map
    (λ kv, if regex kv.1 then
             function_hit <$>
               filter (λ info, (negb project_only || is_project info) &&
                               negb (other_class class_name info) = true)
                      (records ix kv.2)
           else [])
    (function_index ix).

Definition search_functions (re : RegexEngine) (ix : Indexes)
    (pattern : string) (project_only : bool) (class_name : option string)
  : Outcome (list FunctionHit) :=
  match re_compile re pattern with
  | inl msg => Raise (ReError msg)
  | inr regex => Ok (scan_functions ix regex project_only class_name)
  end.

(** [not symbol_types or any(t in kinds for t in symbol_types)] *)
Definition selects (symbol_types : option (list string)) (kinds : list string)
  : bool :=
  match symbol_types with
  | None | Some [] => true
  | Some ts => existsb (λ t, bool_decide (t ∈ kinds)) ts
  end.

Definition search_symbols (re : RegexEngine) (ix : Indexes)
    (pattern : string) (project_only : bool)
    (symbol_types : option (list string)) : Outcome SymbolHits :=
  let want_classes := selects symbol_types ["class"; "struct"] in
  let want_functions := selects symbol_types ["function"; "method"] in
  match (if want_classes then search_classes re ix pattern project_only
         else Ok []) with
  | Raise e => Raise e
  | Ok cs =>
      match (if want_functions
             then search_functions re ix pattern project_only None
             else Ok []) with
      | Raise e => Raise e
      | Ok fs => Ok (mkSymbolHits cs fs)
      end
  end.

(** [sorted(methods, key=lambda x: x["line"])]: a stable sort. *)
Fixpoint insert_by_line (m : MethodEntry) (l : list MethodEntry)
  : list MethodEntry :=
  match l with
  | [] => [m]
  | m' :: l' =>
      if (m_line m <=? m_line m')%Z then m :: l
      else m' :: insert_by_line m l'
  end.

Definition sorted_by_line (l : list MethodEntry) : list MethodEntry :=
  foldr insert_by_line [] l.

Definition get_class_info (ix : Indexes) (class_name : string)
  : option ClassInfo :=
  match records ix (get_list (class_index ix) class_name) with
  | [] => None
  | info :: _ =>
      let methods :=
        flat_map
          (λ kv,
             (λ func_info, mkMethodEntry (name func_info) (signature func_info)
                             (access func_info) (line func_info)) <$>
             filter (λ func_info, parent_class func_info = class_name)
                    (records ix kv.2))
          (function_index ix) in
      Some (mkClassInfo (name info) (kind info) (file info) (line info)
              (base_classes info) (sorted_by_line methods) (is_project info))
  end.

End SearchEngine.

(** ** The analyzer object, the cache directory and the error stream *)

Record CppAnalyzer := mkAnalyzer {
  indexes : Indexes;
  file_hashes : list (string * string);
  translation_units : gset string;
  indexed_file_count : Z;
  include_dependencies : bool;
  file_scanner : Scanner.FileScanner
}.

(** [cache_info.json] and [files/<md5(path)>.json], the latter keyed by
    the source path whose digest names the file. *)
Record Disk := mkDisk {
  cache_info : option JSON;
  file_caches : gmap string JSON
}.

Record World := mkWorld {
  analyzer : CppAnalyzer;
  disk : Disk;
  stderr : list string
}.

(** State and exceptions. *)
Definition M (A : Type) : Type := World → Outcome A * World.

Definition ret {A} (a : A) : M A := λ w, (Ok a, w).

Definition bind {A B} (m : M A) (k : A → M B) : M B :=
  λ w, match m w with
       | (Ok a, w') => k a w'
       | (Raise e, w') => (Raise e, w')
       end.

Definition raise {A} (e : exn) : M A := λ w, (Raise e, w).

Notation "'do' x <- m ; k" := (bind m (λ x, k))
  (at level 10, x name, m at level 100, k at level 200).

Notation "m ;; k" := (bind m (λ _, k))
  (at level 100, k at level 200, right associativity).

Definition get_world : M World := λ w, (Ok w, w).

Definition get_indexes : M Indexes := λ w, (Ok (indexes (analyzer w)), w).

Definition with_indexes (a : CppAnalyzer) (ix : Indexes) : CppAnalyzer :=
  mkAnalyzer ix (file_hashes a) (translation_units a) (indexed_file_count a)
             (include_dependencies a) (file_scanner a).

Definition put_analyzer (a : CppAnalyzer) : M unit :=
  λ w, (Ok tt, mkWorld a (disk w) (stderr w)).

Definition put_indexes (ix : Indexes) : M unit :=
  λ w, (Ok tt, mkWorld (with_indexes (analyzer w) ix) (disk w) (stderr w)).

Definition put_disk (d : Disk) : M unit :=
  λ w, (Ok tt, mkWorld (analyzer w) d (stderr w)).

(** [print(msg, file=sys.stderr)] *)
Definition print (msg : string) : M unit :=
  λ w, (Ok tt, mkWorld (analyzer w) (disk w) (stderr w ++ [msg])).

(** ** cpp_analyzer.py: the search entry points *)

Definition invalid_regex (e : string) : string := "Invalid regex pattern: " +:+ e.

(** [try: return body  except re.error as e: print(...); return dflt] *)
Definition catching_re_error {A} (body : Indexes → Outcome A) (dflt : A) : M A :=
  do ix <- get_indexes;
  match body ix with
  | Ok r => ret r
  | Raise (ReError e) => print (invalid_regex e) ;; ret dflt
  | Raise e => raise e
  end.

Definition search_classes (re : RegexEngine) (pattern : string)
    (project_only : bool) : M (list SearchEngine.ClassHit) :=
  catching_re_error
    (λ ix, SearchEngine.search_classes re ix pattern project_only) [].

Definition search_functions (re : RegexEngine) (pattern : string)
    (project_only : bool) (class_name : option string)
  : M (list SearchEngine.FunctionHit) :=
  catching_re_error
    (λ ix, SearchEngine.search_functions re ix pattern project_only class_name) [].

Definition search_symbols (re : RegexEngine) (pattern : string)
    (project_only : bool) (symbol_types : option (list string))
  : M SearchEngine.SymbolHits :=
  catching_re_error
    (λ ix, SearchEngine.search_symbols re ix pattern project_only symbol_types)
    (SearchEngine.mkSymbolHits [] []).

(** ** A small regular-expression dialect

    An engine for patterns made of an optional leading [^], literal
    characters (a metacharacter is a literal when preceded by a
    backslash) and an optional trailing [$]; every other pattern is
    rejected.  Matching ignores ASCII case.  It instantiates
    [RegexEngine] in the examples. *)

Module LiteralRegex.

Definition is_meta (c : ascii) : bool :=
  bool_decide (c ∈ String.list_ascii_of_string ".^$*+?{}[]\|()").

Definition backslash : ascii := Ascii.ascii_of_nat 92.

Definition dollar : ascii := Ascii.ascii_of_nat 36.

Definition caret : ascii := Ascii.ascii_of_nat 94.

Definition lower (c : ascii) : ascii :=
  let n := Ascii.nat_of_ascii c in
  if (65 <=? n)%nat && (n <=? 90)%nat then Ascii.ascii_of_nat (n + 32) else c.

(** The literal of the pattern, and whether it ends in an anchor. *)
Fixpoint parse_literal (fuel : nat) (p : list ascii)
  : option (list ascii * bool) :=
  match fuel with
  | O => None
  | S fuel' =>
      match p with
      | [] => Some ([], false)
      | c :: rest =>
          if decide (c = backslash) then
            match rest with
            | c' :: rest' =>
                prod_map (cons (lower c')) id <$> parse_literal fuel' rest'
            | [] => None
            end
          else if decide (c = dollar) then
            match rest with [] => Some ([], true) | _ => None end
          else if is_meta c then None
          else prod_map (cons (lower c)) id <$> parse_literal fuel' rest
      end
  end.

Fixpoint is_prefix (l s : list ascii) : bool :=
  match l, s with
  | [], _ => true
  | a :: l', b :: s' => bool_decide (a = b) && is_prefix l' s'
  | _ :: _, [] => false
  end.

Fixpoint occurs (l s : list ascii) (at_end : bool) : bool :=
  (is_prefix l s && (negb at_end || (length l =? length s)%nat)) ||
  match s with
  | [] => false
  | _ :: s' => occurs l s' at_end
  end.

Definition compile (pattern : string) : string + (string → bool) :=
  let p := String.list_ascii_of_string pattern in
  let '(at_start, body) :=
    match p with
    | c :: rest => if decide (c = caret) then (true, rest) else (false, p)
    | [] => (false, p)
    end in
  match parse_literal (S (length body)) body with
  | None => inl ("unsupported pattern " +:+ pattern)
  | Some (lit, at_end) =>
      inr (λ s, let t := lower <$> String.list_ascii_of_string s in
                if at_start
                then is_prefix lit t &&
                     (negb at_end || (length lit =? length t)%nat)
                else occurs lit t at_end)
  end.

Definition escape (s : string) : string :=
  String.string_of_list_ascii
    (flat_map (λ c, if is_meta c then [backslash; c] else [c])
              (String.list_ascii_of_string s)).

Definition engine : RegexEngine := mkRegexEngine compile escape.

End LiteralRegex.

(** ** cpp_analyzer.py: inheritance queries *)

Record DerivedHit := mkDerivedHit {
  d_name : string; d_kind : string; d_file : string; d_line : Z;
  d_column : Z; d_is_project : bool; d_base_classes : list string
}.

Definition derived_hit (info : SymbolInfo) : DerivedHit :=
  mkDerivedHit (name info) (kind info) (file info) (line info) (column info)
               (is_project info) (base_classes info).

Definition get_derived_classes (ix : Indexes) (class_name : string)
    (project_only : bool) : list DerivedHit :=
  flat_map
    (λ kv, derived_hit <$>
           filter (λ info, (negb project_only || is_project info) &&
                           bool_decide (class_name ∈ base_classes info) = true)
                  (records ix kv.2))
    (class_index ix).

(** A node of the [base_hierarchy] / [derived_hierarchy] trees: either
    [{"name": n, "circular_reference": True}] or [{"name": n, key: [...]}]
    with [key] one of ["base_classes"], ["derived_classes"]. *)
Inductive Hier :=
| Circular (class_name : string)
| Node (class_name : string) (children : list Hier).

(** [list(set(base_classes))] of the records named [class_name]. *)
Definition direct_bases (ix : Indexes) (class_name : string) : list string :=
  elements (list_to_set (C := gset string)
              (flat_map base_classes
                        (records ix (get_list (class_index ix) class_name)))).

(** The recursion of the two walks is bounded by [fuel]; [None] means
    the bound was hit. *)
Fixpoint _get_base_hierarchy (fuel : nat) (ix : Indexes) (class_name : string)
    (visited : gset string) : option Hier :=
  match fuel with
  | O => None
  | S fuel' =>
      if decide (class_name ∈ visited) then Some (Circular class_name)
      else
        let visited' := visited ∪ {[class_name]} in
        base_hierarchies ←
          mapM (λ base, _get_base_hierarchy fuel' ix base visited')
               (direct_bases ix class_name);
        Some (Node class_name base_hierarchies)
  end.

Fixpoint _get_derived_hierarchy (fuel : nat) (ix : Indexes) (class_name : string)
    (visited : gset string) : option Hier :=
  match fuel with
  | O => None
  | S fuel' =>
      if decide (class_name ∈ visited) then Some (Circular class_name)
      else
        let visited' := visited ∪ {[class_name]} in
        derived_hierarchies ←
          mapM (λ d, _get_derived_hierarchy fuel' ix (d_name d) visited')
               (get_derived_classes ix class_name false);
        Some (Node class_name derived_hierarchies)
  end.

Record Hierarchy := mkHierarchy {
  h_class_info : SearchEngine.ClassInfo;
  h_base_classes : list string;
  h_derived_classes : list DerivedHit;
  base_hierarchy : Hier;
  derived_hierarchy : Hier
}.

(** [get_class_hierarchy]: [Some None] is Python's [return None]. *)
Definition get_class_hierarchy (fuel : nat) (ix : Indexes) (class_name : string)
  : option (option Hierarchy) :=
  match SearchEngine.get_class_info ix class_name with
  | None => Some None
  | Some class_info =>
      bh ← _get_base_hierarchy fuel ix class_name ∅;
      dh ← _get_derived_hierarchy fuel ix class_name ∅;
      Some (Some (mkHierarchy class_info (direct_bases ix class_name)
                    (get_derived_classes ix class_name true) bh dh))
  end.

(** Does the tree contain a node marked [circular_reference]? *)
Fixpoint has_circular (t : Hier) : bool :=
  match t with
  | Circular _ => true
  | Node _ children => existsb has_circular children
  end.

(** Every class name carried by a record of the class index. *)
Definition class_names (ix : Indexes) : gset string :=
  list_to_set (flat_map (λ kv, name <$> records ix kv.2) (class_index ix)).

(** Every key of the class index. *)
Definition class_keys (ix : Indexes) : gset string :=
  list_to_set (od_keys (class_index ix)).

(** A fuel that is enough for both walks. *)
Definition hierarchy_fuel (ix : Indexes) : nat :=
  S (S (size (class_keys ix) + size (class_names ix))).

(** A chain [c, l1, l2, ...] along a successor relation. *)
Fixpoint chain (succ : string → list string) (c : string) (l : list string)
  : Prop :=
  match l with
  | [] => True
  | c' :: l' => c' ∈ succ c ∧ chain succ c' l'
  end.

(** The names [get_derived_classes] reports for a class. *)
Definition derived_names (ix : Indexes) (c : string) : list string :=
  d_name <$> get_derived_classes ix c false.

(** ** cpp_analyzer.py: call paths *)

(** The USRs of the records behind the hits of a function search:
    [if symbol.usr and symbol.file == func['file'] and
        symbol.line == func['line']: usrs.add(symbol.usr)]. *)
Definition usrs_of_hits (ix : Indexes) (hits : list SearchEngine.FunctionHit)
  : gset string :=
  list_to_set
    (flat_map
       (λ func,
          usr <$>
            filter (λ symbol,
                      truthy (usr symbol) &&
                      String.eqb (file symbol) (SearchEngine.f_file func) &&
                      (line symbol =? SearchEngine.f_line func)%Z = true)
                   (records ix (get_list (function_index ix)
                                         (SearchEngine.f_name func))))
       hits).

(** The conversion of a path of USRs to names; a USR that is not in
    [usr_index] contributes nothing. *)
Definition name_path (ix : Indexes) (path : list string) : list string :=
  flat_map
    (λ u, match usr_index ix !! u with
          | Some r =>
              let info := deref ix r in
              [if truthy (parent_class info)
               then parent_class info +:+ "::" +:+ name info
               else name info]
          | None => []
          end) path.

(** The innermost loop: the callees of [current_usr] that were not
    visited yet are marked and queued, each with its path. *)
Definition explore_step (path : list string)
    (acc : gset string * list (string * list string)) (callee_usr : string)
  : gset string * list (string * list string) :=
  if decide (callee_usr ∈ acc.1) then acc
  else (acc.1 ∪ {[callee_usr]}, acc.2 ++ [(callee_usr, path ++ [callee_usr])]).

Definition explore (cg : CallGraph.CallGraphAnalyzer) (current_usr : string)
    (path : list string) (acc : gset string * list (string * list string))
  : gset string * list (string * list string) :=
  foldl (explore_step path) acc (elements (CallGraph.find_callees cg current_usr)).

(** One pass over [queue]: the paths that reached a target, the visited
    set and the next queue. *)
Definition level_step (cg : CallGraph.CallGraphAnalyzer) (to_usrs : gset string)
    (acc : list (list string) * (gset string * list (string * list string)))
    (entry : string * list string)
  : list (list string) * (gset string * list (string * list string)) :=
  if decide (entry.1 ∈ to_usrs) then (acc.1 ++ [entry.2], acc.2)
  else (acc.1, explore cg entry.1 entry.2 acc.2).

Definition bfs_level (cg : CallGraph.CallGraphAnalyzer) (to_usrs : gset string)
    (queue : list (string * list string)) (visited : gset string)
  : list (list string) * (gset string * list (string * list string)) :=
  foldl (level_step cg to_usrs) ([], (visited, [])) queue.

(** [while queue and depth < max_depth]: [levels] is [max_depth - depth]. *)
Fixpoint bfs_loop (cg : CallGraph.CallGraphAnalyzer) (to_usrs : gset string)
    (levels : nat) (queue : list (string * list string)) (visited : gset string)
  : list (list string) :=
  match levels with
  | O => []
  | S levels' =>
      match queue with
      | [] => []
      | _ =>
          let r := bfs_level cg to_usrs queue visited in
          r.1 ++ bfs_loop cg to_usrs levels' r.2.2 r.2.1
      end
  end.

(** The search from one start USR, as paths of USRs. *)
Definition bfs_paths (cg : CallGraph.CallGraphAnalyzer) (to_usrs : gset string)
    (max_depth : Z) (from_usr : string) : list (list string) :=
  bfs_loop cg to_usrs (Z.to_nat max_depth) [(from_usr, [from_usr])] {[from_usr]}.

Definition exact_name (re : RegexEngine) (function_name : string) : string :=
  "^" +:+ re_escape re function_name +:+ "$".

Definition get_call_path (re : RegexEngine) (from_function to_function : string)
    (max_depth : Z) : M (list (list string)) :=
  do from_funcs <- search_functions re (exact_name re from_function) false None;
  do to_funcs <- search_functions re (exact_name re to_function) false None;
  match from_funcs, to_funcs with
  | [], _ | _, [] => ret []
  | _, _ =>
      do ix <- get_indexes;
      let from_usrs := usrs_of_hits ix from_funcs in
      let to_usrs := usrs_of_hits ix to_funcs in
      ret (flat_map
             (λ from_usr,
                name_path ix <$>
                  bfs_paths (call_graph_analyzer ix) to_usrs max_depth from_usr)
             (elements from_usrs))
  end.

(** *** Call paths of a graph *)

Section call_paths.

Variable cg : CallGraph.CallGraphAnalyzer.

Variable to_usrs : gset string.

Variable from_usr : string.

(** Consecutive USRs of a path are caller and callee. *)
Fixpoint call_chain (p : list string) : Prop :=
  match p with
  | a :: (b :: _) as tl => b ∈ CallGraph.find_callees cg a ∧ call_chain tl
  | _ => True
  end.

(** A simple call path from [from_usr] to a target. *)
Definition simple_call_path (p : list string) : Prop :=
  head p = Some from_usr ∧ (∃ t, last p = Some t ∧ t ∈ to_usrs) ∧
  call_chain p ∧ NoDup p.

(** What the loop keeps true of a queue entry at a given level. *)
Definition entry_ok (visited : gset string) (n : nat)
    (entry : string * list string) : Prop :=
  head entry.2 = Some from_usr ∧ last entry.2 = Some entry.1 ∧
  call_chain entry.2 ∧ NoDup entry.2 ∧
  (∀ x, x ∈ entry.2 → x ∈ visited) ∧ length entry.2 = n.

(** A path that reached a target at level [n]. *)
Definition found_ok (n : nat) (p : list string) : Prop :=
  simple_call_path p ∧ length p = n.

End call_paths.

(** ** cache_manager.py

    Reading and writing the cache directory is taken to succeed; the
    [except] branches that only catch I/O failures are not modelled. *)

Module CacheManager.

Definition index_json (index : list (string * list SymbolInfo)) : JSON :=
  JObj (foldl (λ acc kv, od_set acc kv.1 (JList (to_dict <$> kv.2))) [] index).

Definition hashes_json (file_hashes : list (string * string)) : JSON :=
  JObj (prod_map id JStr <$> file_hashes).

Definition save_cache (class_index function_index : list (string * list SymbolInfo))
    (file_hashes : list (string * string)) (indexed_file_count : Z)
    (include_dependencies : bool) (now : Z) : M bool :=
  do w <- get_world;
  put_disk
    (mkDisk
       (Some (JObj [("version", JStr "2.0");
                    ("include_dependencies", JBool include_dependencies);
                    ("class_index", index_json class_index);
                    ("function_index", index_json function_index);
                    ("file_hashes", hashes_json file_hashes);
                    ("indexed_file_count", JInt indexed_file_count);
                    ("timestamp", JInt now)]))
       (file_caches (disk w))) ;;
  ret true.

(** [value != flag] for a loaded JSON value and a [bool]; in Python
    [1 == True] and [0 == False]. *)
Definition differs_from_bool (value : JSON) (flag : bool) : bool :=
  match value with
  | JBool b => negb (Bool.eqb b flag)
  | JInt n => negb (n =? (if flag then 1 else 0))%Z
  | _ => true
  end.

Definition differs_from_str (value : JSON) (s : string) : bool :=
  match value with
  | JStr s' => negb (String.eqb s' s)
  | _ => true
  end.

(** [load_cache]; the diagnostics are kept without the values they
    interpolate. *)
Definition load_cache (include_dependencies : bool)
  : M (option (list (string * JSON))) :=
  do w <- get_world;
  match cache_info (disk w) with
  | None => ret None
  | Some (JObj cache_data) =>
      if differs_from_str (jget cache_data "version" JNull) "2.0" then
        print "Cache version mismatch, rebuilding..." ;; ret None
      else if differs_from_bool
                (jget cache_data "include_dependencies" (JBool false))
                include_dependencies then
        print "Cache dependencies setting mismatch" ;; ret None
      else ret (Some cache_data)
  | Some _ => print "Error loading cache" ;; ret None
  end.

Definition save_file_cache (file_path : string) (symbols : list SymbolInfo)
    (file_hash : string) (now : Z) : M bool :=
  do w <- get_world;
  put_disk
    (mkDisk (cache_info (disk w))
       (<[file_path :=
            JObj [("file_path", JStr file_path);
                  ("file_hash", JStr file_hash);
                  ("timestamp", JInt now);
                  ("symbols", JList (to_dict <$> symbols))]]>
          (file_caches (disk w)))) ;;
  ret true.

(** [load_file_cache]: every failure inside the [try] yields [None]. *)
Definition load_file_cache (file_path current_hash : string)
  : M (option (list SymbolInfo)) :=
  do w <- get_world;
  match file_caches (disk w) !! file_path with
  | Some (JObj cache_data) =>
      if differs_from_str (jget cache_data "file_hash" JNull) current_hash
      then ret None
      else ret (as_list (jget cache_data "symbols" (JList [])) ≫= mapM from_dict)
  | _ => ret None
  end.

(** The methods that class [CacheManager] defines. *)
Definition methods : list string :=
  ["__init__"; "_get_cache_dir"; "get_file_hash"; "save_cache"; "load_cache";
   "get_file_cache_path"; "save_file_cache"; "load_file_cache";
   "save_progress"; "load_progress"].

(** Looking up an attribute on the [CacheManager] instance, whose
    instance attributes are [project_root] and [cache_dir]. *)
Definition getattr (attr : string) : M unit :=
  if bool_decide (attr ∈ methods ++ ["project_root"; "cache_dir"]) then ret tt
  else raise (AttributeError "CacheManager" attr).

End CacheManager.

(** ** cpp_analyzer.py: the global cache *)

Definition _save_cache (now : Z) : M unit :=
  do w <- get_world;
  let a := analyzer w in
  let ix := indexes a in
  CacheManager.save_cache (view ix (class_index ix)) (view ix (function_index ix))
    (file_hashes a) (indexed_file_count a) (include_dependencies a) now ;;
  ret tt.

(** Allocating the objects of [[SymbolInfo( **info ) for info in infos]]. *)
Definition load_infos (h : list SymbolInfo) (infos : JSON)
  : option (list SymbolInfo * list Ref) :=
  l ← as_list infos;
  symbols ← mapM from_dict l;
  Some (h ++ symbols, seq (length h) (length symbols)).

(** [for name, infos in items: index[name] = [...]], stopping at the
    first entry that raises. *)
Fixpoint load_index (items : list (string * JSON)) (h : list SymbolInfo)
    (index : list (string * list Ref))
  : list SymbolInfo * list (string * list Ref) * bool :=
  match items with
  | [] => (h, index, true)
  | (name, infos) :: rest =>
      match load_infos h infos with
      | Some (h', refs) => load_index rest h' (od_set index name refs)
      | None => (h, index, false)
      end
  end.

Definition as_hashes (j : JSON) : option (list (string * string)) :=
  fs ← as_obj j;
  mapM (λ kv, v ← as_str kv.2; Some (kv.1, v)) fs.

(** All references held by a by-name index, in iteration order. *)
Definition all_refs (index : list (string * list Ref)) : list Ref :=
  flat_map snd index.

(** [if symbol.usr: self.usr_index[symbol.usr] = symbol] over a list. *)
Definition index_usrs (h : list SymbolInfo) (m : gmap string Ref)
    (refs : list Ref) : gmap string Ref :=
  foldl (λ m r, let u := usr (lookup_object h r) in
                if truthy u then <[u := r]> m else m) m refs.

Definition load_failed (a : CppAnalyzer) (ix : Indexes) : M bool :=
  put_analyzer (with_indexes a ix) ;;
  print "Error loading cache" ;;
  ret false.

(** [_load_cache].  Each [load_failed] is the [except Exception] branch
    taken with the indexes as the statements before the failure left
    them.  A [file_hashes] or [indexed_file_count] entry of another JSON
    type than the one [save_cache] writes is outside the typed model
    and is treated as a failure too. *)
Definition _load_cache : M bool :=
  do w <- get_world;
  let a := analyzer w in
  let ix := indexes a in
  do cache_data <- CacheManager.load_cache (include_dependencies a);
  match cache_data with
  | None | Some [] => ret false
  | Some cache_data =>
      match as_obj (jget cache_data "class_index" (JObj [])) with
      | None =>
          load_failed a (mkIndexes (heap ix) [] (function_index ix)
                           (file_index ix) (usr_index ix) (call_graph_analyzer ix))
      | Some class_items =>
          let '(h1, classes, ok1) := load_index class_items (heap ix) [] in
          if negb ok1 then
            load_failed a (mkIndexes h1 classes (function_index ix)
                             (file_index ix) (usr_index ix) (call_graph_analyzer ix))
          else
            match as_obj (jget cache_data "function_index" (JObj [])) with
            | None =>
                load_failed a (mkIndexes h1 classes [] (file_index ix)
                                 (usr_index ix) (call_graph_analyzer ix))
            | Some function_items =>
                let '(h2, functions, ok2) := load_index function_items h1 [] in
                match
                  (if ok2 then
                     hashes ← as_hashes (jget cache_data "file_hashes" (JObj []));
                     count ← as_int (jget cache_data "indexed_file_count" (JInt 0));
                     Some (hashes, count)
                   else None)
                with
                | None =>
                    load_failed a (mkIndexes h2 classes functions (file_index ix)
                                     (usr_index ix) (call_graph_analyzer ix))
                | Some (hashes, count) =>
                    let refs := all_refs classes ++ all_refs functions in
                    let all_symbols :=
                      filter (λ symbol, truthy (usr symbol) = true)
                             (lookup_object h2 <$> refs) in
                    let ix' :=
                      mkIndexes h2 classes functions (file_index ix)
                        (index_usrs h2 ∅ refs)
                        (CallGraph.rebuild_from_symbols
                           (CallGraph.clear (call_graph_analyzer ix)) all_symbols) in
                    put_analyzer
                      (mkAnalyzer ix' hashes (translation_units a) count
                         (include_dependencies a) (file_scanner a)) ;;
                    print ("Loaded cache with " +:+ pretty (length classes) +:+
                           " classes, " +:+ pretty (length functions) +:+
                           " functions") ;;
                    ret true
                end
            end
      end
  end.

(** ** cpp_analyzer.py: parsing a file into the indexes *)

(** The part of a libclang cursor that the walk reads. *)
Inductive CursorKind :=
| CLASS_DECL | STRUCT_DECL | FUNCTION_DECL | CXX_METHOD | CALL_EXPR
| CXX_BASE_SPECIFIER | OTHER_KIND.

#[global] Instance CursorKind_eq_dec : EqDecision CursorKind.
Proof. solve_decision. Defined.

(** [location_file] is [cursor.location.file.name] ([None] when the
    cursor has no file), [get_usr] is [""] when libclang gives none,
    [referenced] is the USR of [cursor.referenced] ([None] when there is
    no referenced cursor). *)
Inductive Cursor := mkCursor {
  cursor_kind : CursorKind;
  spelling : string;
  location_file : option string;
  location_line : Z;
  location_column : Z;
  get_usr : string;
  type_spelling : string;
  referenced : option string;
  get_children : list Cursor
}.

(** What the analyzer reads from outside during one operation. *)
Inductive ParseResult :=
| ParseRaises
| ParseNothing
| Parsed (cursor : Cursor).

Record Env := mkEnv {
  tree : list Scanner.Node;
  path_exists : string → bool;
  get_file_hash : string → string;
  parse : string → ParseResult;
  now : Z
}.

Definition _get_base_classes (cursor : Cursor) : list string :=
  flat_map
    (λ child,
       if decide (cursor_kind child = CXX_BASE_SPECIFIER) then
         let base_type := type_spelling child in
         [if String.prefix "class " base_type
          then String.substring 6 (String.length base_type - 6) base_type
          else base_type]
       else [])
    (get_children cursor).

(** [d[k].append(r)] on a [defaultdict(list)]. *)
Definition od_append (d : list (string * list Ref)) (k : string) (r : Ref)
  : list (string * list Ref) :=
  od_set d k (get_list d k ++ [r]).

(** The three index updates made under [index_lock] for a new record;
    [as_class] selects [class_index] or [function_index]. *)
Definition register (as_class : bool) (info : SymbolInfo) (ix : Indexes) : Indexes :=
  let r := length (heap ix) in
  mkIndexes
    (heap ix ++ [info])
    (if as_class then od_append (class_index ix) (name info) r else class_index ix)
    (if as_class then function_index ix
     else od_append (function_index ix) (name info) r)
    (if truthy (file info)
     then <[file info := default [] (file_index ix !! file info) ++ [r]]>
            (file_index ix)
     else file_index ix)
    (if truthy (usr info) then <[usr info := r]> (usr_index ix) else usr_index ix)
    (call_graph_analyzer ix).

Definition with_call_graph (ix : Indexes) (cg : CallGraph.CallGraphAnalyzer)
  : Indexes :=
  mkIndexes (heap ix) (class_index ix) (function_index ix) (file_index ix)
            (usr_index ix) cg.

Definition file_name (cursor : Cursor) : string :=
  default "" (location_file cursor).

Definition is_project_of (sc : Scanner.FileScanner) (cursor : Cursor) : bool :=
  match location_file cursor with
  | Some f => Scanner.is_project_file sc f
  | None => false
  end.

Fixpoint _process_cursor (sc : Scanner.FileScanner) (file_filter : option string)
    (cursor : Cursor) (parent_class parent_function_usr : string)
    (ix : Indexes) {struct cursor} : Indexes :=
  let other_file :=
    match location_file cursor, file_filter with
    | Some f, Some flt => truthy flt && negb (String.eqb f flt)
    | _, _ => false
    end in
  if other_file then ix
  else
    let children pc pfu ix0 :=
      foldl (λ ix1 child, _process_cursor sc file_filter child pc pfu ix1)
            ix0 (get_children cursor) in
    match cursor_kind cursor with
    | CLASS_DECL | STRUCT_DECL =>
        if truthy (spelling cursor) then
          let info :=
            mkSymbolInfo (spelling cursor)
              (if decide (cursor_kind cursor = CLASS_DECL) then "class" else "struct")
              (file_name cursor) (location_line cursor) (location_column cursor)
              "" (is_project_of sc cursor) "" "public" ""
              (_get_base_classes cursor) (get_usr cursor) [] [] in
          children (spelling cursor) "" (register true info ix)
        else children parent_class parent_function_usr ix
    | FUNCTION_DECL | CXX_METHOD =>
        if truthy (spelling cursor) then
          let function_usr := get_usr cursor in
          let info :=
            mkSymbolInfo (spelling cursor)
              (if decide (cursor_kind cursor = FUNCTION_DECL)
               then "function" else "method")
              (file_name cursor) (location_line cursor) (location_column cursor)
              (type_spelling cursor) (is_project_of sc cursor) "" "public"
              (if decide (cursor_kind cursor = CXX_METHOD) then parent_class else "")
              [] function_usr [] [] in
          children parent_class function_usr (register false info ix)
        else children parent_class parent_function_usr ix
    | CALL_EXPR =>
        let ix1 :=
          if truthy parent_function_usr then
            match referenced cursor with
            | Some called_usr =>
                if truthy called_usr then
                  with_call_graph ix
                    (CallGraph.add_call (call_graph_analyzer ix)
                                        parent_function_usr called_usr)
                else ix
            | None => ix
            end
          else ix in
        children parent_class parent_function_usr ix1
    | _ => children parent_class parent_function_usr ix
    end.

(** [info.kind in ("class", "struct")] *)
Definition is_class_kind (info : SymbolInfo) : bool :=
  bool_decide (kind info ∈ ["class"; "struct"]).

Definition is_function_kind (info : SymbolInfo) : bool :=
  bool_decide (kind info ∈ ["function"; "method"]).

(** [index[name] = [i for i in index[name] if i.file != file_path]] on a
    [defaultdict(list)]. *)
Definition drop_file (ix : Indexes) (file_path : string)
    (index : list (string * list Ref)) (key : string)
  : list (string * list Ref) :=
  od_set index key
    (filter (λ r, file (deref ix r) ≠ file_path) (get_list index key)).

(** "Clear old entries for this file" in [index_file]. *)
Definition clear_old_entries (file_path : string) (ix : Indexes) : Indexes :=
  match file_index ix !! file_path with
  | Some refs =>
      foldl
        (λ ix0 r,
           let info := deref ix0 r in
           if is_class_kind info then
             mkIndexes (heap ix0)
               (drop_file ix0 file_path (class_index ix0) (name info))
               (function_index ix0) (file_index ix0) (usr_index ix0)
               (call_graph_analyzer ix0)
           else
             mkIndexes (heap ix0) (class_index ix0)
               (drop_file ix0 file_path (function_index ix0) (name info))
               (file_index ix0) (usr_index ix0) (call_graph_analyzer ix0))
        ix refs
  | None => ix
  end.

(** The loop over [cached_symbols] in [index_file]. *)
Definition add_cached_symbol (ix : Indexes) (r : Ref) : Indexes :=
  let symbol := deref ix r in
  let cg1 :=
    foldl (λ g called_usr, CallGraph.add_call g (usr symbol) called_usr)
          (call_graph_analyzer ix) (calls symbol) in
  let cg2 :=
    foldl (λ g caller_usr, CallGraph.add_call g caller_usr (usr symbol))
          cg1 (called_by symbol) in
  mkIndexes (heap ix)
    (if is_class_kind symbol then od_append (class_index ix) (name symbol) r
     else class_index ix)
    (if is_class_kind symbol then function_index ix
     else od_append (function_index ix) (name symbol) r)
    (file_index ix)
    (if truthy (usr symbol) then <[usr symbol := r]> (usr_index ix)
     else usr_index ix)
    cg2.

Definition set_calls (s : SymbolInfo) (l : list string) : SymbolInfo :=
  mkSymbolInfo (name s) (kind s) (file s) (line s) (column s) (signature s)
    (is_project s) (namespace s) (access s) (parent_class s) (base_classes s)
    (usr s) l (called_by s).

Definition set_called_by (s : SymbolInfo) (l : list string) : SymbolInfo :=
  mkSymbolInfo (name s) (kind s) (file s) (line s) (column s) (signature s)
    (is_project s) (namespace s) (access s) (parent_class s) (base_classes s)
    (usr s) (calls s) l.

(** "Populate call graph info in symbols before caching": the object is
    updated in place, so every index that holds it sees the update. *)
Definition populate (ix : Indexes) (r : Ref) : Indexes :=
  let symbol := deref ix r in
  if truthy (usr symbol) && is_function_kind symbol then
    let callees := CallGraph.find_callees (call_graph_analyzer ix) (usr symbol) in
    let callers := CallGraph.find_callers (call_graph_analyzer ix) (usr symbol) in
    let s1 := if decide (callees = ∅) then symbol
              else set_calls symbol (elements callees) in
    let s2 := if decide (callers = ∅) then s1
              else set_called_by s1 (elements callers) in
    mkIndexes (<[r := s2]> (heap ix)) (class_index ix) (function_index ix)
              (file_index ix) (usr_index ix) (call_graph_analyzer ix)
  else ix.

(** What [index_file] returns: a pair, or the bare [False] of the
    [if not tu] branch. *)
Inductive IndexResult :=
| Returned (success was_cached : bool)
| ReturnedFalse.

Definition set_file_hash (file_path file_hash : string) : M unit :=
  do w <- get_world;
  let a := analyzer w in
  put_analyzer
    (mkAnalyzer (indexes a) (od_set (file_hashes a) file_path file_hash)
       (translation_units a) (indexed_file_count a) (include_dependencies a)
       (file_scanner a)).

Definition add_translation_unit (file_path : string) : M unit :=
  do w <- get_world;
  let a := analyzer w in
  put_analyzer
    (mkAnalyzer (indexes a) (file_hashes a) (translation_units a ∪ {[file_path]})
       (indexed_file_count a) (include_dependencies a) (file_scanner a)).

Definition index_file (env : Env) (file_path : string) (force : bool)
  : M IndexResult :=
  let current_hash := get_file_hash env file_path in
  do cached_symbols <-
    (if force then ret None
     else CacheManager.load_file_cache file_path current_hash);
  match cached_symbols with
  | Some cached_symbols =>
      do ix <- get_indexes;
      let ix1 := clear_old_entries file_path ix in
      let refs := seq (length (heap ix1)) (length cached_symbols) in
      let ix2 :=
        mkIndexes (heap ix1 ++ cached_symbols) (class_index ix1)
          (function_index ix1) (<[file_path := refs]> (file_index ix1))
          (usr_index ix1) (call_graph_analyzer ix1) in
      put_indexes (foldl add_cached_symbol ix2 refs) ;;
      set_file_hash file_path current_hash ;;
      ret (Returned true true)
  | None =>
      match parse env file_path with
      | ParseRaises => ret (Returned false false)
      | ParseNothing =>
          print ("Failed to parse " +:+ file_path) ;; ret ReturnedFalse
      | Parsed cursor =>
          do w <- get_world;
          let ix := indexes (analyzer w) in
          let ix1 := clear_old_entries file_path ix in
          let ix2 :=
            match file_index ix1 !! file_path with
            | Some _ =>
                mkIndexes (heap ix1) (class_index ix1) (function_index ix1)
                  (<[file_path := []]> (file_index ix1)) (usr_index ix1)
                  (call_graph_analyzer ix1)
            | None => ix1
            end in
          let ix3 :=
            _process_cursor (file_scanner (analyzer w)) (Some file_path)
                            cursor "" "" ix2 in
          let collected := default [] (file_index ix3 !! file_path) in
          let ix4 := foldl populate ix3 collected in
          put_indexes ix4 ;;
          CacheManager.save_file_cache file_path (records ix4 collected)
            current_hash (now env) ;;
          add_translation_unit file_path ;;
          set_file_hash file_path current_hash ;;
          ret (Returned true false)
      end
  end.

(** ** cpp_analyzer.py: refreshing *)

(** The by-name part of one round of [_remove_file_from_indexes]: filter
    the entry of [key] if there is one and delete it when it empties. *)
Definition remove_from (ix : Indexes) (file_path : string)
    (index : list (string * list Ref)) (key : string)
  : list (string * list Ref) :=
  match od_get index key with
  | Some refs =>
      match filter (λ r, file (deref ix r) ≠ file_path) refs with
      | [] => od_del index key
      | kept => od_set index key kept
      end
  | None => index
  end.

Definition remove_symbol_of (file_path : string) (ix : Indexes) (r : Ref)
  : Indexes :=
  let symbol := deref ix r in
  mkIndexes (heap ix)
    (if is_class_kind symbol
     then remove_from ix file_path (class_index ix) (name symbol)
     else class_index ix)
    (if negb (is_class_kind symbol) && is_function_kind symbol
     then remove_from ix file_path (function_index ix) (name symbol)
     else function_index ix)
    (file_index ix)
    (if truthy (usr symbol) then delete (usr symbol) (usr_index ix)
     else usr_index ix)
    (if truthy (usr symbol)
     then CallGraph.remove_symbol (call_graph_analyzer ix) (usr symbol)
     else call_graph_analyzer ix).

Definition _remove_file_from_indexes (file_path : string) (ix : Indexes)
  : Indexes :=
  let symbols_to_remove := default [] (file_index ix !! file_path) in
  let ix1 := foldl (remove_symbol_of file_path) ix symbols_to_remove in
  mkIndexes (heap ix1) (class_index ix1) (function_index ix1)
            (delete file_path (file_index ix1)) (usr_index ix1)
            (call_graph_analyzer ix1).

(** [_find_cpp_files]: stores the flag in the scanner, then scans. *)
Definition _find_cpp_files (env : Env) (include_deps : bool)
  : M (list string) :=
  do w <- get_world;
  let a := analyzer w in
  let sc := file_scanner a in
  let sc' := Scanner.mkScanner (Scanner.project_root sc) include_deps
               (Scanner.EXCLUDE_DIRS sc) (Scanner.DEPENDENCY_DIRS sc) in
  put_analyzer
    (mkAnalyzer (indexes a) (file_hashes a) (translation_units a)
       (indexed_file_count a) (include_dependencies a) sc') ;;
  ret (Scanner.find_cpp_files sc' (tree env)).

Fixpoint foldM {A B} (f : B → A → M B) (b : B) (l : list A) : M B :=
  match l with
  | [] => ret b
  | x :: l' => do b' <- f b x; foldM f b' l'
  end.

(** [success, _ = self.index_file(...)]: unpacking the bare [False]
    raises. *)
Definition unpack (r : IndexResult) : M bool :=
  match r with
  | Returned success _ => ret success
  | ReturnedFalse => raise (TypeError "cannot unpack non-iterable bool object")
  end.

(** The body of the loop over [deleted_files]. *)
Definition forget_file (file_path : string) : M unit :=
  do w <- get_world;
  let a := analyzer w in
  put_analyzer
    (mkAnalyzer (_remove_file_from_indexes file_path (indexes a))
       (od_del (file_hashes a) file_path)
       (translation_units a ∖ {[file_path]})
       (indexed_file_count a) (include_dependencies a) (file_scanner a)) ;;
  (* self.cache_manager.remove_file_cache(file_path): the attribute
     lookup comes first, and the class defines no such method *)
  CacheManager.getattr "remove_file_cache".

(** [refresh_if_needed].  The two set differences are iterated in the
    order of the tracked keys and of the scan; Python fixes no order
    for them. *)
Definition refresh_if_needed (env : Env) : M Z :=
  do w0 <- get_world;
  do current_files <- _find_cpp_files env (include_dependencies (analyzer w0));
  let tracked_files := od_keys (file_hashes (analyzer w0)) in
  let deleted_files := filter (λ f, f ∉ current_files) tracked_files in
  do deleted <-
    foldM (λ deleted file_path, forget_file file_path ;; ret (deleted + 1)%Z)
          0%Z deleted_files;
  do w1 <- get_world;
  do refreshed <-
    foldM
      (λ refreshed file_path,
         if negb (path_exists env file_path) then ret refreshed
         else
           do w <- get_world;
           if decide (Some (get_file_hash env file_path) ≠
                      od_get (file_hashes (analyzer w)) file_path) then
             do r <- index_file env file_path true;
             do success <- unpack r;
             ret (if success then (refreshed + 1)%Z else refreshed)
           else ret refreshed)
      0%Z (od_keys (file_hashes (analyzer w1)));
  let new_files := filter (λ f, f ∉ tracked_files) current_files in
  do refreshed <-
    foldM
      (λ refreshed file_path,
         do r <- index_file env file_path false;
         do success <- unpack r;
         ret (if success then (refreshed + 1)%Z else refreshed))
      refreshed new_files;
  (if ((0 <? refreshed) || (0 <? deleted))%Z then
     _save_cache (now env) ;;
     (if (0 <? deleted)%Z
      then print ("Removed " +:+ pretty deleted +:+ " deleted files from indexes")
      else ret tt)
   else ret tt) ;;
  ret refreshed.

(** The scanner output that [refresh_if_needed] works with. *)
Definition scanned (env : Env) (a : CppAnalyzer) : list string :=
  let sc := file_scanner a in
  Scanner.find_cpp_files
    (Scanner.mkScanner (Scanner.project_root sc) (include_dependencies a)
                       (Scanner.EXCLUDE_DIRS sc) (Scanner.DEPENDENCY_DIRS sc))
    (tree env).

(** ** cpp_analyzer_config.py and [CppAnalyzer.__init__] *)

Definition default_exclude_directories : list string :=
  [".git"; ".svn"; ".hg"; "node_modules"; "__pycache__"; ".pytest_cache";
   ".vs"; ".vscode"; ".idea"; "CMakeFiles"; "CMakeCache.txt"].

Definition default_dependency_directories : list string :=
  ["vcpkg_installed"; "third_party"; "ThirdParty"; "external"; "External";
   "vendor"; "dependencies"; "packages"].

(** A new analyzer: empty indexes, the scanner configured from the
    configuration document. *)
Definition new_analyzer (project_root : string)
    (exclude_directories dependency_directories : list string)
    (include_deps : bool) : CppAnalyzer :=
  mkAnalyzer (mkIndexes [] [] [] ∅ ∅ CallGraph.init) [] ∅ 0 include_deps
    (Scanner.mkScanner project_root false (list_to_set exclude_directories)
                       (list_to_set dependency_directories)).

Definition new_world (project_root : string) (include_deps : bool) : World :=
  mkWorld (new_analyzer project_root default_exclude_directories
                        default_dependency_directories include_deps)
          (mkDisk None ∅) [].

(** The world after an operation, and its result. *)
Definition exec {A} (m : M A) (w : World) : World := (m w).2.

Definition result {A} (m : M A) (w : World) : Outcome A := (m w).1.

(** ** A small project

    [/proj/a.cpp] holds [class A {};] and [void f() { g(); }],
    [/proj/b.cpp] holds [void g() {}], and [/proj/vendor/lib.hpp] holds
    [void lib();]. *)

Module Demo.

Definition translation_unit (children : list Cursor) : Cursor :=
  mkCursor OTHER_KIND "" None 0 0 "" "" None children.

Definition compound (file_path : string) (ln : Z) (children : list Cursor)
  : Cursor :=
  mkCursor OTHER_KIND "" (Some file_path) ln 10 "" "" None children.

Definition class_decl (file_path class_name : string) (ln : Z)
    (children : list Cursor) : Cursor :=
  mkCursor CLASS_DECL class_name (Some file_path) ln 7
           ("c:@S@" +:+ class_name) class_name None children.

Definition function_usr (function_name : string) : string :=
  "c:@F@" +:+ function_name +:+ "#".

Definition function_decl (file_path function_name : string) (ln : Z)
    (children : list Cursor) : Cursor :=
  mkCursor FUNCTION_DECL function_name (Some file_path) ln 6
           (function_usr function_name) "void ()" None children.

Definition call_expr (file_path callee : string) (ln : Z) : Cursor :=
  mkCursor CALL_EXPR callee (Some file_path) ln 12 "" "void"
           (Some (function_usr callee)) [].

(** A function whose body calls the given functions. *)
Definition function_calling (file_path function_name : string) (ln : Z)
    (callees : list string) : Cursor :=
  function_decl file_path function_name ln
    [compound file_path ln ((λ c, call_expr file_path c ln) <$> callees)].

Definition a_cpp : string := "/proj/a.cpp".

Definition b_cpp : string := "/proj/b.cpp".

Definition lib_hpp : string := "/proj/vendor/lib.hpp".

Definition project_tree : list Scanner.Node :=
  [Scanner.File "a.cpp"; Scanner.File "b.cpp"; Scanner.File "README.md";
   Scanner.Dir ".git" [Scanner.File "hook.h"];
   Scanner.Dir "vendor" [Scanner.File "lib.hpp"]].

Definition sources (file_path : string) : ParseResult :=
  if String.eqb file_path a_cpp then
    Parsed (translation_unit
              [class_decl a_cpp "A" 1 [];
               function_calling a_cpp "f" 2 ["g"]])
  else if String.eqb file_path b_cpp then
    Parsed (translation_unit [function_calling b_cpp "g" 1 []])
  else if String.eqb file_path lib_hpp then
    Parsed (translation_unit [function_calling lib_hpp "lib" 1 []])
  else ParseRaises.

Definition env : Env :=
  mkEnv project_tree
        (λ p, bool_decide (p ∈ [a_cpp; b_cpp; lib_hpp]))
        (λ p, "md5 of " +:+ p)
        sources 1000.

(** The world after indexing the two project files. *)
Definition indexed : World :=
  exec (index_file env a_cpp true ;; index_file env b_cpp true)
       (new_world "/proj" true).

(** The project after [/proj/a.cpp] was edited to hold [class A2 {};]
    only: [A] and [f] are gone from the file. *)
Definition edited_sources (file_path : string) : ParseResult :=
  if String.eqb file_path a_cpp then
    Parsed (translation_unit [class_decl a_cpp "A2" 1 []])
  else sources file_path.

Definition edited_env : Env :=
  mkEnv project_tree
        (λ p, bool_decide (p ∈ [a_cpp; b_cpp; lib_hpp]))
        (λ p, if String.eqb p a_cpp then "md5 of the edited " +:+ p
              else "md5 of " +:+ p)
        edited_sources 2000.

(** The world after reparsing the edited file. *)
Definition reindexed : World :=
  exec (index_file edited_env a_cpp true) indexed.

(** The project after [/proj/b.cpp] was deleted. *)
Definition deleted_env : Env :=
  mkEnv [Scanner.File "a.cpp"; Scanner.File "README.md";
         Scanner.Dir ".git" [Scanner.File "hook.h"];
         Scanner.Dir "vendor" [Scanner.File "lib.hpp"]]
        (λ p, bool_decide (p ∈ [a_cpp; lib_hpp]))
        (λ p, "md5 of " +:+ p)
        sources 3000.

(** [/proj/diamond.cpp]: [top] calls [left] and [right], which both
    call [bottom]. *)
Definition diamond_cpp : string := "/proj/diamond.cpp".

Definition diamond_env : Env :=
  mkEnv [Scanner.File "diamond.cpp"]
        (λ p, bool_decide (p = diamond_cpp))
        (λ p, "md5 of " +:+ p)
        (λ p, Parsed (translation_unit
                        [function_calling diamond_cpp "bottom" 1 [];
                         function_calling diamond_cpp "left" 2 ["bottom"];
                         function_calling diamond_cpp "right" 3 ["bottom"];
                         function_calling diamond_cpp "top" 4 ["left"; "right"]]))
        1000.

Definition diamond : World :=
  exec (index_file diamond_env diamond_cpp true) (new_world "/proj" true).

(** [/proj/cycle.hpp]: a class record [P] with base [Q] and a class
    record [Q] with base [P], as same-named classes of two namespaces
    give; base classes are matched by their text, so the names form a
    cycle. *)
Definition cycle_hpp : string := "/proj/cycle.hpp".

Definition base_specifier (file_path base : string) (ln : Z) : Cursor :=
  mkCursor CXX_BASE_SPECIFIER base (Some file_path) ln 20 "" base None [].

Definition cycle_env : Env :=
  mkEnv [Scanner.File "cycle.hpp"]
        (λ p, bool_decide (p = cycle_hpp))
        (λ p, "md5 of " +:+ p)
        (λ p, Parsed (translation_unit
                        [class_decl cycle_hpp "P" 2 [base_specifier cycle_hpp "Q" 2];
                         class_decl cycle_hpp "Q" 5 [base_specifier cycle_hpp "P" 5]]))
        1000.

Definition cyclic : Indexes :=
  indexes (analyzer (exec (index_file cycle_env cycle_hpp true)
                          (new_world "/proj" true))).

End Demo.

(** ** Vocabulary of the properties *)

(** A sequence of call-graph operations with empty USRs among its
    arguments. *)
Definition some_ops : list CallGraph.Op :=
  [CallGraph.OpAddCall "c:@F@f#" "c:@F@g#"; CallGraph.OpAddCall "" "c:@F@g#";
   CallGraph.OpAddCall "c:@F@g#" ""; CallGraph.OpRemoveSymbol "c:@F@h#";
   CallGraph.OpAddCall "c:@F@g#" "c:@F@f#"; CallGraph.OpRemoveSymbol "c:@F@g#"].

(** The symbol kinds that [search_symbols] documents for [symbol_types]. *)
Definition documented_kinds : list string :=
  ["class"; "struct"; "function"; "method"].


(** The entries [save_cache] writes for a by-name index with unique keys. *)
Definition json_index_items (index : list (string * list SymbolInfo))
  : list (string * JSON) :=
  (λ kv, (kv.1, JList (to_dict <$> kv.2))) <$> index.

(** The references [load_index] hands out for the lists of an index,
    starting at heap position [n]. *)
Fixpoint alloc_refs (n : nat) (index : list (string * list SymbolInfo))
  : list (string * list Ref) :=
  match index with
  | [] => []
  | (k, recs) :: index' =>
      (k, seq n (length recs)) :: alloc_refs (n + length recs) index'
  end.

(** The map from a USR to its record that the loader derives from the
    records: the last record that carries the USR. *)
Definition derived_usr (recs : list SymbolInfo) (u : string) : option SymbolInfo :=
  if truthy u then last (filter (λ s, usr s = u) recs) else None.

(** [view] in terms of the heap alone. *)
Definition view_heap (h : list SymbolInfo) (d : list (string * list Ref))
  : list (string * list SymbolInfo) :=
  (λ kv : string * list Ref, (kv.1, lookup_object h <$> kv.2)) <$> d.

(** The document that [_save_cache] leaves in [cache_info.json]. *)
Definition saved_document (w : World) (now : Z) : list (string * JSON) :=
  let a := analyzer w in
  let ix := indexes a in
  [("version", JStr "2.0");
   ("include_dependencies", JBool (include_dependencies a));
   ("class_index", CacheManager.index_json (view ix (class_index ix)));
   ("function_index", CacheManager.index_json (view ix (function_index ix)));
   ("file_hashes", CacheManager.hashes_json (file_hashes a));
   ("indexed_file_count", JInt (indexed_file_count a));
   ("timestamp", JInt now)].

(** The indexes [_load_cache] builds from the document saved from [w],
    in an analyzer [a1]. *)
Definition loaded_indexes (w : World) (a1 : CppAnalyzer) : Indexes :=
  let ix := indexes (analyzer w) in
  let cv := view ix (class_index ix) in
  let fv := view ix (function_index ix) in
  let h0 := heap (indexes a1) in
  let h1 := h0 ++ concat cv.*2 in
  let h2 := h1 ++ concat fv.*2 in
  let classes := alloc_refs (length h0) cv in
  let functions := alloc_refs (length h1) fv in
  let refs := all_refs classes ++ all_refs functions in
  mkIndexes h2 classes functions (file_index (indexes a1))
    (index_usrs h2 ∅ refs)
    (CallGraph.rebuild_from_symbols
       (CallGraph.clear (call_graph_analyzer (indexes a1)))
       (filter (λ symbol, truthy (usr symbol) = true) (lookup_object h2 <$> refs))).

(** The analyzer of a restarted process, for the demo project. *)
Definition restarted_analyzer : CppAnalyzer :=
  new_analyzer "/proj" default_exclude_directories
               default_dependency_directories true.

(** [ix] still has every [usr_index] key and every call edge of [ix0]. *)
Definition keeps (ix0 ix : Indexes) : Prop :=
  (∀ u, is_Some (usr_index ix0 !! u) → is_Some (usr_index ix !! u)) ∧
  (∀ u v, v ∈ CallGraph.find_callees (call_graph_analyzer ix0) u →
          v ∈ CallGraph.find_callees (call_graph_analyzer ix) u).

(** ** search_engine.py: signatures and the symbols of a file *)

(** [SearchEngine.get_function_signature] *)
Definition get_function_signature (ix : Indexes) (function_name : string)
    (class_name : option string) : list string :=
  flat_map
    (λ info,
       if match class_name with
          | None => true
          | Some c => String.eqb (parent_class info) c
          end
       then [if truthy (parent_class info)
             then parent_class info +:+ "::" +:+ name info +:+ signature info
             else name info +:+ signature info]
       else [])
    (records ix (get_list (function_index ix) function_name)).

(** [SearchEngine.get_symbols_in_file] *)
Definition get_symbols_in_file (ix : Indexes) (file_path : string)
  : list SymbolInfo :=
  records ix (default [] (file_index ix !! file_path)).


(** ** cpp_analyzer.py: callers and callees

    The source iterates over Python sets; the order of the results is
    the order of [elements] here, and the properties below speak of
    membership only. *)

(** The dict that [find_callers] and [find_callees] build for a record. *)
Record CallHit := mkCallHit {
  ch_name : string; ch_kind : string; ch_file : string; ch_line : Z;
  ch_column : Z; ch_signature : string; ch_parent_class : string;
  ch_is_project : bool
}.

Definition call_hit (info : SymbolInfo) : CallHit :=
  mkCallHit (name info) (kind info) (file info) (line info) (column info)
            (signature info) (parent_class info) (is_project info).

(** [if usr in self.usr_index: results.append(...)] over a set of USRs. *)
Definition hits_of_usrs (ix : Indexes) (usrs : list string) : list CallHit :=
  flat_map
    (λ u, match usr_index ix !! u with
          | Some r => [call_hit (deref ix r)]
          | None => []
          end) usrs.

(** [CppAnalyzer.find_callers] *)
Definition find_callers (re : RegexEngine) (function_name class_name : string)
  : M (list CallHit) :=
  do target_functions <-
    search_functions re (exact_name re function_name) false (Some class_name);
  do ix <- get_indexes;
  let target_usrs := usrs_of_hits ix target_functions in
  ret (flat_map
         (λ usr, hits_of_usrs ix
                   (elements (CallGraph.find_callers
                                (call_graph_analyzer ix) usr)))
         (elements target_usrs)).

(** [CppAnalyzer.find_callees] *)
Definition find_callees (re : RegexEngine) (function_name class_name : string)
  : M (list CallHit) :=
  do target_functions <-
    search_functions re (exact_name re function_name) false (Some class_name);
  do ix <- get_indexes;
  let target_usrs := usrs_of_hits ix target_functions in
  ret (flat_map
         (λ usr, hits_of_usrs ix
                   (elements (CallGraph.find_callees
                                (call_graph_analyzer ix) usr)))
         (elements target_usrs)).

(** ** Two more small projects *)

(** The demo project without its [vendor] directory. *)
Definition plain_env : Env :=
  mkEnv [Scanner.File "a.cpp"; Scanner.File "b.cpp"; Scanner.File "README.md"]
        (λ p, bool_decide (p ∈ [Demo.a_cpp; Demo.b_cpp]))
        (λ p, "md5 of " +:+ p)
        Demo.sources 4000.

(** A small index written out: class [Widget] with the method [draw],
    and the free function [main], which calls [draw]. *)
Definition sample_records : list SymbolInfo :=
  [mkSymbolInfo "Widget" "class" "/proj/w.hpp" 1 7 "" true "" "public" ""
                ["Base"] "c:@S@Widget" [] [];
   mkSymbolInfo "draw" "method" "/proj/w.hpp" 3 8 "void ()" true "" "public"
                "Widget" [] "c:@S@Widget@F@draw#" [] ["c:@F@main#"];
   mkSymbolInfo "main" "function" "/proj/main.cpp" 5 5 "int ()" true ""
                "public" "" [] "c:@F@main#" ["c:@S@Widget@F@draw#"] []].

Definition sample_indexes : Indexes :=
  mkIndexes sample_records
    [("Widget", [0%nat])] [("draw", [1%nat]); ("main", [2%nat])]
    {["/proj/w.hpp" := [0%nat; 1%nat]; "/proj/main.cpp" := [2%nat]]}
    {["c:@S@Widget" := 0%nat; "c:@S@Widget@F@draw#" := 1%nat;
      "c:@F@main#" := 2%nat]}
    (CallGraph.add_call CallGraph.init "c:@F@main#" "c:@S@Widget@F@draw#").

Definition sample_world : World :=
  mkWorld
    (mkAnalyzer sample_indexes
       [("/proj/w.hpp", "md5 of /proj/w.hpp");
        ("/proj/main.cpp", "md5 of /proj/main.cpp")]
       ∅ 2 true
       (Scanner.mkScanner "/proj" true
          (list_to_set default_exclude_directories)
          (list_to_set default_dependency_directories)))
    (mkDisk None ∅) [].

(** ** Vocabulary of the further properties *)

(** *** The call graph *)

(** No stored set is empty. *)
Definition pruned (m : gmap string (gset string)) : Prop :=
  ∀ k s, m !! k = Some s → s ≠ ∅.

(** The (caller, callee) pairs that a list of records carries. *)
Definition carries (symbols : list SymbolInfo) (u v : string) : Prop :=
  ∃ s, s ∈ symbols ∧ usr s = u ∧ v ∈ calls s ∧ u ≠ "" ∧ v ≠ "".

(** Neither map of the graph stores an empty set. *)
Definition both_pruned (cg : CallGraph.CallGraphAnalyzer) : Prop :=
  pruned (CallGraph.call_graph cg) ∧ pruned (CallGraph.reverse_call_graph cg).

(** A record of a function with the given USR and callees. *)
Definition caller_record (u : string) (callees : list string) : SymbolInfo :=
  mkSymbolInfo "f" "function" "/proj/a.cpp" 1 1 "void ()" true "" "public" ""
               [] u callees [].

(** *** The scanner *)

(** The scanner with its [include_dependencies] attribute assigned. *)
Definition with_include_dependencies (sc : Scanner.FileScanner) (flag : bool)
  : Scanner.FileScanner :=
  Scanner.mkScanner (Scanner.project_root sc) flag
                    (Scanner.EXCLUDE_DIRS sc) (Scanner.DEPENDENCY_DIRS sc).

(** A path extends the directory it was found under and ends with one of
    the C++ extensions. *)
Definition scanned_ok (root p : string) : Prop :=
  (∃ t, p = root +:+ t) ∧
  ∃ ext, ext ∈ Scanner.CPP_EXTENSIONS ∧ Scanner.endswith p ext = true.

(** The components of a path extend those of the project root. *)
Definition under_root (sc : Scanner.FileScanner) (r : string) : Prop :=
  ∃ rel, Scanner.to_Path r = Scanner.to_Path (Scanner.project_root sc) ++ rel.

(** The analyzer with the scanner's [include_dependencies] attribute
    assigned, as [_find_cpp_files] leaves it. *)
Definition with_scanner_flag (a : CppAnalyzer) (flag : bool) : CppAnalyzer :=
  mkAnalyzer (indexes a) (file_hashes a) (translation_units a)
    (indexed_file_count a) (include_dependencies a)
    (Scanner.mkScanner (Scanner.project_root (file_scanner a)) flag
       (Scanner.EXCLUDE_DIRS (file_scanner a))
       (Scanner.DEPENDENCY_DIRS (file_scanner a))).

(** *** The branches of [index_file] *)

(** The indexes after the cache branch of [index_file]. *)
Definition cached_indexes (file_path : string) (cached_symbols : list SymbolInfo)
    (ix : Indexes) : Indexes :=
  let ix1 := clear_old_entries file_path ix in
  let refs := seq (length (heap ix1)) (length cached_symbols) in
  foldl add_cached_symbol
    (mkIndexes (heap ix1 ++ cached_symbols) (class_index ix1)
       (function_index ix1) (<[file_path := refs]> (file_index ix1))
       (usr_index ix1) (call_graph_analyzer ix1))
    refs.

(** The indexes after the walk of the parse branch of [index_file]. *)
Definition walked_indexes (sc : Scanner.FileScanner) (file_path : string)
    (cursor : Cursor) (ix : Indexes) : Indexes :=
  let ix1 := clear_old_entries file_path ix in
  let ix2 :=
    match file_index ix1 !! file_path with
    | Some _ =>
        mkIndexes (heap ix1) (class_index ix1) (function_index ix1)
          (<[file_path := []]> (file_index ix1)) (usr_index ix1)
          (call_graph_analyzer ix1)
    | None => ix1
    end in
  _process_cursor sc (Some file_path) cursor "" "" ix2.

(** The references and the indexes after the parse branch. *)
Definition collected_refs (sc : Scanner.FileScanner) (file_path : string)
    (cursor : Cursor) (ix : Indexes) : list Ref :=
  default [] (file_index (walked_indexes sc file_path cursor ix) !! file_path).

Definition parsed_indexes (sc : Scanner.FileScanner) (file_path : string)
    (cursor : Cursor) (ix : Indexes) : Indexes :=
  foldl populate (walked_indexes sc file_path cursor ix)
        (collected_refs sc file_path cursor ix).

(** *** The class hierarchy *)

(** The class a node of a hierarchy tree is about. *)
Definition hier_name (t : Hier) : string :=
  match t with
  | Circular class_name => class_name
  | Node class_name _ => class_name
  end.

(** *** The by-name indexes *)

(** A by-name index over a heap: each key once, every reference
    allocated, and every record listed under its own name. *)
Definition keyed_by_name (h : list SymbolInfo) (index : list (string * list Ref))
  : Prop :=
  od_wf index ∧
  ∀ k refs r, (k, refs) ∈ index → r ∈ refs →
              (r < length h)%nat ∧ name (lookup_object h r) = k.

Definition by_name_ok (ix : Indexes) : Prop :=
  keyed_by_name (heap ix) (class_index ix) ∧
  keyed_by_name (heap ix) (function_index ix).

(** An entry of a by-name index once the records of [file_path] are
    taken out: the entry disappears when nothing is left. *)
Definition cleaned (h : list SymbolInfo) (file_path : string)
    (entry : option (list Ref)) : option (list Ref) :=
  match entry with
  | Some refs =>
      match filter (λ r, file (lookup_object h r) ≠ file_path) refs with
      | [] => None
      | kept => Some kept
      end
  | None => None
  end.

(** Case analysis on membership in a list given by its elements. *)
Ltac in_concrete_list :=
  repeat match goal with
         | H : _ ∈ [] |- _ => by apply elem_of_nil in H
         | H : _ ∈ _ :: _ |- _ => apply elem_of_cons in H as [H|H]
         end.

(** The keys and USRs that [_remove_file_from_indexes] visits for a list
    of records. *)
Definition class_keys_of (symbols : list SymbolInfo) : list string :=
  name <$> filter (λ s, is_class_kind s = true) symbols.

Definition function_keys_of (symbols : list SymbolInfo) : list string :=
  name <$> filter (λ s, negb (is_class_kind s) && is_function_kind s = true)
                  symbols.

Definition usrs_of (symbols : list SymbolInfo) : list string :=
  filter (λ u, truthy u = true) (usr <$> symbols).

(** * Lemmas about the embedding *)

Lemma truthy_true (s : string) : truthy s = true ↔ s ≠ "".
Proof.
  unfold truthy. rewrite negb_true_iff.
  destruct (String.eqb_spec s ""); split; congruence.
Qed.

Lemma truthy_false (s : string) : truthy s = false ↔ s = "".
Proof.
  unfold truthy. rewrite negb_false_iff.
  destruct (String.eqb_spec s ""); split; congruence.
Qed.

(** ** call_graph.py *)

Module CallGraphFacts.

Import CallGraph.

(** *** Lookup lemmas *)

Lemma dd_get_add m k x k' :
  dd_get (dd_add m k x) k' =
  if decide (k = k') then dd_get m k ∪ {[x]} else dd_get m k'.
Proof.
  unfold dd_add, dd_get at 1. rewrite lookup_insert.
  case_decide; subst; done.
Qed.

Lemma dd_get_delete m k k' :
  dd_get (delete k m) k' = if decide (k = k') then ∅ else dd_get m k'.
Proof.
  unfold dd_get. rewrite lookup_delete. case_decide; done.
Qed.

Lemma dd_get_discard_prune usr m k k' :
  dd_get (discard_prune usr m k) k' =
  if decide (k = k') then dd_get m k ∖ {[usr]} else dd_get m k'.
Proof.
  unfold discard_prune. case_decide as He.
  - rewrite dd_get_delete. case_decide; congruence.
  - unfold dd_get at 1. rewrite lookup_insert. case_decide; subst; done.
Qed.

Lemma dd_get_foldl_discard_prune usr l m k :
  dd_get (foldl (discard_prune usr) m l) k =
  if decide (k ∈ l) then dd_get m k ∖ {[usr]} else dd_get m k.
Proof.
  revert m. induction l as [|a l IH]; intros m.
  - rewrite decide_False; [done | apply not_elem_of_nil].
  - simpl. rewrite IH, !dd_get_discard_prune.
    repeat case_decide; subst; set_solver.
Qed.

Lemma symmetric_init : symmetric init.
Proof. intros u v. unfold find_callees, find_callers, dd_get. simpl.
       rewrite !lookup_empty. simpl. set_solver. Qed.

Lemma symmetric_add_call cg a b : symmetric cg → symmetric (add_call cg a b).
Proof.
  intros Hs u v. unfold add_call.
  destruct (truthy a && truthy b); [|apply Hs].
  unfold find_callees, find_callers. simpl. rewrite !dd_get_add.
  specialize (Hs u v). unfold find_callees, find_callers in Hs.
  repeat case_decide; subst; set_solver.
Qed.

Lemma remove_symbol_halves cg x :
  remove_symbol cg x =
  let '(f1, b1) := half_remove x (call_graph cg) (reverse_call_graph cg) in
  let '(b2, f2) := half_remove x b1 f1 in
  mkCG f2 b2.
Proof.
  unfold remove_symbol, half_remove. destruct cg as [f b]; simpl.
  destruct (f !! x) as [out|]; simpl.
  - by destruct (foldl (discard_prune x) b (elements out) !! x).
  - by destruct (b !! x).
Qed.

Lemma half_remove_sym x fwd bwd f1 b1 :
  (∀ u v, v ∈ dd_get fwd u ↔ u ∈ dd_get bwd v) →
  half_remove x fwd bwd = (f1, b1) →
  (∀ u v, v ∈ dd_get f1 u ↔ u ∈ dd_get b1 v) ∧
  (∀ u v, v ∈ dd_get f1 u ↔ u ≠ x ∧ v ∈ dd_get fwd u).
Proof.
  intros Hs. unfold half_remove. destruct (fwd !! x) as [out|] eqn:E.
  - intros [= <- <-].
    assert (Hout : dd_get fwd x = out) by (unfold dd_get; by rewrite E).
    split; intros u v; rewrite dd_get_delete.
    + rewrite dd_get_foldl_discard_prune. specialize (Hs u v).
      assert (Hx := Hs).
      repeat case_decide; subst; rewrite ?elem_of_elements in *;
        set_solver.
    + case_decide; subst; set_solver.
  - intros [= <- <-]. split; [done|]. intros u v.
    destruct (decide (u = x)) as [->|]; [|naive_solver].
    unfold dd_get. rewrite E. simpl. set_solver.
Qed.

Lemma symmetric_remove_symbol cg x : symmetric cg → symmetric (remove_symbol cg x).
Proof.
  intros Hs. rewrite remove_symbol_halves.
  destruct (half_remove x (call_graph cg) (reverse_call_graph cg))
    as [f1 b1] eqn:E1.
  destruct (half_remove x b1 f1) as [b2 f2] eqn:E2.
  destruct (half_remove_sym _ _ _ _ _ Hs E1) as [H1 _].
  assert (H1' : ∀ u v, v ∈ dd_get b1 u ↔ u ∈ dd_get f1 v)
    by (intros; symmetry; apply H1).
  destruct (half_remove_sym _ _ _ _ _ H1' E2) as [H2 _].
  intros u v. unfold find_callees, find_callers; simpl. symmetry. apply H2.
Qed.

Lemma symmetric_add_calls_of cg s : symmetric cg → symmetric (add_calls_of cg s).
Proof.
  unfold add_calls_of. destruct (_ && _); [|done].
  generalize (calls s). intros l. revert cg.
  induction l as [|c l IH]; intros cg Hs; simpl; [done|].
  apply IH. by apply symmetric_add_call.
Qed.

Lemma symmetric_rebuild cg symbols : symmetric (rebuild_from_symbols cg symbols).
Proof.
  unfold rebuild_from_symbols.
  assert (H : symmetric (clear cg)) by apply symmetric_init.
  revert H. generalize (clear cg). induction symbols as [|s l IH];
    intros g Hg; simpl; [done|].
  apply IH. by apply symmetric_add_calls_of.
Qed.

Lemma symmetric_step cg op : symmetric cg → symmetric (step cg op).
Proof.
  destruct op; simpl; intros H.
  - by apply symmetric_add_call.
  - by apply symmetric_remove_symbol.
  - apply symmetric_rebuild.
  - apply symmetric_init.
Qed.

Lemma no_empty_usr_empty : no_empty_usr ∅.
Proof. intros k s. by rewrite lookup_empty. Qed.

Lemma no_empty_usr_dd_add m k x :
  k ≠ "" → x ≠ "" → no_empty_usr m → no_empty_usr (dd_add m k x).
Proof.
  intros Hk Hx Hm k' s. unfold dd_add. rewrite lookup_insert.
  case_decide as E.
  - intros [= <-]. subst k'. split; [done|].
    unfold dd_get. destruct (m !! k) as [s0|] eqn:E0; simpl.
    + destruct (Hm _ _ E0). set_solver.
    + set_solver.
  - apply Hm.
Qed.

Lemma no_empty_usr_delete m k : no_empty_usr m → no_empty_usr (delete k m).
Proof.
  intros Hm k' s. rewrite lookup_delete. case_decide; [done | apply Hm].
Qed.

Lemma no_empty_usr_discard_prune usr m k :
  no_empty_usr m → no_empty_usr (discard_prune usr m k).
Proof.
  intros Hm. unfold discard_prune. case_decide.
  - by apply no_empty_usr_delete.
  - intros k' s. rewrite lookup_insert. case_decide as E; [|apply Hm].
    intros [= <-]. subst k'. unfold dd_get in *.
    destruct (m !! k) as [s0|] eqn:E0; simpl in *.
    + destruct (Hm _ _ E0). set_solver.
    + exfalso. set_solver.
Qed.

Lemma no_empty_usr_foldl usr l m :
  no_empty_usr m → no_empty_usr (foldl (discard_prune usr) m l).
Proof.
  revert m. induction l as [|a l IH]; intros m Hm; simpl; [done|].
  by apply IH, no_empty_usr_discard_prune.
Qed.

Lemma add_call_empty_caller cg v : add_call cg "" v = cg.
Proof. done. Qed.

Lemma add_call_empty_callee cg u : add_call cg u "" = cg.
Proof. unfold add_call. by rewrite andb_false_r. Qed.

Lemma well_keyed_add_call cg u v : well_keyed cg → well_keyed (add_call cg u v).
Proof.
  intros [H1 H2]. unfold add_call.
  destruct (truthy u) eqn:Eu; [|done].
  destruct (truthy v) eqn:Ev; [|done]. simpl.
  apply truthy_true in Eu, Ev.
  split; simpl; by apply no_empty_usr_dd_add.
Qed.

Lemma well_keyed_remove_symbol cg x : well_keyed cg → well_keyed (remove_symbol cg x).
Proof.
  intros [H1 H2]. unfold remove_symbol.
  set (cg1 := match call_graph cg !! x with Some _ => _ | None => _ end).
  assert (Hcg1 : well_keyed cg1).
  { subst cg1. destruct (call_graph cg !! x); [|done].
    split; simpl; [by apply no_empty_usr_delete | by apply no_empty_usr_foldl]. }
  destruct (reverse_call_graph cg1 !! x); [|done].
  destruct Hcg1 as [H3 H4].
  split; simpl; [by apply no_empty_usr_foldl | by apply no_empty_usr_delete].
Qed.

Lemma well_keyed_add_calls_of cg s : well_keyed cg → well_keyed (add_calls_of cg s).
Proof.
  unfold add_calls_of. destruct (_ && _); [|done].
  generalize (calls s). intros l. revert cg.
  induction l as [|c l IH]; intros cg Hs; simpl; [done|].
  apply IH. by apply well_keyed_add_call.
Qed.

Lemma well_keyed_init : well_keyed init.
Proof. split; apply no_empty_usr_empty. Qed.

Lemma well_keyed_rebuild cg symbols : well_keyed (rebuild_from_symbols cg symbols).
Proof.
  unfold rebuild_from_symbols.
  assert (H : well_keyed (clear cg)) by apply well_keyed_init.
  revert H. generalize (clear cg). induction symbols as [|s l IH];
    intros g Hg; simpl; [done|].
  apply IH. by apply well_keyed_add_calls_of.
Qed.

Lemma well_keyed_step cg op : well_keyed cg → well_keyed (step cg op).
Proof.
  destruct op; simpl; intros H.
  - by apply well_keyed_add_call.
  - by apply well_keyed_remove_symbol.
  - apply well_keyed_rebuild.
  - apply well_keyed_init.
Qed.

Lemma run_snoc ops op : run (ops ++ [op]) = step (run ops) op.
Proof. unfold run. by rewrite foldl_app. Qed.

End CallGraphFacts.

(** ** file_scanner.py *)

Module ScannerFacts.

Import Scanner.

Lemma relative_to_app root rel : relative_to (root ++ rel) root = Some rel.
Proof.
  induction root as [|r root IH]; simpl; [done|].
  by rewrite String.eqb_refl.
Qed.

Lemma relative_to_Some p root rel :
  relative_to p root = Some rel → p = root ++ rel.
Proof.
  revert p. induction root as [|r root IH]; intros p; simpl.
  - by intros [= ->].
  - destruct p as [|x p]; [done|].
    destruct (String.eqb_spec x r); [|done].
    intros H. apply IH in H. by subst.
Qed.

(** Everything the walk returns passed [should_skip_file]. *)
Lemma files_here_not_skipped sc root entries p :
  p ∈ files_here sc root entries → should_skip_file sc p = false.
Proof.
  unfold files_here. rewrite list_elem_of_In, in_flat_map.
  intros (e & _ & Hp). destruct e as [f|]; [|done].
  destruct (is_cpp f); simpl in Hp; [|done].
  destruct (should_skip_file sc (path_join root f)) eqn:E; simpl in Hp; [done|].
  destruct Hp as [<-|[]]. done.
Qed.

Lemma Node_nested_ind (P : Node → Prop) :
  (∀ f, P (File f)) →
  (∀ d children, Forall P children → P (Dir d children)) →
  ∀ n, P n.
Proof.
  intros HF HD. fix IH 1. intros [f|d children]; [apply HF|].
  apply HD. induction children as [|c cs IHcs]; constructor;
    [apply IH | exact IHcs].
Qed.

Lemma walk_entries_not_skipped sc root entries p :
  Forall (λ n, ∀ root p, p ∈ walk_node sc root n →
                         should_skip_file sc p = false) entries →
  p ∈ walk_entries (walk_node sc) sc root entries →
  should_skip_file sc p = false.
Proof.
  intros Hall. unfold walk_entries. rewrite elem_of_app.
  intros [H|H]; [by eapply files_here_not_skipped|].
  apply list_elem_of_In, in_flat_map in H as (e & He & Hp).
  rewrite Forall_forall in Hall.
  apply list_elem_of_In in He. specialize (Hall _ He).
  destruct e as [|d' ch']; [done|].
  destruct (should_skip_directory sc _); [done|].
  eapply Hall. by apply list_elem_of_In.
Qed.

Lemma walk_node_not_skipped sc n :
  ∀ root p, p ∈ walk_node sc root n → should_skip_file sc p = false.
Proof.
  induction n as [f|d children IH] using Node_nested_ind; intros root p.
  - simpl. by intros ?%elem_of_nil.
  - simpl. by apply walk_entries_not_skipped.
Qed.

Lemma find_cpp_files_not_skipped sc tree p :
  p ∈ find_cpp_files sc tree → should_skip_file sc p = false.
Proof.
  apply walk_entries_not_skipped, Forall_forall.
  intros n _. apply walk_node_not_skipped.
Qed.

(** No file below a first-level excluded directory is returned: a
    returned path has no excluded first part relative to the root. *)
Lemma find_cpp_files_excludes_top_level sc tree p d rest :
  p ∈ find_cpp_files sc tree →
  relative_to (to_Path p) (to_Path (project_root sc)) = Some (d :: rest) →
  d ∉ EXCLUDE_DIRS sc.
Proof.
  intros Hin Hrel Hd. apply find_cpp_files_not_skipped in Hin.
  unfold should_skip_file in Hin. rewrite Hrel in Hin.
  by rewrite bool_decide_eq_true_2 in Hin.
Qed.

End ScannerFacts.

(** ** Insertion-ordered dictionaries *)

Section odict_facts.

Context {V : Type}.

Implicit Types d : list (string * V).

Lemma od_get_set d k v k' :
  od_get (od_set d k v) k' = if decide (k = k') then Some v else od_get d k'.
Proof.
  induction d as [|[k0 v0] d IH]; csimpl.
  - repeat case_decide; congruence.
  - destruct (decide (k0 = k)) as [->|Hne]; csimpl.
    + repeat case_decide; congruence.
    + rewrite IH. repeat case_decide; congruence.
Qed.

Lemma od_get_None d k : od_get d k = None ↔ k ∉ od_keys d.
Proof.
  unfold od_keys. induction d as [|[k0 v0] d IH]; csimpl.
  - split; [intros _; apply not_elem_of_nil | done].
  - rewrite not_elem_of_cons. case_decide; subst; [|rewrite IH]; naive_solver.
Qed.

Lemma od_get_Some_elem d k v : od_get d k = Some v → (k, v) ∈ d.
Proof.
  induction d as [|[k0 v0] d IH]; csimpl; [done|].
  case_decide; subst.
  - intros [= ->]. left.
  - intros Hg. right. by apply IH.
Qed.

Lemma od_elem_get d k v : od_wf d → (k, v) ∈ d → od_get d k = Some v.
Proof.
  unfold od_wf, od_keys. induction d as [|[k0 v0] d IH]; csimpl.
  - by intros _ ?%elem_of_nil.
  - intros [Hk0 Hd]%NoDup_cons [[= -> ->]|Hin]%elem_of_cons.
    + by rewrite decide_True.
    + rewrite decide_False; [by apply IH|].
      intros ->. apply Hk0. apply list_elem_of_fmap. by exists (k, v).
Qed.

Lemma od_keys_set_new d k v :
  k ∉ od_keys d → od_set d k v = d ++ [(k, v)].
Proof.
  unfold od_keys. induction d as [|[k0 v0] d IH]; csimpl; [done|].
  intros [Hne Hd]%not_elem_of_cons.
  rewrite decide_False by done. by rewrite IH.
Qed.

Lemma od_keys_set d k v :
  od_keys (od_set d k v) =
  if od_mem d k then od_keys d else od_keys d ++ [k].
Proof.
  unfold od_mem, od_keys. induction d as [|[k0 v0] d IH]; csimpl; [done|].
  destruct (decide (k0 = k)) as [->|Hne]; csimpl.
  - done.
  - rewrite IH. by destruct (bool_decide _).
Qed.

Lemma od_wf_set d k v : od_wf d → od_wf (od_set d k v).
Proof.
  unfold od_wf. rewrite od_keys_set. unfold od_mem.
  case_bool_decide as H; [done|].
  intros Hd. apply NoDup_app. split_and!; [done| |apply NoDup_singleton].
  intros x Hx ->%list_elem_of_singleton.
  apply H. destruct (od_get d k) eqn:E; [by eexists|].
  by apply od_get_None in E.
Qed.

Lemma od_keys_del d k : od_keys (od_del d k) ⊆ od_keys d.
Proof.
  unfold od_keys. induction d as [|[k0 v0] d IH]; csimpl; [done|].
  case_decide; csimpl; set_solver.
Qed.

Lemma od_get_del d k k' :
  od_wf d →
  od_get (od_del d k) k' = if decide (k = k') then None else od_get d k'.
Proof.
  unfold od_wf, od_keys. induction d as [|[k0 v0] d IH]; csimpl.
  - intros _. by case_decide.
  - intros [Hk0 Hd]%NoDup_cons.
    destruct (decide (k0 = k)) as [->|Hne]; csimpl.
    + case_decide; subst; [by apply od_get_None | done].
    + rewrite IH by done. repeat case_decide; congruence.
Qed.

Lemma od_wf_del d k : od_wf d → od_wf (od_del d k).
Proof.
  unfold od_wf, od_keys. induction d as [|[k0 v0] d IH]; csimpl; [done|].
  intros [Hk0 Hd]%NoDup_cons. case_decide; [done|]. csimpl.
  apply NoDup_cons. split; [|by apply IH].
  intros Hin. apply Hk0. by apply (od_keys_del d k).
Qed.

End odict_facts.

(** ** JSON documents *)

Lemma as_strs_jstrs l : as_strs (jstrs l) = Some l.
Proof.
  unfold as_strs, jstrs. simpl.
  apply mapM_Some. induction l as [|x l IH]; constructor; done.
Qed.

Lemma from_dict_to_dict s : from_dict (to_dict s) = Some s.
Proof.
  destruct s as [n k f l c sg ip ns ac pc bs u cs cb].
  unfold from_dict, to_dict. cbn [base_classes calls called_by].
  pose proof (as_strs_jstrs bs) as Hbs.
  pose proof (as_strs_jstrs cs) as Hcs.
  pose proof (as_strs_jstrs cb) as Hcb.
  generalize dependent (jstrs bs). intros jbs Hbs.
  generalize dependent (jstrs cs). intros jcs Hcs.
  generalize dependent (jstrs cb). intros jcb Hcb.
  vm_compute in Hbs, Hcs, Hcb. vm_compute.
  by rewrite Hbs, Hcs, Hcb.
Qed.

Lemma mapM_from_dict_to_dict l : mapM from_dict (to_dict <$> l) = Some l.
Proof.
  apply mapM_Some. induction l as [|x l IH]; constructor;
    [apply from_dict_to_dict | done].
Qed.

(** ** cpp_analyzer.py: inheritance queries *)

Section hierarchy.

Variable ix : Indexes.

Lemma direct_bases_key c b : b ∈ direct_bases ix c → c ∈ class_keys ix.
Proof.
  unfold direct_bases, class_keys, get_list.
  destruct (od_get (class_index ix) c) as [refs|] eqn:E.
  - intros _. apply od_get_Some_elem in E.
    apply elem_of_list_to_set, list_elem_of_fmap. by exists (c, refs).
  - simpl. rewrite elements_empty. by intros ?%elem_of_nil.
Qed.

Lemma derived_name c d :
  d ∈ get_derived_classes ix c false → d_name d ∈ class_names ix.
Proof.
  unfold get_derived_classes, class_names.
  rewrite list_elem_of_In, in_flat_map. intros (kv & Hkv & Hd).
  apply list_elem_of_In, list_elem_of_fmap in Hd as (info & -> & Hinfo).
  apply list_elem_of_filter in Hinfo as [_ Hinfo].
  apply elem_of_list_to_set, list_elem_of_In, in_flat_map.
  exists kv. split; [done|]. apply list_elem_of_In, list_elem_of_fmap.
  by exists info.
Qed.

Lemma mapM_is_Some {A B} (f : A → option B) (l : list A) :
  (∀ x, x ∈ l → is_Some (f x)) → is_Some (mapM f l).
Proof.
  intros H. apply mapM_is_Some_2, Forall_forall. done.
Qed.

Lemma size_difference_shrink (K V : gset string) c :
  c ∈ K → c ∉ V → size (K ∖ (V ∪ {[c]})) < size (K ∖ V).
Proof.
  intros HK HV. apply subset_size. set_solver.
Qed.

(** Termination of the base walk: fuel above the number of unvisited
    index keys is enough. *)
Lemma base_hierarchy_total fuel :
  ∀ c visited,
    size (class_keys ix ∖ visited) < fuel →
    is_Some (_get_base_hierarchy fuel ix c visited).
Proof.
  induction fuel as [|fuel IH]; intros c visited Hf; [lia|]. simpl.
  case_decide as Hv; [by eexists|].
  destruct (mapM _ (direct_bases ix c)) as [l|] eqn:E; [by eexists|].
  exfalso. assert (is_Some (mapM (λ base, _get_base_hierarchy fuel ix base
                      (visited ∪ {[c]})) (direct_bases ix c))) as [? Hs];
    [|congruence].
  apply mapM_is_Some. intros b Hb. apply IH.
  apply direct_bases_key in Hb.
  pose proof (size_difference_shrink _ _ _ Hb Hv). lia.
Qed.

(** Termination of the derived walk.  Only the class the walk starts
    from may fail to be the name of a record. *)
Lemma derived_hierarchy_total_inner fuel :
  ∀ c visited,
    c ∈ class_names ix →
    size (class_names ix ∖ visited) < fuel →
    is_Some (_get_derived_hierarchy fuel ix c visited).
Proof.
  induction fuel as [|fuel IH]; intros c visited Hc Hf; [lia|]. simpl.
  case_decide as Hv; [by eexists|].
  destruct (mapM _ (get_derived_classes ix c false)) as [l|] eqn:E;
    [by eexists|].
  exfalso. assert (is_Some (mapM (λ d, _get_derived_hierarchy fuel ix
                      (d_name d) (visited ∪ {[c]}))
                      (get_derived_classes ix c false))) as [? Hs];
    [|congruence].
  apply mapM_is_Some. intros d Hd. apply IH; [by eapply derived_name|].
  pose proof (size_difference_shrink _ _ _ Hc Hv). lia.
Qed.

Lemma derived_hierarchy_total fuel c :
  S (size (class_names ix)) < fuel →
  is_Some (_get_derived_hierarchy fuel ix c ∅).
Proof.
  destruct fuel as [|fuel]; [lia|]. intros Hf. simpl.
  rewrite decide_False by set_solver.
  destruct (mapM _ (get_derived_classes ix c false)) as [l|] eqn:E;
    [by eexists|].
  exfalso. assert (is_Some (mapM (λ d, _get_derived_hierarchy fuel ix
                      (d_name d) (∅ ∪ {[c]}))
                      (get_derived_classes ix c false))) as [? Hs];
    [|congruence].
  apply mapM_is_Some. intros d Hd.
  apply derived_hierarchy_total_inner; [by eapply derived_name|].
  assert (size (class_names ix ∖ (∅ ∪ {[c]})) ≤ size (class_names ix))%nat
    by (apply subseteq_size; set_solver).
  lia.
Qed.

(** More fuel does not change a result. *)
Lemma base_hierarchy_mono fuel :
  ∀ fuel' c visited t,
    (fuel ≤ fuel')%nat →
    _get_base_hierarchy fuel ix c visited = Some t →
    _get_base_hierarchy fuel' ix c visited = Some t.
Proof.
  induction fuel as [|fuel IH]; intros fuel' c visited t Hle; [done|].
  destruct fuel' as [|fuel']; [lia|]. simpl.
  case_decide; [done|].
  destruct (mapM _ _) as [l|] eqn:E; [|done]. simpl. intros [= <-].
  apply mapM_Some in E.
  assert (mapM (λ base, _get_base_hierarchy fuel' ix base (visited ∪ {[c]}))
               (direct_bases ix c) = Some l) as ->; [|done].
  apply mapM_Some. eapply Forall2_impl; [exact E|].
  intros b t' Hb. simpl in *. eapply IH; [lia | done].
Qed.

Lemma derived_hierarchy_mono fuel :
  ∀ fuel' c visited t,
    (fuel ≤ fuel')%nat →
    _get_derived_hierarchy fuel ix c visited = Some t →
    _get_derived_hierarchy fuel' ix c visited = Some t.
Proof.
  induction fuel as [|fuel IH]; intros fuel' c visited t Hle; [done|].
  destruct fuel' as [|fuel']; [lia|]. simpl.
  case_decide; [done|].
  destruct (mapM _ _) as [l|] eqn:E; [|done]. simpl. intros [= <-].
  apply mapM_Some in E.
  assert (mapM (λ d, _get_derived_hierarchy fuel' ix (d_name d)
                       (visited ∪ {[c]}))
               (get_derived_classes ix c false) = Some l) as ->; [|done].
  apply mapM_Some. eapply Forall2_impl; [exact E|].
  intros b t' Hb. simpl in *. eapply IH; [lia | done].
Qed.

Lemma revisit_step c c' l (visited : gset string) :
  c ∉ visited →
  ¬ NoDup (c :: c' :: l) ∨ (∃ x, x ∈ c :: c' :: l ∧ x ∈ visited) →
  ¬ NoDup (c' :: l) ∨ (∃ x, x ∈ c' :: l ∧ x ∈ visited ∪ {[c]}).
Proof.
  intros Hc [Hnd|(x & Hx & Hv)].
  - destruct (decide (c ∈ c' :: l)) as [Hin|Hnin].
    + right. exists c. set_solver.
    + left. intros Hnd'. apply Hnd. by constructor.
  - right. exists x. apply elem_of_cons in Hx as [->|Hx]; [done|].
    set_solver.
Qed.

Lemma existsb_has_circular t (ts : list Hier) :
  t ∈ ts → has_circular t = true → existsb has_circular ts = true.
Proof.
  intros Hin Ht. apply existsb_exists. exists t.
  split; [by apply list_elem_of_In | done].
Qed.

(** A chain of base classes that comes back to a visited class, or
    to one of its own classes, ends in a marked node. *)
Lemma base_cycle_marked l :
  ∀ c visited fuel t,
    chain (direct_bases ix) c l →
    ¬ NoDup (c :: l) ∨ (∃ x, x ∈ c :: l ∧ x ∈ visited) →
    _get_base_hierarchy fuel ix c visited = Some t →
    has_circular t = true.
Proof.
  induction l as [|c' l IH]; intros c visited [|fuel] t Hch Hre; try done;
    simpl; case_decide as Hv; try (by intros [= <-]).
  - exfalso. destruct Hre as [Hnd|(x & Hx & Hxv)].
    + apply Hnd, NoDup_singleton.
    + apply list_elem_of_singleton in Hx. by subst.
  - destruct (mapM _ _) as [ts|] eqn:E; [|done]. simpl. intros [= <-].
    destruct Hch as [Hc' Hch]. apply mapM_Some in E.
    apply list_elem_of_lookup in Hc' as [i Hi].
    destruct (Forall2_lookup_l _ _ _ _ _ E Hi) as (t' & Ht' & Hrun).
    simpl. eapply existsb_has_circular.
    + eapply list_elem_of_lookup_2, Ht'.
    + eapply IH; [exact Hch | by apply revisit_step | exact Hrun].
Qed.

Lemma derived_cycle_marked l :
  ∀ c visited fuel t,
    chain (derived_names ix) c l →
    ¬ NoDup (c :: l) ∨ (∃ x, x ∈ c :: l ∧ x ∈ visited) →
    _get_derived_hierarchy fuel ix c visited = Some t →
    has_circular t = true.
Proof.
  induction l as [|c' l IH]; intros c visited [|fuel] t Hch Hre; try done;
    simpl; case_decide as Hv; try (by intros [= <-]).
  - exfalso. destruct Hre as [Hnd|(x & Hx & Hxv)].
    + apply Hnd, NoDup_singleton.
    + apply list_elem_of_singleton in Hx. by subst.
  - destruct (mapM _ _) as [ts|] eqn:E; [|done]. simpl. intros [= <-].
    destruct Hch as [Hc' Hch]. apply mapM_Some in E.
    apply list_elem_of_fmap in Hc' as (d & -> & Hd).
    apply list_elem_of_lookup in Hd as [i Hi].
    destruct (Forall2_lookup_l _ _ _ _ _ E Hi) as (t' & Ht' & Hrun).
    simpl. eapply existsb_has_circular.
    + eapply list_elem_of_lookup_2, Ht'.
    + eapply IH; [exact Hch | by apply revisit_step | exact Hrun].
Qed.

End hierarchy.

(** ** cpp_analyzer.py: call paths *)

Section bfs.

Variable cg : CallGraph.CallGraphAnalyzer.

Variable to_usrs : gset string.

Variable from_usr : string.

Lemma call_chain_snoc p a b :
  last p = Some a → b ∈ CallGraph.find_callees cg a →
  call_chain cg p → call_chain cg (p ++ [b]).
Proof.
  induction p as [|x [|y p] IH]; simpl; [done| |].
  - intros [= ->]. done.
  - intros Hl Hb [Hxy Hc]. split; [done|]. apply IH; done.
Qed.

Lemma entry_ok_mono (v v' : gset string) n e :
  v ⊆ v' → entry_ok cg from_usr v n e → entry_ok cg from_usr v' n e.
Proof. unfold entry_ok. intros Hs (?&?&?&?&Hv&?). split_and!; try done.
       intros x Hx. apply Hs, Hv, Hx. Qed.

Lemma explore_step_inv n cur path acc callee :
  entry_ok cg from_usr acc.1 n (cur, path) →
  callee ∈ CallGraph.find_callees cg cur →
  Forall (entry_ok cg from_usr acc.1 (S n)) acc.2 →
  let acc' := explore_step path acc callee in
  acc.1 ⊆ acc'.1 ∧ Forall (entry_ok cg from_usr acc'.1 (S n)) acc'.2.
Proof.
  intros (Hh & Hl & Hc & Hnd & Hv & Hn) Hcal Hq. unfold explore_step.
  simpl in *. case_decide as Hin; [done|]. simpl. split; [set_solver|].
  apply Forall_app. split.
  - eapply Forall_impl; [exact Hq|]. intros e. apply entry_ok_mono. set_solver.
  - constructor; [|constructor]. unfold entry_ok; simpl. split_and!.
    + destruct path; [done|]. done.
    + apply last_snoc.
    + by eapply call_chain_snoc.
    + apply NoDup_app. split_and!; [done| |apply NoDup_singleton].
      intros x Hx ->%list_elem_of_singleton. apply Hin, Hv, Hx.
    + intros x [Hx| ->%list_elem_of_singleton]%elem_of_app; [|set_solver].
      apply Hv in Hx. set_solver.
    + rewrite length_app. simpl. lia.
Qed.

Lemma explore_inv n cur path (l : list string) :
  ∀ acc,
    entry_ok cg from_usr acc.1 n (cur, path) →
    (∀ c, c ∈ l → c ∈ CallGraph.find_callees cg cur) →
    Forall (entry_ok cg from_usr acc.1 (S n)) acc.2 →
    let acc' := foldl (explore_step path) acc l in
    acc.1 ⊆ acc'.1 ∧ Forall (entry_ok cg from_usr acc'.1 (S n)) acc'.2.
Proof.
  induction l as [|c l IH]; intros acc He Hl Hq; simpl; [done|].
  destruct (explore_step_inv n cur path acc c He) as [Hs Hq'];
    [apply Hl; left | done |].
  destruct (IH (explore_step path acc c)) as [Hs' Hq''].
  - by eapply entry_ok_mono.
  - intros c' Hc'. apply Hl. by right.
  - done.
  - split; [set_solver | done].
Qed.

Lemma level_step_inv n acc e :
  entry_ok cg from_usr acc.2.1 n e →
  Forall (found_ok cg to_usrs from_usr n) acc.1 →
  Forall (entry_ok cg from_usr acc.2.1 (S n)) acc.2.2 →
  let acc' := level_step cg to_usrs acc e in
  acc.2.1 ⊆ acc'.2.1 ∧ Forall (found_ok cg to_usrs from_usr n) acc'.1 ∧
  Forall (entry_ok cg from_usr acc'.2.1 (S n)) acc'.2.2.
Proof.
  intros He Hf Hq. unfold level_step. destruct e as [cur path].
  simpl. case_decide as Ht; simpl.
  - split_and!; [done| |done]. apply Forall_app. split; [done|].
    constructor; [|constructor].
    destruct He as (Hh & Hl & Hc & Hnd & Hv & Hn). simpl in *.
    split; [|done]. split_and!; try done. by exists cur.
  - destruct (explore_inv n cur path (elements (CallGraph.find_callees cg cur))
                acc.2 He) as [Hs Hq'].
    + intros c. by rewrite elem_of_elements.
    + done.
    + split_and!; done.
Qed.

Lemma bfs_level_inv n (queue : list (string * list string)) :
  ∀ acc,
    Forall (entry_ok cg from_usr acc.2.1 n) queue →
    Forall (found_ok cg to_usrs from_usr n) acc.1 →
    Forall (entry_ok cg from_usr acc.2.1 (S n)) acc.2.2 →
    let acc' := foldl (level_step cg to_usrs) acc queue in
    Forall (found_ok cg to_usrs from_usr n) acc'.1 ∧
    Forall (entry_ok cg from_usr acc'.2.1 (S n)) acc'.2.2.
Proof.
  induction queue as [|e queue IH]; intros acc Hqu Hf Hq; simpl; [done|].
  apply Forall_cons in Hqu as [He Hqu].
  destruct (level_step_inv n acc e He Hf Hq) as (Hs & Hf' & Hq').
  apply IH; [|done|done].
  eapply Forall_impl; [exact Hqu|]. intros e'. by apply entry_ok_mono.
Qed.

(** Every path the loop produces is a simple call path to a target, of
    a length between the current level and the last level, and the
    paths come in order of length. *)
Lemma bfs_loop_spec levels :
  ∀ n queue visited,
    Forall (entry_ok cg from_usr visited n) queue →
    let ps := bfs_loop cg to_usrs levels queue visited in
    Forall (λ p, simple_call_path cg to_usrs from_usr p ∧
                 (n ≤ length p < n + levels)%nat) ps ∧
    StronglySorted (λ p q, (length p ≤ length q)%nat) ps.
Proof.
  induction levels as [|levels IH]; intros n queue visited Hq; simpl.
  - split; constructor.
  - destruct queue as [|e queue]; [split; constructor|].
    set (r := bfs_level cg to_usrs (e :: queue) visited).
    destruct (bfs_level_inv n (e :: queue) ([], (visited, [])))
      as [Hf Hn]; [done | constructor | constructor |].
    fold (bfs_level cg to_usrs (e :: queue) visited) in Hf, Hn.
    fold r in Hf, Hn.
    destruct (IH (S n) r.2.2 r.2.1 Hn) as [Hps Hsorted].
    split.
    + apply Forall_app. split.
      * eapply Forall_impl; [exact Hf|]. intros p [Hp Hlen]. split; [done|lia].
      * eapply Forall_impl; [exact Hps|]. intros p [Hp Hlen]. split; [done|lia].
    + apply StronglySorted_app_2; [| |done].
      * intros p q Hp Hq'. rewrite Forall_forall in Hf, Hps.
        destruct (Hf _ Hp) as [_ ->]. destruct (Hps _ Hq') as [_ ?]. lia.
      * clear -Hf. induction Hf as [|p l [_ Hp] Hl IHl]; constructor; [done|].
        eapply Forall_impl; [exact Hl|]. intros q [_ Hq]. simpl. lia.
Qed.

End bfs.

(** ** Invariants of the walk over a translation unit *)

Lemma Cursor_nested_ind (P : Cursor → Prop) :
  (∀ k sp f l c u t r children,
      Forall P children → P (mkCursor k sp f l c u t r children)) →
  ∀ cursor, P cursor.
Proof.
  intros H. fix IH 1. intros [k sp f l c u t r children].
  apply H. induction children as [|x xs IHxs]; constructor;
    [apply IH | exact IHxs].
Qed.

(** A property of the indexes that registering a record and adding a
    call edge keep is kept by the whole walk. *)
Lemma _process_cursor_ind (P : Indexes → Prop) :
  (∀ as_class info ix, P ix → P (register as_class info ix)) →
  (∀ ix u v, P ix →
             P (with_call_graph ix (CallGraph.add_call (call_graph_analyzer ix) u v))) →
  ∀ cursor sc file_filter pc pfu ix,
    P ix → P (_process_cursor sc file_filter cursor pc pfu ix).
Proof.
  intros Hreg Hadd cursor.
  induction cursor as [k sp f l c u t r children IH] using Cursor_nested_ind.
  intros sc file_filter pc pfu ix Hix.
  assert (Hch : ∀ pc' pfu' ix0, P ix0 →
            P (foldl (λ ix1 child,
                        _process_cursor sc file_filter child pc' pfu' ix1)
                     ix0 children)).
  { intros pc' pfu'. clear -IH. induction IH as [|x xs Hx _ IHxs];
      intros ix0 H0; simpl; [done|]. apply IHxs, Hx, H0. }
  simpl. destruct (match f with Some _ => _ | None => _ end); [done|].
  destruct k; simpl;
    repeat match goal with
           | |- context [truthy ?x] => destruct (truthy x)
           | |- context [match r with _ => _ end] => destruct r
           end; auto.
Qed.

(** * Properties *)

(** ** The call graph *)

(** C5. Call-graph symmetry: after every sequence of [add_call],
    [remove_symbol], [rebuild_from_symbols] and [clear] on a fresh
    [CallGraphAnalyzer], [v] is a callee of [u] in [call_graph] exactly
    when [u] is a caller of [v] in [reverse_call_graph]. *)
Theorem call_graph_symmetry (ops : list CallGraph.Op) (u v : string) :
  v ∈ CallGraph.find_callees (CallGraph.run ops) u ↔
  u ∈ CallGraph.find_callers (CallGraph.run ops) v.
Proof.
  revert u v. change (CallGraph.symmetric (CallGraph.run ops)).
  induction ops as [|op ops IH] using rev_ind.
  - apply CallGraphFacts.symmetric_init.
  - rewrite CallGraphFacts.run_snoc. by apply CallGraphFacts.symmetric_step.
Qed.

(** C10. The empty USR is never a node of the call graph: [add_call]
    with an empty caller or callee changes nothing; after every sequence
    of operations no key and no set element of [call_graph] or
    [reverse_call_graph] is the empty string; and the walk over a
    translation unit, which records calls only through [add_call],
    keeps this true. *)
Theorem empty_usr_never_a_node :
  (∀ cg x, CallGraph.add_call cg "" x = cg ∧ CallGraph.add_call cg x "" = cg) ∧
  (∀ ops, CallGraph.well_keyed (CallGraph.run ops)) ∧
  (∀ sc file_filter cursor parent_class parent_function_usr ix,
      CallGraph.well_keyed (call_graph_analyzer ix) →
      CallGraph.well_keyed
        (call_graph_analyzer
           (_process_cursor sc file_filter cursor parent_class
                            parent_function_usr ix))).
Proof.
  split_and!.
  - intros cg x. split;
      [apply CallGraphFacts.add_call_empty_caller
      |apply CallGraphFacts.add_call_empty_callee].
  - intros ops. induction ops as [|op ops IH] using rev_ind.
    + apply CallGraphFacts.well_keyed_init.
    + rewrite CallGraphFacts.run_snoc. by apply CallGraphFacts.well_keyed_step.
  - intros sc file_filter cursor pc pfu ix.
    apply (_process_cursor_ind
             (λ ix, CallGraph.well_keyed (call_graph_analyzer ix))).
    + by intros [] info ix0.
    + intros ix0 u v H. by apply CallGraphFacts.well_keyed_add_call.
Qed.

Lemma empty_usr_never_a_node_witness :
  CallGraph.call_graph (CallGraph.run some_ops) !! "" = None ∧
  CallGraph.reverse_call_graph (CallGraph.run some_ops) !! "" = None.
Proof.
  destruct empty_usr_never_a_node as (_ & H & _).
  destruct (H some_ops) as [H1 H2]. split.
  - destruct (CallGraph.call_graph (CallGraph.run some_ops) !! "") eqn:E;
      [|reflexivity].
    by destruct (H1 _ _ E).
  - destruct (CallGraph.reverse_call_graph (CallGraph.run some_ops) !! "") eqn:E;
      [|reflexivity].
    by destruct (H2 _ _ E).
Defined.

(** ** Searching *)







(** ** The class hierarchy *)

(** C9. [get_class_hierarchy] terminates on every class index: with
    [hierarchy_fuel] or more fuel the bounded recursion never hits its
    bound and always gives the same result.  When the class is found,
    every chain of base classes (of derived classes) starting at it
    that comes back to a class already on the chain leads to a node
    marked [circular_reference] in the base (derived) hierarchy. *)
Theorem class_hierarchy_terminates (ix : Indexes) (class_name : string) :
  ∃ outcome,
    (∀ fuel, (hierarchy_fuel ix ≤ fuel)%nat →
             get_class_hierarchy fuel ix class_name = Some outcome) ∧
    ∀ h, outcome = Some h →
      (∀ l, chain (direct_bases ix) class_name l → ¬ NoDup (class_name :: l) →
            has_circular (base_hierarchy h) = true) ∧
      (∀ l, chain (derived_names ix) class_name l → ¬ NoDup (class_name :: l) →
            has_circular (derived_hierarchy h) = true).
Proof.
  unfold get_class_hierarchy.
  destruct (SearchEngine.get_class_info ix class_name) as [info|].
  2: { exists None. split; [done|]. by intros h [=]. }
  set (n := hierarchy_fuel ix).
  destruct (base_hierarchy_total ix n class_name ∅) as [bh Hbh].
  { assert (size (class_keys ix ∖ ∅) ≤ size (class_keys ix))%nat
      by (apply subseteq_size; set_solver).
    unfold n, hierarchy_fuel. lia. }
  destruct (derived_hierarchy_total ix n class_name) as [dh Hdh].
  { unfold n, hierarchy_fuel. lia. }
  eexists. split.
  - intros fuel Hfuel.
    rewrite (base_hierarchy_mono ix n fuel _ _ _ Hfuel Hbh).
    rewrite (derived_hierarchy_mono ix n fuel _ _ _ Hfuel Hdh).
    reflexivity.
  - intros h [= <-]. simpl. split; intros l Hch Hnd.
    + eapply base_cycle_marked; [exact Hch | by left | exact Hbh].
    + eapply derived_cycle_marked; [exact Hch | by left | exact Hdh].
Qed.

Lemma class_hierarchy_terminates_witness :
  ∃ h, get_class_hierarchy (hierarchy_fuel Demo.cyclic) Demo.cyclic "P"
       = Some (Some h) ∧
       has_circular (base_hierarchy h) = true ∧
       has_circular (derived_hierarchy h) = true.
Proof.
  destruct (class_hierarchy_terminates Demo.cyclic "P") as (outcome & Hrun & Hcyc).
  specialize (Hrun _ (le_n _)).
  destruct outcome as [h|].
  - exists h. split; [exact Hrun|].
    destruct (Hcyc h eq_refl) as [Hb Hd]. split.
    + apply (Hb ["Q"; "P"]).
      * cbn [chain]. split_and!; [| |exact I];
          apply (bool_decide_unpack _); vm_compute; exact I.
      * apply (bool_decide_unpack _). vm_compute. exact I.
    + apply (Hd ["Q"; "P"]).
      * cbn [chain]. split_and!; [| |exact I];
          apply (bool_decide_unpack _); vm_compute; exact I.
      * apply (bool_decide_unpack _). vm_compute. exact I.
  - exfalso. vm_compute in Hrun. discriminate Hrun.
Defined.

(** ** Call paths *)

Lemma search_functions_returns re pattern project_only class_name w :
  ∃ hits w',
    search_functions re pattern project_only class_name w = (Ok hits, w') ∧
    analyzer w' = analyzer w ∧ disk w' = disk w.
Proof.
  unfold search_functions, catching_re_error, bind, get_indexes,
    SearchEngine.search_functions. simpl.
  destruct (re_compile re pattern); simpl; by eexists _, _.
Qed.

Lemma flat_map_nil {A B} (f : A → list B) (l : list A) :
  (∀ x, f x = []) → flat_map f l = [].
Proof. intros H. induction l as [|x l IH]; simpl; [done|]. by rewrite H, IH. Qed.

(** The sibling [CallGraphAnalyzer.get_call_paths] returns the one-node
    path for equal endpoints at every depth. *)
Lemma get_call_paths_same_endpoint cg u max_depth :
  CallGraph.get_call_paths cg u u max_depth = [[u]].
Proof.
  unfold CallGraph.get_call_paths.
  destruct (Z.to_nat max_depth); simpl; by rewrite decide_True.
Qed.

(** C7. With [max_depth = 0] the loop of [get_call_path] never runs, so
    the result is empty for every pair of endpoints, equal ones
    included: for the function [f] of the demo project
    [get_call_path("f", "f", 0)] is [[]], while depth 1 gives the
    one-node path and [CallGraphAnalyzer.get_call_paths] gives the
    one-node path at depth 0 as well. *)
Theorem call_path_of_depth_zero_is_empty :
  (∀ re from_function to_function w,
      result (get_call_path re from_function to_function 0) w = Ok []) ∧
  result (search_functions LiteralRegex.engine
            (exact_name LiteralRegex.engine "f") false None) Demo.indexed
    = Ok [SearchEngine.mkFunctionHit "f" "function" "/proj/a.cpp" 2
            "void ()" true ""] ∧
  result (get_call_path LiteralRegex.engine "f" "f" 0) Demo.indexed = Ok [] ∧
  result (get_call_path LiteralRegex.engine "f" "f" 1) Demo.indexed = Ok [["f"]] ∧
  CallGraph.get_call_paths
    (call_graph_analyzer (indexes (analyzer Demo.indexed)))
    "c:@F@f#" "c:@F@f#" 0 = [["c:@F@f#"]].
Proof.
  split_and!.
  - intros re from_function to_function w. unfold result, get_call_path, bind.
    destruct (search_functions_returns re (exact_name re from_function)
                false None w) as (from_funcs & w1 & -> & _).
    destruct (search_functions_returns re (exact_name re to_function)
                false None w1) as (to_funcs & w2 & -> & _).
    destruct from_funcs as [|ff from_funcs], to_funcs as [|tf to_funcs];
      try reflexivity.
    simpl. f_equal. by apply flat_map_nil.
  - vm_compute. reflexivity.
  - vm_compute. reflexivity.
  - vm_compute. reflexivity.
  - apply get_call_paths_same_endpoint.
Qed.

(** The search from one start USR: every path found is a simple call
    path from the start to a target, has fewer nodes than [max_depth]
    allows levels, and the paths come in order of length. *)
Lemma bfs_paths_spec cg to_usrs max_depth from_usr :
  Forall (λ p, simple_call_path cg to_usrs from_usr p ∧
               (Z.of_nat (length p) ≤ max_depth)%Z)
         (bfs_paths cg to_usrs max_depth from_usr) ∧
  StronglySorted (λ p q, (length p ≤ length q)%nat)
                 (bfs_paths cg to_usrs max_depth from_usr).
Proof.
  unfold bfs_paths.
  destruct (bfs_loop_spec cg to_usrs from_usr (Z.to_nat max_depth) 1
              [(from_usr, [from_usr])] {[from_usr]}) as [Hall Hsorted].
  { constructor; [|constructor]. unfold entry_ok; simpl.
    split_and!; try done.
    - apply NoDup_singleton.
    - intros x ->%list_elem_of_singleton. set_solver. }
  split; [|done].
  eapply Forall_impl; [exact Hall|]. intros p [Hp Hlen]. split; [done|lia].
Qed.

Lemma bfs_paths_no_target cg max_depth from_usr :
  bfs_paths cg ∅ max_depth from_usr = [].
Proof.
  destruct (bfs_paths_spec cg ∅ max_depth from_usr) as [Hall _].
  destruct (bfs_paths cg ∅ max_depth from_usr) as [|p l]; [done|].
  apply Forall_cons in Hall as [[(_ & (t & _ & Ht) & _) _] _]. set_solver.
Qed.

(** C6, as amended. [get_call_path] resolves the two names to sets of
    USRs and searches level by level from each start USR in turn; its
    result is the list of the paths found, rendered as names.  Every
    path found is a simple sequence [u0 = start, ..., uk] ending in a
    USR of the target name, with each [u(i+1)] among the callees of
    [u(i)] and [k <= max_depth], and the paths found from one start USR
    are produced shorter before longer. *)
Theorem call_paths_are_simple_and_ordered (re : RegexEngine)
    (from_function to_function : string) (max_depth : Z) (w : World) :
  ∃ from_funcs to_funcs w1 w2,
    search_functions re (exact_name re from_function) false None w
      = (Ok from_funcs, w1) ∧
    search_functions re (exact_name re to_function) false None w1
      = (Ok to_funcs, w2) ∧
    let ix := indexes (analyzer w) in
    let cg := call_graph_analyzer ix in
    let from_usrs := usrs_of_hits ix from_funcs in
    let to_usrs := usrs_of_hits ix to_funcs in
    result (get_call_path re from_function to_function max_depth) w
      = Ok (flat_map (λ u, name_path ix <$> bfs_paths cg to_usrs max_depth u)
                     (elements from_usrs)) ∧
    ∀ u,
      Forall (λ p, simple_call_path cg to_usrs u p ∧
                   (Z.of_nat (length p) - 1 ≤ max_depth)%Z)
             (bfs_paths cg to_usrs max_depth u) ∧
      StronglySorted (λ p q, (length p ≤ length q)%nat)
                     (bfs_paths cg to_usrs max_depth u).
Proof.
  destruct (search_functions_returns re (exact_name re from_function)
              false None w) as (from_funcs & w1 & H1 & Ha1 & _).
  destruct (search_functions_returns re (exact_name re to_function)
              false None w1) as (to_funcs & w2 & H2 & Ha2 & _).
  exists from_funcs, to_funcs, w1, w2. split_and!; [done | done |].
  intros ix cg from_usrs to_usrs. split.
  - unfold result, get_call_path, bind. rewrite H1, H2.
    destruct from_funcs as [|ff from_funcs].
    { simpl. unfold from_usrs, usrs_of_hits. simpl.
      by rewrite elements_empty. }
    destruct to_funcs as [|tf to_funcs].
    { simpl. f_equal. symmetry. apply flat_map_nil. intros u.
      unfold to_usrs, usrs_of_hits. simpl.
      by rewrite bfs_paths_no_target. }
    simpl. unfold get_indexes. rewrite Ha2, Ha1. reflexivity.
  - intros u. destruct (bfs_paths_spec cg to_usrs max_depth u) as [Hall Hs].
    split; [|done]. eapply Forall_impl; [exact Hall|].
    intros p [Hp Hlen]. split; [done|lia].
Qed.

(** C6, as stated, fails on the diamond [top -> left, right -> bottom]:
    both [top, left, bottom] and [top, right, bottom] are simple call
    paths of two edges, and with [max_depth = 3] only one path is
    returned. *)
Lemma only_one_path_through_a_diamond :
  let ix := indexes (analyzer Demo.diamond) in
  let cg := call_graph_analyzer ix in
  let via_left := ["c:@F@top#"; "c:@F@left#"; "c:@F@bottom#"] in
  let via_right := ["c:@F@top#"; "c:@F@right#"; "c:@F@bottom#"] in
  simple_call_path cg {["c:@F@bottom#"]} "c:@F@top#" via_left ∧
  simple_call_path cg {["c:@F@bottom#"]} "c:@F@top#" via_right ∧
  name_path ix via_left = ["top"; "left"; "bottom"] ∧
  name_path ix via_right = ["top"; "right"; "bottom"] ∧
  result (get_call_path LiteralRegex.engine "top" "bottom" 3) Demo.diamond
    = Ok [["top"; "right"; "bottom"]].
Proof.
  assert (Hsimple : ∀ mid, mid ∈ ["c:@F@left#"; "c:@F@right#"] →
            simple_call_path
              (call_graph_analyzer (indexes (analyzer Demo.diamond)))
              {["c:@F@bottom#"]} "c:@F@top#"
              ["c:@F@top#"; mid; "c:@F@bottom#"]).
  { intros mid Hmid. unfold simple_call_path. split_and!.
    - reflexivity.
    - exists "c:@F@bottom#". split; [reflexivity | by apply elem_of_singleton].
    - repeat apply elem_of_cons in Hmid as [->|Hmid];
        [| |by apply elem_of_nil in Hmid];
        (cbn [call_chain]; split_and!; [| |exact I];
         apply (bool_decide_unpack _); vm_compute; exact I).
    - repeat apply elem_of_cons in Hmid as [->|Hmid];
        [| |by apply elem_of_nil in Hmid];
        apply (bool_decide_unpack _); vm_compute; exact I. }
  intros ix cg via_left via_right. split_and!.
  - apply Hsimple. by left.
  - apply Hsimple. by right; left.
  - vm_compute. reflexivity.
  - vm_compute. reflexivity.
  - vm_compute. reflexivity.
Qed.

(** ** The global cache *)

Lemma foldl_od_set_fresh {V W} (f : string * V → W) (d : list (string * V)) :
  ∀ acc, NoDup (od_keys acc ++ od_keys d) →
         foldl (λ acc kv, od_set acc kv.1 (f kv)) acc d =
         acc ++ ((λ kv, (kv.1, f kv)) <$> d).
Proof.
  induction d as [|[k v] d IH]; intros acc Hnd; csimpl.
  - by rewrite app_nil_r.
  - unfold od_keys in *. csimpl in Hnd.
    rewrite od_keys_set_new.
    + rewrite IH; [by rewrite <- app_assoc|].
      unfold od_keys. rewrite fmap_app. csimpl. by rewrite <- app_assoc.
    + apply NoDup_app in Hnd as (_ & Hd & _). intros Hk.
      apply (Hd k Hk). left.
Qed.

Lemma index_json_wf index :
  od_wf index → CacheManager.index_json index = JObj (json_index_items index).
Proof.
  intros Hwf. unfold CacheManager.index_json, json_index_items.
  by rewrite (foldl_od_set_fresh (λ kv, JList (to_dict <$> kv.2))).
Qed.

Lemma load_infos_to_dict h recs :
  load_infos h (JList (to_dict <$> recs)) =
  Some (h ++ recs, seq (length h) (length recs)).
Proof.
  unfold load_infos. simpl. by rewrite mapM_from_dict_to_dict.
Qed.

Lemma load_index_round_trip (index : list (string * list SymbolInfo)) :
  ∀ h acc,
    NoDup (od_keys acc ++ od_keys index) →
    load_index (json_index_items index) h acc =
    (h ++ concat index.*2, acc ++ alloc_refs (length h) index, true).
Proof.
  induction index as [|[k recs] index IH]; intros h acc Hnd; csimpl.
  - by rewrite !app_nil_r.
  - rewrite load_infos_to_dict.
    unfold od_keys in *. csimpl in Hnd.
    rewrite od_keys_set_new.
    + rewrite IH.
      * rewrite length_app, <- !app_assoc. done.
      * unfold od_keys. rewrite fmap_app. csimpl. by rewrite <- app_assoc.
    + apply NoDup_app in Hnd as (_ & Hd & _). intros Hk.
      apply (Hd k Hk). left.
Qed.

Lemma lookup_object_seq h recs rest :
  lookup_object (h ++ recs ++ rest) <$> seq (length h) (length recs) = recs.
Proof.
  revert h. induction recs as [|s recs IH]; intros h; [done|]. csimpl. f_equal.
  - unfold lookup_object. rewrite lookup_app_r by lia.
    by rewrite Nat.sub_diag.
  - specialize (IH (h ++ [s])). rewrite length_app in IH. simpl in IH.
    rewrite <- app_assoc in IH. simpl in IH.
    by rewrite Nat.add_1_r in IH.
Qed.

Lemma view_alloc_refs (index : list (string * list SymbolInfo)) :
  ∀ h rest,
    view_heap (h ++ concat index.*2 ++ rest) (alloc_refs (length h) index)
    = index.
Proof.
  unfold view_heap.
  induction index as [|[k recs] index IH]; intros h rest; [done|]. csimpl.
  f_equal.
  - f_equal. rewrite <- app_assoc. apply lookup_object_seq.
  - specialize (IH (h ++ recs) rest). rewrite length_app in IH.
    rewrite <- !app_assoc in IH. rewrite <- app_assoc. exact IH.
Qed.

Lemma all_refs_alloc_refs (index : list (string * list SymbolInfo)) :
  ∀ h rest,
    lookup_object (h ++ concat index.*2 ++ rest)
      <$> all_refs (alloc_refs (length h) index) = concat index.*2.
Proof.
  induction index as [|[k recs] index IH]; intros h rest; [done|].
  unfold all_refs in *. csimpl. rewrite fmap_app. f_equal.
  - rewrite <- app_assoc. apply lookup_object_seq.
  - specialize (IH (h ++ recs) rest). rewrite length_app in IH.
    rewrite <- !app_assoc in IH. rewrite <- app_assoc. exact IH.
Qed.

Lemma index_usrs_snoc h m refs r :
  index_usrs h m (refs ++ [r]) =
  let u := usr (lookup_object h r) in
  if truthy u then <[u := r]> (index_usrs h m refs) else index_usrs h m refs.
Proof. unfold index_usrs. by rewrite foldl_app. Qed.

(** What the rebuilt [usr_index] holds. *)
Lemma index_usrs_lookup h refs u :
  lookup_object h <$> (index_usrs h ∅ refs !! u) =
  derived_usr (lookup_object h <$> refs) u.
Proof.
  unfold derived_usr.
  induction refs as [|r refs IH] using rev_ind.
  - simpl. rewrite lookup_empty. by destruct (truthy u).
  - rewrite index_usrs_snoc, fmap_app, filter_app. simpl.
    destruct (truthy (usr (lookup_object h r))) eqn:Er.
    + rewrite lookup_insert. case_decide as Hu.
      * subst u. rewrite Er. rewrite filter_cons_True by done.
        rewrite filter_nil. by rewrite last_snoc.
      * rewrite filter_cons_False by done. rewrite filter_nil, app_nil_r.
        exact IH.
    + apply truthy_false in Er.
      destruct (decide (usr (lookup_object h r) = u)) as [Hu|Hu].
      * rewrite <- Hu, Er in *. simpl in *. exact IH.
      * rewrite filter_cons_False by done. rewrite filter_nil, app_nil_r.
        exact IH.
Qed.

Lemma find_callees_add_call g a b u v :
  v ∈ CallGraph.find_callees (CallGraph.add_call g a b) u ↔
  v ∈ CallGraph.find_callees g u ∨ (a = u ∧ b = v ∧ a ≠ "" ∧ b ≠ "").
Proof.
  unfold CallGraph.add_call.
  destruct (truthy a) eqn:Ea; simpl.
  - destruct (truthy b) eqn:Eb; simpl.
    + apply truthy_true in Ea, Eb. unfold CallGraph.find_callees. simpl.
      rewrite CallGraphFacts.dd_get_add. case_decide; set_solver.
    + apply truthy_false in Eb. naive_solver.
  - apply truthy_false in Ea. naive_solver.
Qed.

Lemma find_callees_add_calls a (l : list string) :
  ∀ g u v,
    v ∈ CallGraph.find_callees
          (foldl (λ g called_usr, CallGraph.add_call g a called_usr) g l) u ↔
    v ∈ CallGraph.find_callees g u ∨ (a = u ∧ v ∈ l ∧ a ≠ "" ∧ v ≠ "").
Proof.
  induction l as [|c l IH]; intros g u v; simpl.
  - set_solver.
  - rewrite IH, find_callees_add_call. set_solver.
Qed.

Lemma find_callees_add_calls_of g s u v :
  v ∈ CallGraph.find_callees (CallGraph.add_calls_of g s) u ↔
  v ∈ CallGraph.find_callees g u ∨
  (usr s = u ∧ v ∈ calls s ∧ u ≠ "" ∧ v ≠ "").
Proof.
  unfold CallGraph.add_calls_of.
  destruct (truthy (usr s)) eqn:Eu; simpl.
  - case_bool_decide as Hc; simpl.
    + rewrite Hc. set_solver.
    + rewrite find_callees_add_calls. naive_solver.
  - apply truthy_false in Eu. naive_solver.
Qed.

Lemma find_callees_rebuild (l : list SymbolInfo) :
  ∀ g u v,
    v ∈ CallGraph.find_callees (foldl CallGraph.add_calls_of g l) u ↔
    v ∈ CallGraph.find_callees g u ∨
    (∃ s, s ∈ l ∧ usr s = u ∧ v ∈ calls s ∧ u ≠ "" ∧ v ≠ "").
Proof.
  induction l as [|s l IH]; intros g u v; simpl.
  - set_solver.
  - rewrite IH, find_callees_add_calls_of. set_solver.
Qed.

Lemma _save_cache_disk w now :
  disk (exec (_save_cache now) w) =
  mkDisk (Some (JObj (saved_document w now))) (file_caches (disk w)).
Proof. reflexivity. Qed.

Lemma as_hashes_hashes_json file_hashes :
  as_hashes (CacheManager.hashes_json file_hashes) = Some file_hashes.
Proof.
  unfold as_hashes, CacheManager.hashes_json. simpl.
  apply mapM_Some. induction file_hashes as [|[k v] l IH]; constructor; done.
Qed.

Lemma od_wf_view ix (d : list (string * list Ref)) : od_wf d → od_wf (view ix d).
Proof.
  unfold od_wf, od_keys, view. by rewrite <- list_fmap_compose.
Qed.

Lemma load_cache_saved a1 d err w now :
  include_dependencies a1 = include_dependencies (analyzer w) →
  let w1 := mkWorld a1 (mkDisk (Some (JObj (saved_document w now))) d) err in
  CacheManager.load_cache (include_dependencies a1) w1 =
    (Ok (Some (saved_document w now)), w1).
Proof.
  intros Hdeps w1. unfold CacheManager.load_cache, bind, get_world. 
  cbn [cache_info disk w1].
  change (jget (saved_document w now) "version" JNull) with (JStr "2.0").
  change (jget (saved_document w now) "include_dependencies" (JBool false)) with (JBool (include_dependencies (analyzer w))).
  cbn [CacheManager.differs_from_str CacheManager.differs_from_bool].
  rewrite Hdeps.
  replace (String.eqb "2.0" "2.0") with true by reflexivity. cbn [negb]. destruct (include_dependencies (analyzer w)); reflexivity.
Qed.

(** Loading what [_save_cache] wrote, into any analyzer with the same
    [include_dependencies]. *)
Lemma _load_cache_after_save (w : World) (a1 : CppAnalyzer) d (err : list string) (now : Z) :
  od_wf (class_index (indexes (analyzer w))) →
  od_wf (function_index (indexes (analyzer w))) →
  include_dependencies a1 = include_dependencies (analyzer w) →
  let ix' := loaded_indexes w a1 in
  _load_cache (mkWorld a1 (mkDisk (Some (JObj (saved_document w now))) d) err) =
  (Ok true,
   mkWorld (mkAnalyzer ix' (file_hashes (analyzer w)) (translation_units a1)
              (indexed_file_count (analyzer w)) (include_dependencies a1)
              (file_scanner a1))
           (mkDisk (Some (JObj (saved_document w now))) d)
           (err ++ ["Loaded cache with " +:+ pretty (length (class_index ix')) +:+
                    " classes, " +:+ pretty (length (function_index ix')) +:+
                    " functions"])).
Proof.
  intros Hc Hf Hdeps ix'.
  unfold _load_cache. unfold bind at 1. unfold get_world at 1.
  cbn [analyzer]. unfold bind at 1.
  rewrite load_cache_saved by done.
  change (jget (saved_document w now) "class_index" (JObj []))
    with (CacheManager.index_json (view (indexes (analyzer w)) (class_index (indexes (analyzer w))))).
  change (jget (saved_document w now) "function_index" (JObj []))
    with (CacheManager.index_json (view (indexes (analyzer w)) (function_index (indexes (analyzer w))))).
  change (jget (saved_document w now) "file_hashes" (JObj []))
    with (CacheManager.hashes_json (file_hashes (analyzer w))).
  change (jget (saved_document w now) "indexed_file_count" (JInt 0))
    with (JInt (indexed_file_count (analyzer w))).
  rewrite !index_json_wf by (by apply od_wf_view).
  cbn [as_obj saved_document].
  rewrite load_index_round_trip by (by apply od_wf_view).
  cbn [negb].
  rewrite load_index_round_trip by (by apply od_wf_view).
  rewrite as_hashes_hashes_json.
  reflexivity.
Qed.

Lemma loaded_records (w : World) (a1 : CppAnalyzer) :
  let ix := indexes (analyzer w) in
  let cv := view ix (class_index ix) in
  let fv := view ix (function_index ix) in
  let ix' := loaded_indexes w a1 in
  view ix' (class_index ix') = cv ∧
  view ix' (function_index ix') = fv ∧
  lookup_object (heap ix') <$>
    (all_refs (class_index ix') ++ all_refs (function_index ix'))
  = concat cv.*2 ++ concat fv.*2.
Proof.
  intros ix cv fv ix'. unfold ix', loaded_indexes. fold ix. fold cv. fold fv.
  cbn [heap class_index function_index].
  split_and!.
  - change (view ?i ?d) with (view_heap (heap i) d) at 1. cbn [heap].
    rewrite <- app_assoc. apply view_alloc_refs.
  - change (view ?i ?d) with (view_heap (heap i) d) at 1. cbn [heap].
    rewrite <- (app_nil_r (concat fv.*2)) at 1. apply view_alloc_refs.
  - rewrite fmap_app. f_equal.
    + rewrite <- app_assoc. apply all_refs_alloc_refs.
    + rewrite <- (app_nil_r (concat fv.*2)) at 1. apply all_refs_alloc_refs.
Qed.

(** Saving the global cache and loading it with the same
    [include_dependencies] setting, into the same or a new analyzer,
    succeeds and gives the by-name class and function indexes back (as
    well as the file hashes and the file count).  [usr_index] and the
    call graph are rebuilt from the loaded records: a non-empty USR maps
    to the last record that carries it, class records first, and [v] is
    a callee of [u] exactly when a record with the non-empty USR [u]
    lists the non-empty [v] in [calls]; the two call-graph maps agree.
    [file_index] is never assigned: it is still the one of the loading
    analyzer. *)
Lemma load_after_save (w : World) (a1 : CppAnalyzer)
    (err : list string) (now : Z) :
  let a := analyzer w in
  let ix := indexes a in
  od_wf (class_index ix) → od_wf (function_index ix) →
  include_dependencies a1 = include_dependencies a →
  let restarted := mkWorld a1 (disk (exec (_save_cache now) w)) err in
  let a' := analyzer (exec _load_cache restarted) in
  let ix' := indexes a' in
  let cg' := call_graph_analyzer ix' in
  let all_records :=
    concat (view ix (class_index ix)).*2 ++
    concat (view ix (function_index ix)).*2 in
  result _load_cache restarted = Ok true ∧
  view ix' (class_index ix') = view ix (class_index ix) ∧
  view ix' (function_index ix') = view ix (function_index ix) ∧
  file_hashes a' = file_hashes a ∧
  indexed_file_count a' = indexed_file_count a ∧
  (∀ u, deref ix' <$> usr_index ix' !! u = derived_usr all_records u) ∧
  (∀ u v, v ∈ CallGraph.find_callees cg' u ↔
          ∃ s, s ∈ all_records ∧ usr s = u ∧ v ∈ calls s ∧ u ≠ "" ∧ v ≠ "") ∧
  (∀ u v, u ∈ CallGraph.find_callers cg' v ↔ v ∈ CallGraph.find_callees cg' u) ∧
  file_index ix' = file_index (indexes a1).
Proof.
  intros a ix Hc Hf Hdeps restarted a' ix' cg' all_records.
  assert (Hload := _load_cache_after_save w a1 (file_caches (disk w)) err now
                     Hc Hf Hdeps).
  cbv zeta in Hload.
  assert (Hix : ix' = loaded_indexes w a1).
  { unfold ix', a', restarted. rewrite _save_cache_disk. unfold exec.
    by rewrite Hload. }
  destruct (loaded_records w a1) as (Hcv & Hfv & Hrecs).
  split_and!.
  - unfold restarted. rewrite _save_cache_disk. unfold result.
    by rewrite Hload.
  - rewrite Hix. exact Hcv.
  - rewrite Hix. exact Hfv.
  - unfold a', restarted. rewrite _save_cache_disk. unfold exec.
    by rewrite Hload.
  - unfold a', restarted. rewrite _save_cache_disk. unfold exec.
    by rewrite Hload.
  - intros u. rewrite Hix. unfold deref.
    unfold loaded_indexes at 2. cbn [usr_index].
    change (heap (loaded_indexes w a1)) with
      ((heap (indexes a1) ++ concat (view ix (class_index ix)).*2) ++
       concat (view ix (function_index ix)).*2).
    rewrite index_usrs_lookup. f_equal. exact Hrecs.
  - intros u v. unfold cg'. rewrite Hix.
    unfold loaded_indexes. cbn [call_graph_analyzer].
    unfold CallGraph.rebuild_from_symbols. rewrite find_callees_rebuild.
    change (lookup_object _ <$> _) with
      (lookup_object (heap (loaded_indexes w a1)) <$>
         (all_refs (class_index (loaded_indexes w a1)) ++
          all_refs (function_index (loaded_indexes w a1)))).
    rewrite Hrecs. fold all_records.
    split.
    + intros [Hin|(s0 & Hs & Hrest)].
      * unfold CallGraph.find_callees, CallGraph.dd_get in Hin. simpl in Hin.
        rewrite lookup_empty in Hin. simpl in Hin. set_solver.
      * apply list_elem_of_filter in Hs as [_ Hs]. by exists s0.
    + intros (s0 & Hs & Hu & Hrest). right. exists s0. split; [|done].
      apply list_elem_of_filter. split; [|done].
      apply truthy_true. rewrite Hu. tauto.
  - intros u v. unfold cg'. rewrite Hix.
    unfold loaded_indexes. cbn [call_graph_analyzer].
    symmetry. apply CallGraphFacts.symmetric_rebuild.
  - rewrite Hix. reflexivity.
Qed.

(** C4. [_load_cache] does not reconstruct [file_index].  For every
    saved state the load succeeds, gives the by-name indexes back and
    rebuilds [usr_index] and the call graph from the loaded records, but
    it leaves [file_index] as the loading analyzer had it.  For the demo
    project, saved and loaded by a restarted process, [usr_index] and
    the call graph come back as they were saved, while [file_index],
    which listed the records of [a.cpp] and [b.cpp], is empty.  The
    step of [index_file] that clears the old entries of a file is then
    skipped: after [a.cpp] is edited to hold [class A2 {};] only and
    reparsed, the restarted analyzer still lists [A] and [f] in the
    by-name indexes, where the analyzer that was never restarted lists
    [A2] and [g] only. *)
Theorem load_cache_forgets_file_index :
  (∀ (w : World) (a1 : CppAnalyzer) (err : list string) (now : Z),
      let a := analyzer w in
      let ix := indexes a in
      od_wf (class_index ix) → od_wf (function_index ix) →
      include_dependencies a1 = include_dependencies a →
      let restarted := mkWorld a1 (disk (exec (_save_cache now) w)) err in
      let a' := analyzer (exec _load_cache restarted) in
      let ix' := indexes a' in
      let cg' := call_graph_analyzer ix' in
      let all_records :=
        concat (view ix (class_index ix)).*2 ++
        concat (view ix (function_index ix)).*2 in
      result _load_cache restarted = Ok true ∧
      view ix' (class_index ix') = view ix (class_index ix) ∧
      view ix' (function_index ix') = view ix (function_index ix) ∧
      file_hashes a' = file_hashes a ∧
      indexed_file_count a' = indexed_file_count a ∧
      (∀ u, deref ix' <$> usr_index ix' !! u = derived_usr all_records u) ∧
      (∀ u v, v ∈ CallGraph.find_callees cg' u ↔
              ∃ s, s ∈ all_records ∧ usr s = u ∧ v ∈ calls s ∧
                   u ≠ "" ∧ v ≠ "") ∧
      (∀ u v, u ∈ CallGraph.find_callers cg' v ↔
              v ∈ CallGraph.find_callees cg' u) ∧
      file_index ix' = file_index (indexes a1)) ∧
  let restarted :=
    mkWorld restarted_analyzer (disk (exec (_save_cache 2000) Demo.indexed))
            [] in
  let warm := exec _load_cache restarted in
  let saved := indexes (analyzer Demo.indexed) in
  let loaded := indexes (analyzer warm) in
  let reparse := index_file Demo.edited_env Demo.a_cpp true in
  let warm_after := indexes (analyzer (exec reparse warm)) in
  let live_after := indexes (analyzer (exec reparse Demo.indexed)) in
  result _load_cache restarted = Ok true ∧
  (deref loaded <$> usr_index loaded = deref saved <$> usr_index saved ∧
   call_graph_analyzer loaded = call_graph_analyzer saved) ∧
  (map_to_list (file_index saved)
     = [(Demo.a_cpp, [0%nat; 1%nat]); (Demo.b_cpp, [2%nat])] ∧
   file_index loaded = ∅) ∧
  (result reparse warm = Ok (Returned true false) ∧
   name <$> concat (view warm_after (class_index warm_after)).*2
     = ["A"; "A2"] ∧
   name <$> concat (view warm_after (function_index warm_after)).*2
     = ["f"; "g"]) ∧
  (result reparse Demo.indexed = Ok (Returned true false) ∧
   name <$> concat (view live_after (class_index live_after)).*2 = ["A2"] ∧
   name <$> concat (view live_after (function_index live_after)).*2 = ["g"]).
Proof.
  split; [intros w a1 err now; apply load_after_save|].
  intros restarted warm saved loaded reparse warm_after live_after.
  split_and!; vm_compute; reflexivity.
Qed.

Lemma load_cache_forgets_file_index_witness :
  let saved := indexes (analyzer Demo.indexed) in
  let restarted :=
    mkWorld restarted_analyzer (disk (exec (_save_cache 2000) Demo.indexed)) [] in
  let loaded := indexes (analyzer (exec _load_cache restarted)) in
  result _load_cache restarted = Ok true ∧
  view loaded (class_index loaded) = view saved (class_index saved) ∧
  view loaded (function_index loaded) = view saved (function_index saved) ∧
  file_index loaded = ∅.
Proof.
  intros saved restarted loaded.
  assert (Hc : od_wf (class_index saved))
    by (apply (bool_decide_unpack _); vm_compute; exact I).
  assert (Hf : od_wf (function_index saved))
    by (apply (bool_decide_unpack _); vm_compute; exact I).
  destruct load_cache_forgets_file_index as [Hall _].
  destruct (Hall Demo.indexed restarted_analyzer [] 2000%Z Hc Hf eq_refl)
    as (Hok & Hcv & Hfv & _ & _ & _ & _ & _ & Hfile).
  split_and!; [exact Hok | exact Hcv | exact Hfv | exact Hfile].
Defined.

(** ** Indexing one file *)

Lemma keeps_refl ix : keeps ix ix.
Proof. by split. Qed.

Lemma keeps_trans ix0 ix1 ix2 : keeps ix0 ix1 → keeps ix1 ix2 → keeps ix0 ix2.
Proof. intros [H1 H2] [H3 H4]. split; naive_solver. Qed.

Lemma keeps_same ix0 ix :
  usr_index ix = usr_index ix0 →
  call_graph_analyzer ix = call_graph_analyzer ix0 → keeps ix0 ix.
Proof. intros Hu Hc. unfold keeps. rewrite Hu, Hc. by split. Qed.

Lemma keeps_foldl {A} (f : Indexes → A → Indexes) (l : list A) :
  (∀ ix x, keeps ix (f ix x)) → ∀ ix, keeps ix (foldl f ix l).
Proof.
  intros Hf. induction l as [|x l IH]; intros ix; simpl; [apply keeps_refl|].
  eapply keeps_trans; [apply Hf | apply IH].
Qed.

Lemma is_Some_insert_keep (m : gmap string Ref) k r u :
  is_Some (m !! u) → is_Some (<[k := r]> m !! u).
Proof.
  intros H. rewrite lookup_insert. by case_decide.
Qed.

Lemma keeps_register as_class info ix : keeps ix (register as_class info ix).
Proof.
  split; [|done]. intros u Hu. unfold register. simpl.
  destruct (truthy (usr info)); [by apply is_Some_insert_keep | done].
Qed.

Lemma keeps_add_call ix a b :
  keeps ix (with_call_graph ix
              (CallGraph.add_call (call_graph_analyzer ix) a b)).
Proof.
  split; [done|]. intros u v H. simpl. apply find_callees_add_call. by left.
Qed.

Lemma keeps_add_calls_fold (f : CallGraph.CallGraphAnalyzer → string →
                                CallGraph.CallGraphAnalyzer) (l : list string) :
  (∀ g c u v, v ∈ CallGraph.find_callees g u →
              v ∈ CallGraph.find_callees (f g c) u) →
  ∀ g u v, v ∈ CallGraph.find_callees g u →
           v ∈ CallGraph.find_callees (foldl f g l) u.
Proof.
  intros Hf. induction l as [|c l IH]; intros g u v H; simpl; [done|].
  by apply IH, Hf.
Qed.

Lemma keeps_add_cached_symbol ix r : keeps ix (add_cached_symbol ix r).
Proof.
  split.
  - intros u Hu. unfold add_cached_symbol. simpl.
    destruct (truthy (usr (deref ix r))); [by apply is_Some_insert_keep | done].
  - intros u v H. unfold add_cached_symbol. simpl.
    apply keeps_add_calls_fold.
    { intros g c u' v' H'. apply find_callees_add_call. by left. }
    apply keeps_add_calls_fold; [|done].
    intros g c u' v' H'. apply find_callees_add_call. by left.
Qed.

Lemma keeps_clear_old_entries file_path ix :
  keeps ix (clear_old_entries file_path ix).
Proof.
  unfold clear_old_entries. destruct (file_index ix !! file_path) as [refs|];
    [|apply keeps_refl].
  apply keeps_foldl. intros ix0 r.
  destruct (is_class_kind (deref ix0 r)); by apply keeps_same.
Qed.

Lemma keeps_populate ix r : keeps ix (populate ix r).
Proof.
  unfold populate. destruct (_ && _); [by apply keeps_same | apply keeps_refl].
Qed.

Lemma keeps_process_cursor sc file_filter cursor pc pfu ix :
  keeps ix (_process_cursor sc file_filter cursor pc pfu ix).
Proof.
  apply (_process_cursor_ind (keeps ix)).
  - intros as_class info ix1 H. eapply keeps_trans; [exact H|].
    apply keeps_register.
  - intros ix1 u v H. eapply keeps_trans; [exact H|]. apply keeps_add_call.
  - apply keeps_refl.
Qed.

Lemma load_file_cache_returns file_path current_hash w :
  ∃ r, CacheManager.load_file_cache file_path current_hash w = (Ok r, w).
Proof.
  unfold CacheManager.load_file_cache, bind, get_world.
  destruct (file_caches (disk w) !! file_path) as [[]|]; try by eexists.
  destruct (CacheManager.differs_from_str _ _); by eexists.
Qed.

(** [index_file] removes no key of [usr_index] and no call edge. *)
Lemma index_file_keeps env file_path force w :
  keeps (indexes (analyzer w))
        (indexes (analyzer (exec (index_file env file_path force) w))).
Proof.
  unfold exec, index_file, bind.
  assert (∃ cached,
            (if force then ret None
             else CacheManager.load_file_cache file_path
                    (get_file_hash env file_path)) w = (Ok cached, w))
    as [cached ->].
  { destruct force; [by eexists|]. apply load_file_cache_returns. }
  destruct cached as [cached_symbols|].
  - cbn. eapply keeps_trans; [apply keeps_clear_old_entries|].
    set (ix1 := clear_old_entries file_path (indexes (analyzer w))).
    eapply keeps_trans; [|apply keeps_foldl, keeps_add_cached_symbol].
    by apply keeps_same.
  - destruct (parse env file_path) as [| |cursor]; cbn;
      [apply keeps_refl | apply keeps_refl |].
    eapply keeps_trans; [apply keeps_clear_old_entries|].
    set (ix1 := clear_old_entries file_path (indexes (analyzer w))).
    eapply keeps_trans; [|apply keeps_foldl, keeps_populate].
    eapply keeps_trans; [|apply keeps_process_cursor].
    destruct (file_index ix1 !! file_path); [by apply keeps_same|].
    apply keeps_refl.
Qed.

(** C2. [index_file] drops the old records of the file from the
    by-name indexes and replaces its [file_index] entry, but it removes
    nothing from [usr_index] and no edge from the call graph.  After
    [a.cpp] of the demo project is edited to hold [class A2 {};] only
    and reparsed, [file_index] lists just [A2], while [usr_index] still
    maps the USR of [f] to the old record and the call graph still has
    the edge from [f] to [g]; [_remove_file_from_indexes], in contrast,
    removes both. *)
Theorem index_file_leaves_stale_symbols :
  (∀ env file_path force w,
      keeps (indexes (analyzer w))
            (indexes (analyzer (exec (index_file env file_path force) w)))) ∧
  let reparse := index_file Demo.edited_env Demo.a_cpp true in
  let after := indexes (analyzer (exec reparse Demo.indexed)) in
  let removed := _remove_file_from_indexes Demo.a_cpp
                   (indexes (analyzer Demo.indexed)) in
  result reparse Demo.indexed = Ok (Returned true false) ∧
  name <$> records after (default [] (file_index after !! Demo.a_cpp)) = ["A2"] ∧
  view after (function_index after) !! 0%nat = Some ("f", []) ∧
  (name <$> (deref after <$> usr_index after !! "c:@F@f#") = Some "f" ∧
   elements (CallGraph.find_callees (call_graph_analyzer after) "c:@F@f#")
     = ["c:@F@g#"]) ∧
  (usr_index removed !! "c:@F@f#" = None ∧
   elements (CallGraph.find_callees (call_graph_analyzer removed) "c:@F@f#")
     = []).
Proof.
  split; [apply index_file_keeps|].
  intros reparse after removed.
  split_and!; vm_compute; reflexivity.
Qed.

Lemma index_file_leaves_stale_symbols_witness :
  is_Some (usr_index (indexes (analyzer Demo.reindexed)) !! "c:@F@f#") ∧
  "c:@F@g#" ∈ CallGraph.find_callees
                (call_graph_analyzer (indexes (analyzer Demo.reindexed)))
                "c:@F@f#".
Proof.
  destruct index_file_leaves_stale_symbols as [Hkeeps _].
  destruct (Hkeeps Demo.edited_env Demo.a_cpp true Demo.indexed) as [Hu Hc].
  split.
  - apply Hu. apply (bool_decide_unpack _). vm_compute. exact I.
  - apply Hc. apply (bool_decide_unpack _). vm_compute. exact I.
Defined.

(** ** Refreshing *)

Lemma foldM_raises_at_head {A B} (f : B → A → M B) b x l e w w' :
  f b x w = (Raise e, w') → foldM f b (x :: l) w = (Raise e, w').
Proof. intros H. simpl. unfold bind. by rewrite H. Qed.

Lemma forget_file_raises file_path w :
  ∃ w', forget_file file_path w =
        (Raise (AttributeError "CacheManager" "remove_file_cache"), w').
Proof. unfold forget_file, bind, get_world. simpl. by eexists. Qed.

Lemma refresh_raises env w file_path :
  file_path ∈ od_keys (file_hashes (analyzer w)) →
  file_path ∉ scanned env (analyzer w) →
  ∃ w', refresh_if_needed env w =
        (Raise (AttributeError "CacheManager" "remove_file_cache"), w').
Proof.
  intros Htracked Hgone. unfold refresh_if_needed.
  unfold bind at 1. unfold get_world at 1.
  unfold bind at 1. unfold _find_cpp_files at 1.
  unfold bind at 1. unfold get_world at 1.
  unfold bind at 1. cbn [put_analyzer ret].
  fold (scanned env (analyzer w)).
  assert (Hin : file_path ∈
            filter (λ f, f ∉ scanned env (analyzer w))
                   (od_keys (file_hashes (analyzer w))))
    by (by apply list_elem_of_filter).
  destruct (filter _ (od_keys (file_hashes (analyzer w)))) as [|f0 rest];
    [by apply elem_of_nil in Hin|].
  unfold bind at 1.
  match goal with
  | |- context [foldM ?f ?b (f0 :: rest) ?w0] =>
      destruct (forget_file_raises f0 w0) as [w' Hw'];
      rewrite (foldM_raises_at_head f b f0 rest
                 (AttributeError "CacheManager" "remove_file_cache") w0 w')
  end.
  - by eexists.
  - unfold bind. by rewrite Hw'.
Qed.

(** C1. When a tracked file is missing from the scanner output,
    [refresh_if_needed] cleans the in-memory indexes for the first such
    file and then looks up [remove_file_cache] on the [CacheManager],
    which defines no such method: the call raises [AttributeError], no
    count is returned, the per-file cache entry is not removed and the
    global cache is not rewritten.  On the demo project, after
    [b.cpp] is deleted: the records of [g] are gone from the indexes in
    memory, the cache file of [b.cpp] is still there and
    [cache_info.json] is the one saved before. *)
Theorem refresh_raises_on_deleted_file :
  (∀ env w file_path,
      file_path ∈ od_keys (file_hashes (analyzer w)) →
      file_path ∉ scanned env (analyzer w) →
      ∃ w', refresh_if_needed env w =
            (Raise (AttributeError "CacheManager" "remove_file_cache"), w')) ∧
  let before := exec (_save_cache 1500) Demo.indexed in
  let refresh := refresh_if_needed Demo.deleted_env in
  let after := exec refresh before in
  result refresh before =
    Raise (AttributeError "CacheManager" "remove_file_cache") ∧
  od_get (function_index (indexes (analyzer after))) "g" = None ∧
  usr_index (indexes (analyzer after)) !! "c:@F@g#" = None ∧
  od_get (file_hashes (analyzer after)) Demo.b_cpp = None ∧
  is_Some (file_caches (disk after) !! Demo.b_cpp) ∧
  cache_info (disk after) = cache_info (disk before) ∧
  (document ← cache_info (disk after) ≫= as_obj;
   hashes ← od_get document "file_hashes" ≫= as_obj;
   od_get hashes Demo.b_cpp) = Some (JStr "md5 of /proj/b.cpp").
Proof.
  split; [apply refresh_raises|].
  intros before refresh after.
  split_and!; try (vm_compute; reflexivity).
  apply (bool_decide_unpack _). vm_compute. exact I.
Qed.

Lemma refresh_raises_on_deleted_file_witness :
  ∃ w', refresh_if_needed Demo.deleted_env Demo.indexed =
        (Raise (AttributeError "CacheManager" "remove_file_cache"), w').
Proof.
  destruct refresh_raises_on_deleted_file as [Hraises _].
  apply (Hraises Demo.deleted_env Demo.indexed Demo.b_cpp).
  - apply (bool_decide_unpack _). vm_compute. exact I.
  - apply (bool_decide_unpack _). vm_compute. exact I.
Defined.

(** ** Scanning *)

(** C3. The scanner returns no file whose first part below the project
    root is in [EXCLUDE_DIRS], but [DEPENDENCY_DIRS] plays no part in
    the scan: with [include_dependencies = False] the demo project's
    [vendor/lib.hpp] is returned although [vendor] is a dependency
    directory, a file that [is_project_file] classifies as a
    dependency. *)
Theorem scanner_keeps_dependency_files :
  (∀ sc tree p d rest,
      p ∈ Scanner.find_cpp_files sc tree →
      Scanner.relative_to (Scanner.to_Path p)
                          (Scanner.to_Path (Scanner.project_root sc))
        = Some (d :: rest) →
      d ∉ Scanner.EXCLUDE_DIRS sc) ∧
  let sc := Scanner.mkScanner "/proj" false
              (list_to_set default_exclude_directories)
              (list_to_set default_dependency_directories) in
  "vendor" ∈ Scanner.DEPENDENCY_DIRS sc ∧
  Scanner.include_dependencies sc = false ∧
  Scanner.find_cpp_files sc Demo.project_tree =
    ["/proj/a.cpp"; "/proj/b.cpp"; "/proj/vendor/lib.hpp"] ∧
  Scanner.to_Path "/proj/vendor/lib.hpp" = ["/"; "proj"; "vendor"; "lib.hpp"] ∧
  Scanner.is_project_file sc "/proj/vendor/lib.hpp" = false.
Proof.
  split; [apply ScannerFacts.find_cpp_files_excludes_top_level|].
  intros sc. split_and!; vm_compute; reflexivity.
Qed.

Lemma scanner_keeps_dependency_files_witness :
  "a.cpp" ∉ Scanner.EXCLUDE_DIRS
    (Scanner.mkScanner "/proj" false (list_to_set default_exclude_directories)
                       (list_to_set default_dependency_directories)).
Proof.
  destruct scanner_keeps_dependency_files as [Hexcl _].
  apply (Hexcl _ Demo.project_tree "/proj/a.cpp" "a.cpp" []).
  - apply (bool_decide_unpack _). vm_compute. exact I.
  - vm_compute. reflexivity.
Defined.

(** * Further properties *)

(** ** call_graph.py *)

Module CallGraphMore.
Import CallGraph CallGraphFacts.

Lemma only_last_singleton (u : string) (p : list string) :
  head p = Some u → (∀ i, p !! i = Some u → S i = length p) → p = [u].
Proof.
  intros Hh Hi. destruct p as [|a q]; [done|]. injection Hh as ->.
  specialize (Hi 0%nat eq_refl). destruct q; [done|simpl in Hi; lia].
Qed.

Lemma get_call_paths_rec_spec cg depth :
  ∀ from_usr to_usr p,
    p ∈ get_call_paths_rec cg depth from_usr to_usr ↔
    head p = Some from_usr ∧ last p = Some to_usr ∧ call_chain cg p ∧
    (∀ i, p !! i = Some to_usr → S i = length p) ∧
    (length p ≤ S depth)%nat.
Proof.
  assert (Hsame : ∀ u p,
    p ∈ [[u]] ↔ head p = Some u ∧ last p = Some u ∧ call_chain cg p ∧
                (∀ i, p !! i = Some u → S i = length p) ∧ (length p ≤ 1)%nat).
  { intros u p. rewrite list_elem_of_singleton. split.
    - intros ->. split_and!; try done.
      intros [|i]; simpl; [done|]. by rewrite lookup_nil.
    - intros (Hh & _ & _ & Hi & _). by apply only_last_singleton. }
  induction depth as [|depth IH]; intros from_usr to_usr p.
  - simpl. destruct (decide (from_usr = to_usr)) as [->|Hne].
    + apply Hsame.
    + split; [by intros ?%elem_of_nil|].
      intros (Hh & Hl & _ & _ & Hlen).
      destruct p as [|a [|b q]]; simpl in *; try done; [|lia].
      injection Hh as ->. injection Hl as ->. done.
  - simpl. destruct (decide (from_usr = to_usr)) as [->|Hne].
    + rewrite Hsame. split; intros (?&?&?&?&?); split_and!; try done.
      * lia.
      * enough (p = [to_usr]) as -> by (simpl; lia).
        by apply only_last_singleton.
    + rewrite list_elem_of_In, in_flat_map. split.
      * intros (callee & Hc & Hp).
        apply list_elem_of_In, elem_of_elements in Hc.
        apply list_elem_of_In in Hp.
        destruct (decide (callee = to_usr)) as [->|Hct].
        { apply list_elem_of_singleton in Hp as ->.
          split_and!; try done.
          - intros [|[|i]]; simpl; [congruence|done|by rewrite lookup_nil].
          - simpl; lia. }
        apply list_elem_of_fmap in Hp as (q & -> & Hq).
        apply IH in Hq as (Hh & Hl & Hch & Hi & Hlen).
        destruct q as [|c q]; [done|]. injection Hh as ->.
        split_and!; try done.
        { intros [|i]; simpl; [congruence|]. intros ?%Hi. simpl in *. lia. }
        { simpl in *. lia. }
      * intros (Hh & Hl & Hch & Hi & Hlen).
        destruct p as [|a [|c q]]; [done| |].
        { simpl in *. congruence. }
        injection Hh as ->. destruct Hch as [Hc Hch].
        exists c. split; [by apply list_elem_of_In, elem_of_elements|].
        apply list_elem_of_In.
        destruct (decide (c = to_usr)) as [->|Hct].
        { specialize (Hi 1%nat eq_refl). simpl in Hi.
          destruct q; [|simpl in Hi; lia]. by apply list_elem_of_singleton. }
        apply list_elem_of_fmap. exists (c :: q). split; [done|].
        apply IH. split_and!; try done.
        { intros i Hq. specialize (Hi (S i) Hq). simpl in *. lia. }
        { simpl in *. lia. }
Qed.

Lemma pruned_empty : pruned ∅.
Proof. intros k s. by rewrite lookup_empty. Qed.

Lemma pruned_dd_add m k x : pruned m → pruned (dd_add m k x).
Proof.
  intros Hm k' s. unfold dd_add.
  destruct (decide (k = k')) as [->|Hne].
  - rewrite lookup_insert_eq. intros [= <-]. set_solver.
  - rewrite lookup_insert_ne by done. apply Hm.
Qed.

Lemma pruned_delete m k : pruned m → pruned (delete k m).
Proof.
  intros Hm k' s. destruct (decide (k = k')) as [->|Hne].
  - by rewrite lookup_delete_eq.
  - rewrite lookup_delete_ne by done. apply Hm.
Qed.

Lemma pruned_discard_prune usr m k : pruned m → pruned (discard_prune usr m k).
Proof.
  intros Hm. unfold discard_prune. simpl. case_decide as Hs.
  - by apply pruned_delete.
  - intros k' s. destruct (decide (k = k')) as [->|Hne].
    + rewrite lookup_insert_eq. by intros [= <-].
    + rewrite lookup_insert_ne by done. apply Hm.
Qed.

Lemma pruned_foldl usr l : ∀ m, pruned m → pruned (foldl (discard_prune usr) m l).
Proof.
  induction l as [|k l IH]; intros m Hm; simpl; [done|].
  by apply IH, pruned_discard_prune.
Qed.

Lemma both_pruned_init : both_pruned init.
Proof. split; apply pruned_empty. Qed.

Lemma both_pruned_add_call cg a b : both_pruned cg → both_pruned (add_call cg a b).
Proof.
  intros [H1 H2]. unfold add_call.
  destruct (truthy a && truthy b); [|done].
  split; simpl; by apply pruned_dd_add.
Qed.

Lemma both_pruned_remove_symbol cg x :
  both_pruned cg → both_pruned (remove_symbol cg x).
Proof.
  intros [H1 H2]. unfold remove_symbol.
  set (cg1 := match call_graph cg !! x with Some _ => _ | None => _ end).
  assert (both_pruned cg1) as [H1' H2'].
  { unfold cg1. destruct (call_graph cg !! x); [|done].
    split; simpl; [by apply pruned_delete|by apply pruned_foldl]. }
  destruct (reverse_call_graph cg1 !! x); [|done].
  split; simpl; [by apply pruned_foldl|by apply pruned_delete].
Qed.

Lemma both_pruned_add_calls_of cg s : both_pruned cg → both_pruned (add_calls_of cg s).
Proof.
  unfold add_calls_of. destruct (_ && _); [|done].
  generalize (calls s). intros l. revert cg.
  induction l as [|c l IH]; intros cg H; simpl; [done|].
  by apply IH, both_pruned_add_call.
Qed.

Lemma both_pruned_rebuild cg symbols : both_pruned (rebuild_from_symbols cg symbols).
Proof.
  unfold rebuild_from_symbols.
  assert (both_pruned (clear cg)) as H by apply both_pruned_init.
  revert H. generalize (clear cg). induction symbols as [|s l IH]; intros g H;
    simpl; [done|]. by apply IH, both_pruned_add_calls_of.
Qed.

Lemma both_pruned_step cg op : both_pruned cg → both_pruned (step cg op).
Proof.
  destruct op; simpl; intros H.
  - by apply both_pruned_add_call.
  - by apply both_pruned_remove_symbol.
  - apply both_pruned_rebuild.
  - apply both_pruned_init.
Qed.

Lemma both_pruned_run ops : both_pruned (run ops).
Proof.
  induction ops as [|op ops IH] using rev_ind; [apply both_pruned_init|].
  rewrite run_snoc. by apply both_pruned_step.
Qed.

Lemma symmetric_run ops : symmetric (run ops).
Proof.
  induction ops as [|op ops IH] using rev_ind; [apply symmetric_init|].
  rewrite run_snoc. by apply symmetric_step.
Qed.

Lemma pruned_is_Some m k : pruned m → is_Some (m !! k) ↔ ∃ v, v ∈ dd_get m k.
Proof.
  intros Hm. unfold dd_get. split.
  - intros [s Hs]. rewrite Hs. simpl.
    apply set_choose_L. by eapply Hm.
  - intros [v Hv]. destruct (m !! k); [done|]. simpl in Hv. set_solver.
Qed.

Lemma pruned_ext m1 m2 :
  pruned m1 → pruned m2 → (∀ k, dd_get m1 k = dd_get m2 k) → m1 = m2.
Proof.
  intros H1 H2 H. apply map_eq. intros k. specialize (H k). unfold dd_get in H.
  destruct (m1 !! k) as [s1|] eqn:E1, (m2 !! k) as [s2|] eqn:E2; simpl in H.
  - by rewrite H.
  - by destruct (H1 _ _ E1).
  - by destruct (H2 _ _ E2).
  - done.
Qed.

Lemma analyzer_ext cg1 cg2 :
  both_pruned cg1 → both_pruned cg2 → symmetric cg1 → symmetric cg2 →
  (∀ u v, v ∈ find_callees cg1 u ↔ v ∈ find_callees cg2 u) → cg1 = cg2.
Proof.
  intros [P1 Q1] [P2 Q2] S1 S2 H.
  destruct cg1 as [f1 b1], cg2 as [f2 b2]. simpl in *. f_equal.
  - apply pruned_ext; [done..|]. intros k. apply set_eq. intros v. apply H.
  - apply pruned_ext; [done..|]. intros k. apply set_eq. intros u.
    specialize (S1 u k). specialize (S2 u k). unfold find_callees, find_callers in *.
    simpl in *. rewrite <- S1, <- S2. apply H.
Qed.

Lemma find_callees_remove_symbol cg x u v :
  symmetric cg →
  v ∈ find_callees (remove_symbol cg x) u ↔
  v ∈ find_callees cg u ∧ u ≠ x ∧ v ≠ x.
Proof.
  intros Hs. rewrite remove_symbol_halves.
  destruct (half_remove x (call_graph cg) (reverse_call_graph cg))
    as [f1 b1] eqn:E1.
  destruct (half_remove x b1 f1) as [b2 f2] eqn:E2.
  destruct (half_remove_sym _ _ _ _ _ Hs E1) as [S1 C1].
  assert (S1' : ∀ u v, v ∈ dd_get b1 u ↔ u ∈ dd_get f1 v).
  { intros a b. symmetry. apply S1. }
  destruct (half_remove_sym _ _ _ _ _ S1' E2) as [S2 C2].
  unfold find_callees. simpl.
  rewrite <- S2, C2, <- S1, C1. unfold find_callees. naive_solver.
Qed.

End CallGraphMore.

(** X1. [CallGraphAnalyzer.get_call_paths] returns a list of USRs exactly
    when the list starts at [from_usr], ends at [to_usr], follows a
    recorded call at every step, meets [to_usr] only at its last position
    and has at most max(0, [max_depth]) calls.  No other condition is
    imposed: a USR other than the target may occur several times. *)
Theorem get_call_paths_spec (cg : CallGraph.CallGraphAnalyzer)
    (from_usr to_usr : string) (max_depth : Z) (p : list string) :
  p ∈ CallGraph.get_call_paths cg from_usr to_usr max_depth ↔
  head p = Some from_usr ∧ last p = Some to_usr ∧ call_chain cg p ∧
  (∀ i, p !! i = Some to_usr → S i = length p) ∧
  (Z.of_nat (length p) - 1 ≤ Z.max 0 max_depth)%Z.
Proof.
  unfold CallGraph.get_call_paths.
  rewrite CallGraphMore.get_call_paths_rec_spec.
  assert ((length p ≤ S (Z.to_nat max_depth))%nat ↔
          (Z.of_nat (length p) - 1 ≤ Z.max 0 max_depth)%Z) as -> by lia.
  done.
Qed.

(** X2. In a graph whose two maps agree, [remove_symbol x] leaves [x]
    without callees and without callers, and keeps exactly the calls in
    which [x] takes no part, in both directions. *)
Theorem remove_symbol_removes_the_node (cg : CallGraph.CallGraphAnalyzer)
    (x : string) :
  CallGraph.symmetric cg →
  let cg' := CallGraph.remove_symbol cg x in
  CallGraph.find_callees cg' x = ∅ ∧ CallGraph.find_callers cg' x = ∅ ∧
  (∀ u v, v ∈ CallGraph.find_callees cg' u ↔
          v ∈ CallGraph.find_callees cg u ∧ u ≠ x ∧ v ≠ x) ∧
  (∀ u v, u ∈ CallGraph.find_callers cg' v ↔
          u ∈ CallGraph.find_callers cg v ∧ u ≠ x ∧ v ≠ x).
Proof.
  intros Hs cg'.
  assert (Hc : ∀ u v, v ∈ CallGraph.find_callees cg' u ↔
                      v ∈ CallGraph.find_callees cg u ∧ u ≠ x ∧ v ≠ x).
  { intros u v. by apply CallGraphMore.find_callees_remove_symbol. }
  assert (Hr : ∀ u v, u ∈ CallGraph.find_callers cg' v ↔
                      u ∈ CallGraph.find_callers cg v ∧ u ≠ x ∧ v ≠ x).
  { intros u v. unfold cg' in *.
    rewrite <- (CallGraphFacts.symmetric_remove_symbol cg x Hs u v).
    rewrite Hc. by rewrite (Hs u v). }
  split_and!; [| |done|done].
  - apply set_eq. intros v. rewrite Hc. set_solver.
  - apply set_eq. intros u. rewrite Hr. set_solver.
Qed.

Lemma remove_symbol_removes_the_node_witness :
  let cg := CallGraph.add_call
              (CallGraph.add_call CallGraph.init "c:@F@f#" "c:@F@g#")
              "c:@F@g#" "c:@F@h#" in
  CallGraph.find_callees (CallGraph.remove_symbol cg "c:@F@g#") "c:@F@g#" = ∅ ∧
  CallGraph.find_callers (CallGraph.remove_symbol cg "c:@F@g#") "c:@F@g#" = ∅.
Proof.
  intros cg.
  destruct (remove_symbol_removes_the_node cg "c:@F@g#") as (H1 & H2 & _).
  - unfold cg. do 2 apply CallGraphFacts.symmetric_add_call.
    apply CallGraphFacts.symmetric_init.
  - by split.
Defined.

(** X3. After any sequence of [add_call], [remove_symbol],
    [rebuild_from_symbols] and [clear] on a new graph, a USR is a key of
    [call_graph] exactly when it has a callee, and a key of
    [reverse_call_graph] exactly when it has a caller: no empty set is
    left behind. *)
Theorem graph_keys_have_edges (ops : list CallGraph.Op) (u : string) :
  (is_Some (CallGraph.call_graph (CallGraph.run ops) !! u) ↔
   ∃ v, v ∈ CallGraph.find_callees (CallGraph.run ops) u) ∧
  (is_Some (CallGraph.reverse_call_graph (CallGraph.run ops) !! u) ↔
   ∃ v, v ∈ CallGraph.find_callers (CallGraph.run ops) u).
Proof.
  destruct (CallGraphMore.both_pruned_run ops) as [H1 H2].
  split; by apply CallGraphMore.pruned_is_Some.
Qed.

(** X4. If the calls of a graph, built by any sequence of operations,
    are exactly the pairs (usr, callee) with both parts non-empty that a
    list of records carries in its [calls] fields, then
    [rebuild_from_symbols] on that list, from whatever graph, gives that
    very graph back. *)
Theorem rebuild_restores_the_graph (ops : list CallGraph.Op)
    (cg0 : CallGraph.CallGraphAnalyzer) (symbols : list SymbolInfo) :
  (∀ u v, v ∈ CallGraph.find_callees (CallGraph.run ops) u ↔
          carries symbols u v) →
  CallGraph.rebuild_from_symbols cg0 symbols = CallGraph.run ops.
Proof.
  intros H. apply CallGraphMore.analyzer_ext.
  - apply CallGraphMore.both_pruned_rebuild.
  - apply CallGraphMore.both_pruned_run.
  - apply CallGraphFacts.symmetric_rebuild.
  - apply CallGraphMore.symmetric_run.
  - intros u v. rewrite H. unfold CallGraph.rebuild_from_symbols.
    rewrite find_callees_rebuild. unfold carries.
    unfold CallGraph.find_callees, CallGraph.dd_get. simpl.
    rewrite lookup_empty. simpl. set_solver.
Qed.

(** X5. [rebuild_from_symbols] forgets the graph it starts from and
    depends only on the set of non-empty (usr, callee) pairs of the
    records: two lists carrying the same pairs give the same graph, in
    whatever order and multiplicity. *)
Theorem rebuild_depends_on_the_pairs_only
    (cg cg' : CallGraph.CallGraphAnalyzer) (l l' : list SymbolInfo) :
  (∀ u v, carries l u v ↔ carries l' u v) →
  CallGraph.rebuild_from_symbols cg l = CallGraph.rebuild_from_symbols cg' l'.
Proof.
  intros H. apply CallGraphMore.analyzer_ext;
    try apply CallGraphMore.both_pruned_rebuild;
    try apply CallGraphFacts.symmetric_rebuild.
  intros u v. unfold CallGraph.rebuild_from_symbols.
  rewrite !find_callees_rebuild. specialize (H u v). unfold carries in H.
  unfold CallGraph.find_callees, CallGraph.dd_get. simpl.
  rewrite lookup_empty. simpl. set_solver.
Qed.

Lemma rebuild_restores_the_graph_witness :
  CallGraph.rebuild_from_symbols CallGraph.init
    [caller_record "c:@F@f#" ["c:@F@g#"]]
  = CallGraph.run [CallGraph.OpAddCall "c:@F@f#" "c:@F@g#"].
Proof.
  apply rebuild_restores_the_graph. intros u v.
  change (CallGraph.run _)
    with (CallGraph.add_call CallGraph.init "c:@F@f#" "c:@F@g#").
  rewrite find_callees_add_call. unfold carries. split.
  - intros [H|(<- & <- & _)].
    + unfold CallGraph.find_callees, CallGraph.dd_get in H. simpl in H.
      rewrite lookup_empty in H. set_solver.
    + exists (caller_record "c:@F@f#" ["c:@F@g#"]).
      split_and!; try done; [by left|by left].
  - intros (s & ->%list_elem_of_singleton & <- & Hv & _ & _). right.
    apply list_elem_of_singleton in Hv as ->. done.
Defined.

Lemma rebuild_depends_on_the_pairs_only_witness :
  let s1 := caller_record "c:@F@f#" ["c:@F@g#"; "c:@F@h#"] in
  let s2 := caller_record "c:@F@g#" ["c:@F@h#"] in
  CallGraph.rebuild_from_symbols CallGraph.init [s1; s2] =
  CallGraph.rebuild_from_symbols
    (CallGraph.add_call CallGraph.init "c:@F@x#" "c:@F@y#") [s2; s1; s2].
Proof.
  intros s1 s2. apply rebuild_depends_on_the_pairs_only.
  intros u v. unfold carries.
  split; intros (s & Hs & H); exists s; (split; [|exact H]); set_solver.
Defined.

(** ** file_scanner.py *)

Module StringFacts.

Lemma append_cons (x : ascii) (a b : string) :
  String x a +:+ b = String x (a +:+ b).
Proof. reflexivity. Qed.

Lemma append_assoc (a b c : string) : (a +:+ b) +:+ c = a +:+ (b +:+ c).
Proof.
  induction a as [|x a IH]; [done|]. rewrite !append_cons. by f_equal.
Qed.

Lemma length_append (a b : string) :
  String.length (a +:+ b) = (String.length a + String.length b)%nat.
Proof.
  induction a as [|x a IH]; [done|]. rewrite append_cons. simpl. by f_equal.
Qed.

Lemma prefix_append (a b : string) : String.prefix a (a +:+ b) = true.
Proof.
  induction a as [|x a IH]; [by destruct b|]. rewrite append_cons. simpl.
  destruct (ascii_dec x x); [done|congruence].
Qed.

Lemma substring_append (a b : string) (m k : nat) :
  String.substring (String.length a + m) k (a +:+ b) = String.substring m k b.
Proof. induction a as [|x a IH]; [done|]. rewrite append_cons. apply IH. Qed.

End StringFacts.

Module ScannerMore.
Import Scanner ScannerFacts StringFacts.

Lemma endswith_append (a b ext : string) :
  endswith b ext = true → endswith (a +:+ b) ext = true.
Proof.
  unfold endswith. rewrite length_append.
  intros [Hk He]%andb_true_iff. apply Nat.leb_le in Hk.
  apply andb_true_iff. split; [apply Nat.leb_le; lia|].
  replace (String.length a + String.length b - String.length ext)%nat
    with (String.length a + (String.length b - String.length ext))%nat by lia.
  by rewrite substring_append.
Qed.

Lemma endswith_refl_app (a b ext : string) :
  endswith b ext = true → endswith (path_join a b) ext = true.
Proof.
  intros H. unfold path_join. destruct (String.eqb a ""); [done|].
  destruct (String.eqb _ "/").
  - by apply endswith_append.
  - rewrite <- append_assoc. by apply endswith_append.
Qed.

Lemma path_join_prefix a b : ∃ t, path_join a b = a +:+ t.
Proof.
  unfold path_join. destruct (String.eqb_spec a "") as [->|_]; [by exists b|].
  destruct (String.eqb _ "/"); [by exists b|].
  exists ("/" +:+ b). done.
Qed.

Lemma is_cpp_ext f : is_cpp f = true → ∃ ext, ext ∈ CPP_EXTENSIONS ∧ endswith f ext = true.
Proof.
  unfold is_cpp. rewrite existsb_exists. intros (ext & Hin & H).
  exists ext. split; [by apply list_elem_of_In|done].
Qed.

Lemma files_here_ok sc root entries p :
  p ∈ files_here sc root entries → scanned_ok root p.
Proof.
  unfold files_here. rewrite list_elem_of_In, in_flat_map.
  intros ([f|d ch] & _ & Hp); [|done].
  destruct (is_cpp f) eqn:Hc; [|done]. simpl in Hp.
  destruct (negb _); [|done]. destruct Hp as [<-|[]].
  destruct (is_cpp_ext _ Hc) as (ext & He & Hend). split.
  - apply path_join_prefix.
  - exists ext. split; [done|]. by apply endswith_refl_app.
Qed.

Lemma scanned_ok_join root d p :
  scanned_ok (path_join root d) p → scanned_ok root p.
Proof.
  intros [(t & ->) He]. split; [|done].
  destruct (path_join_prefix root d) as (t' & ->).
  exists (t' +:+ t). by rewrite append_assoc.
Qed.

Lemma walk_entries_ok sc root entries p :
  Forall (λ n, ∀ root p, p ∈ walk_node sc root n → scanned_ok root p) entries →
  p ∈ walk_entries (walk_node sc) sc root entries → scanned_ok root p.
Proof.
  intros IH. unfold walk_entries. rewrite elem_of_app. intros [H|H].
  - by eapply files_here_ok.
  - apply list_elem_of_In, in_flat_map in H as (e & He%list_elem_of_In & Hp).
    destruct e as [f|d' ch]; [done|].
    destruct (should_skip_directory _ _); [done|].
    rewrite Forall_forall in IH. apply list_elem_of_In in Hp.
    by apply (IH _ He) in Hp.
Qed.

Lemma walk_node_ok sc n : ∀ root p, p ∈ walk_node sc root n → scanned_ok root p.
Proof.
  induction n as [f|d children IH] using Node_nested_ind; intros root p;
    simpl; [by intros ?%elem_of_nil|].
  intros H. apply scanned_ok_join with d. by eapply walk_entries_ok.
Qed.

Lemma components_append (s1 : string) :
  ∀ cur, ∃ pre lst,
    components cur s1 = pre ++ [lst] ∧
    ∀ s2, components cur (s1 +:+ s2) = pre ++ components lst s2.
Proof.
  induction s1 as [|c s1 IH]; intros cur.
  - exists [], cur. by split.
  - destruct (Ascii.eqb c "/") eqn:Hc.
    + destruct (IH "") as (pre & lst & H1 & H2).
      exists (cur :: pre), lst. split; [simpl; by rewrite Hc, H1|].
      intros s2. rewrite append_cons. simpl. rewrite Hc. by rewrite H2.
    + destruct (IH (cur +:+ String c "")) as (pre & lst & H1 & H2).
      exists pre, lst. split; [simpl; by rewrite Hc|].
      intros s2. rewrite append_cons. simpl. rewrite Hc. by rewrite H2.
Qed.

Lemma components_slash (s1 s2 : string) :
  components "" (s1 +:+ "/" +:+ s2) = components "" s1 ++ components "" s2.
Proof.
  destruct (components_append s1 "") as (pre & lst & H1 & H2).
  rewrite H2, H1. simpl. by rewrite <- app_assoc.
Qed.

Lemma components_trailing_slash (s : string) :
  components "" (s +:+ "/") = components "" s ++ [""].
Proof.
  destruct (components_append s "") as (pre & lst & H1 & H2).
  rewrite H2, H1. simpl. by rewrite <- app_assoc.
Qed.

Lemma ends_with_slash (a : string) :
  String.eqb (String.substring (String.length a - 1) 1 a) "/" = true →
  ∃ a', a = a' +:+ "/".
Proof.
  induction a as [|c a IH]; [done|].
  destruct a as [|c' a].
  - simpl. destruct (Ascii.eqb_spec c "/") as [->|]; [|done].
    intros _. by exists "".
  - intros H.
    replace (String.length (String c (String c' a)) - 1)%nat
      with (S (String.length (String c' a) - 1)) in H by (simpl; lia).
    simpl in H. destruct IH as (a' & Ha').
    { simpl. exact H. }
    exists (String c a'). by rewrite append_cons, <- Ha'.
Qed.

Lemma prefix_slash_append (a b : string) :
  a ≠ "" → String.prefix "/" (a +:+ b) = String.prefix "/" a.
Proof.
  destruct a as [|c a]; [done|]. intros _. rewrite append_cons.
  cbn [String.prefix]. destruct (ascii_dec "/" c); [|done].
  by destruct (a +:+ b), a.
Qed.

Lemma to_Path_join (a b : string) :
  ∃ rest, to_Path (path_join a b) = to_Path a ++ rest.
Proof.
  unfold path_join. destruct (String.eqb_spec a "") as [->|Hne].
  { by exists (to_Path b). }
  unfold to_Path.
  destruct (String.eqb _ "/") eqn:Hs.
  - apply ends_with_slash in Hs as (a' & Ha').
    exists (filter (λ part, part ≠ "" ∧ part ≠ ".") (components "" b)).
    rewrite prefix_slash_append by done. rewrite <- app_assoc. f_equal.
    clear Hne. subst a.
    rewrite append_assoc, components_slash, components_trailing_slash.
    rewrite !filter_app. f_equal.
    rewrite filter_cons_False, filter_nil, app_nil_r; [done|naive_solver].
  - exists (filter (λ part, part ≠ "" ∧ part ≠ ".") (components "" b)).
    rewrite prefix_slash_append by done. rewrite <- app_assoc. f_equal.
    by rewrite components_slash, filter_app.
Qed.

Lemma under_root_refl sc : under_root sc (project_root sc).
Proof. exists []. by rewrite app_nil_r. Qed.

Lemma under_root_join sc r x : under_root sc r → under_root sc (path_join r x).
Proof.
  intros (rel & Hr). destruct (to_Path_join r x) as (rest & Hj).
  exists (rel ++ rest). by rewrite Hj, Hr, app_assoc.
Qed.

Lemma should_skip_file_flag sc flag p :
  under_root sc p →
  should_skip_file (with_include_dependencies sc flag) p = should_skip_file sc p.
Proof.
  intros (rel & Hp). unfold should_skip_file. simpl.
  by rewrite Hp, relative_to_app.
Qed.

Lemma flat_map_ext_in {A B} (f g : A → list B) (l : list A) :
  (∀ x, x ∈ l → f x = g x) → flat_map f l = flat_map g l.
Proof.
  induction l as [|x l IH]; intros H; simpl; [done|].
  rewrite H by left. f_equal. apply IH. intros y Hy. apply H. by right.
Qed.

Lemma files_here_flag sc flag root entries :
  under_root sc root →
  files_here (with_include_dependencies sc flag) root entries =
  files_here sc root entries.
Proof.
  intros Hr. unfold files_here. apply flat_map_ext_in. intros [f|d ch] _; [|done].
  by rewrite should_skip_file_flag by (by apply under_root_join).
Qed.

Lemma walk_entries_flag sc flag root entries :
  under_root sc root →
  Forall (λ n, ∀ root, under_root sc root →
                       walk_node (with_include_dependencies sc flag) root n =
                       walk_node sc root n) entries →
  walk_entries (walk_node (with_include_dependencies sc flag))
               (with_include_dependencies sc flag) root entries =
  walk_entries (walk_node sc) sc root entries.
Proof.
  intros Hr IH. unfold walk_entries. rewrite files_here_flag by done. f_equal.
  apply flat_map_ext_in. intros [f|d ch] He; [done|].
  change (should_skip_directory (with_include_dependencies sc flag))
    with (should_skip_directory sc).
  destruct (should_skip_directory sc _); [done|].
  rewrite Forall_forall in IH. by apply (IH _ He).
Qed.

Lemma walk_node_flag sc flag n :
  ∀ root, under_root sc root →
          walk_node (with_include_dependencies sc flag) root n =
          walk_node sc root n.
Proof.
  induction n as [f|d children IH] using Node_nested_ind; intros root Hr;
    simpl; [done|].
  apply walk_entries_flag; [by apply under_root_join|done].
Qed.

End ScannerMore.

(** X6. Every path that [FileScanner.find_cpp_files] returns begins
    with the project root, ends with one of the [CPP_EXTENSIONS] and is
    not a file that [should_skip_file] rejects. *)
Theorem scanned_files_are_sources (sc : Scanner.FileScanner)
    (tree : list Scanner.Node) (p : string) :
  p ∈ Scanner.find_cpp_files sc tree →
  String.prefix (Scanner.project_root sc) p = true ∧
  (∃ ext, ext ∈ Scanner.CPP_EXTENSIONS ∧ Scanner.endswith p ext = true) ∧
  Scanner.should_skip_file sc p = false.
Proof.
  intros H. split_and!.
  - apply ScannerMore.walk_entries_ok in H as [(t & ->) _].
    + apply StringFacts.prefix_append.
    + apply Forall_forall. intros n _. apply ScannerMore.walk_node_ok.
  - apply ScannerMore.walk_entries_ok in H as [_ He]; [done|].
    apply Forall_forall. intros n _. apply ScannerMore.walk_node_ok.
  - by eapply ScannerFacts.find_cpp_files_not_skipped.
Qed.

Lemma scanned_files_are_sources_witness :
  String.prefix "/proj" "/proj/vendor/lib.hpp" = true ∧
  (∃ ext, ext ∈ Scanner.CPP_EXTENSIONS ∧
          Scanner.endswith "/proj/vendor/lib.hpp" ext = true) ∧
  Scanner.should_skip_file
    (Scanner.mkScanner "/proj" false (list_to_set default_exclude_directories)
                       (list_to_set default_dependency_directories))
    "/proj/vendor/lib.hpp" = false.
Proof.
  apply (scanned_files_are_sources
           (Scanner.mkScanner "/proj" false
              (list_to_set default_exclude_directories)
              (list_to_set default_dependency_directories))
           Demo.project_tree).
  apply (bool_decide_unpack _). vm_compute. exact I.
Defined.

(** X7. The result of [FileScanner.find_cpp_files] does not depend on
    the [include_dependencies] attribute of the scanner: the walk starts
    at the project root, so [should_skip_file] never takes the branch
    that reads it. *)
Theorem scan_ignores_include_dependencies (sc : Scanner.FileScanner)
    (flag : bool) (tree : list Scanner.Node) :
  Scanner.find_cpp_files (with_include_dependencies sc flag) tree =
  Scanner.find_cpp_files sc tree.
Proof.
  unfold Scanner.find_cpp_files.
  change (Scanner.project_root (with_include_dependencies sc flag))
    with (Scanner.project_root sc).
  apply ScannerMore.walk_entries_flag; [apply ScannerMore.under_root_refl|].
  apply Forall_forall. intros n _ root Hr. by apply ScannerMore.walk_node_flag.
Qed.

(** ** The caches *)

(** X8. [CacheManager.save_file_cache] succeeds; [load_file_cache] of
    the same file afterwards returns the saved records when asked with
    the saved hash and [None] with any other hash, and changes nothing.
    Saving leaves the global cache, the analyzer and the error stream
    alone. *)
Theorem file_cache_round_trip (file_path : string) (symbols : list SymbolInfo)
    (file_hash : string) (now : Z) (w : World) :
  let saved := exec (CacheManager.save_file_cache file_path symbols file_hash now) w in
  result (CacheManager.save_file_cache file_path symbols file_hash now) w = Ok true ∧
  (∀ current_hash,
      CacheManager.load_file_cache file_path current_hash saved =
      (Ok (if decide (current_hash = file_hash) then Some symbols else None),
       saved)) ∧
  cache_info (disk saved) = cache_info (disk w) ∧
  analyzer saved = analyzer w ∧ stderr saved = stderr w.
Proof.
  intros saved. split_and!; try done.
  intros current_hash. unfold CacheManager.load_file_cache, bind, get_world.
  unfold saved, exec, CacheManager.save_file_cache, bind, get_world, put_disk, ret.
  cbn [fst snd disk file_caches]. rewrite lookup_insert_eq.
  unfold jget. 
  change (od_get _ "file_hash") with (Some (JStr file_hash)).
  change (od_get _ "symbols") with (Some (JList (to_dict <$> symbols))).
  cbn [default CacheManager.differs_from_str as_list mbind option_bind].
  destruct (decide (current_hash = file_hash)) as [->|Hne]; simpl.
  - rewrite String.eqb_refl. simpl. by rewrite mapM_from_dict_to_dict.
  - rewrite (proj2 (String.eqb_neq file_hash current_hash)) by done. done.
Qed.

(** X9. [CppAnalyzer._load_cache] returns [False] and leaves the
    analyzer as it was when there is no global cache (silently), when the
    cache's version is not 2.0 (one line on the error stream), and when a
    cache written by [_save_cache] is read by an analyzer with the other
    [include_dependencies] setting (one line on the error stream). *)
Theorem unusable_cache_is_not_loaded :
  (∀ w, cache_info (disk w) = None → _load_cache w = (Ok false, w)) ∧
  (∀ w doc,
      cache_info (disk w) = Some (JObj doc) →
      od_get doc "version" ≠ Some (JStr "2.0") →
      _load_cache w =
        (Ok false,
         mkWorld (analyzer w) (disk w)
                 (stderr w ++ ["Cache version mismatch, rebuilding..."]))) ∧
  (∀ w a1 err now,
      include_dependencies a1 ≠ include_dependencies (analyzer w) →
      let restarted := mkWorld a1 (disk (exec (_save_cache now) w)) err in
      _load_cache restarted =
        (Ok false,
         mkWorld a1 (disk restarted)
                 (err ++ ["Cache dependencies setting mismatch"]))).
Proof.
  split_and!.
  - intros [a d e] H. simpl in H. unfold _load_cache, bind, get_world.
    unfold CacheManager.load_cache, bind, get_world. simpl. by rewrite H.
  - intros [a d e] doc H Hv. simpl in H.
    unfold _load_cache, bind, get_world.
    unfold CacheManager.load_cache, bind, get_world. simpl. rewrite H.
    assert (CacheManager.differs_from_str (jget doc "version" JNull) "2.0"
            = true) as ->.
    { unfold jget. destruct (od_get doc "version") as [[]|]; simpl; try done.
      apply negb_true_iff, String.eqb_neq. congruence. }
    done.
  - intros w a1 err now Hne restarted. unfold restarted.
    rewrite _save_cache_disk.
    unfold _load_cache, bind, get_world.
    unfold CacheManager.load_cache, bind, get_world.
    cbn [fst snd analyzer disk cache_info].
    unfold jget.
    change (od_get (saved_document w now) "version") with (Some (JStr "2.0")).
    change (od_get (saved_document w now) "include_dependencies")
      with (Some (JBool (include_dependencies (analyzer w)))).
    simpl.
    destruct (include_dependencies a1), (include_dependencies (analyzer w));
      done.
Qed.

Lemma unusable_cache_is_not_loaded_witness :
  let restarted :=
    mkWorld (new_analyzer "/proj" default_exclude_directories
                          default_dependency_directories false)
            (disk (exec (_save_cache 2000) Demo.indexed)) [] in
  result _load_cache restarted = Ok false ∧
  indexes (analyzer (exec _load_cache restarted)) =
    mkIndexes [] [] [] ∅ ∅ CallGraph.init.
Proof.
  intros restarted.
  destruct unusable_cache_is_not_loaded as (_ & _ & H).
  unfold result, exec, restarted. rewrite H; [done|].
  vm_compute. discriminate.
Defined.

(** X10. Building a [SymbolInfo] from the keywords of [s.to_dict()]
    gives [s] again, [to_dict] is injective, a dictionary with an unknown
    key or without [name] is refused (a [TypeError] in the source), and
    the nine optional fields take the defaults of the dataclass. *)
Theorem symbol_info_dict_round_trip :
  (∀ s, from_dict (to_dict s) = Some s) ∧
  (∀ s s', to_dict s = to_dict s' → s = s') ∧
  (∀ fields key value,
      (key, value) ∈ fields → key ∉ SymbolInfo_fields →
      from_dict (JObj fields) = None) ∧
  (∀ fields, od_get fields "name" = None → from_dict (JObj fields) = None) ∧
  (∀ name kind file line column,
      from_dict (JObj [("name", JStr name); ("kind", JStr kind);
                       ("file", JStr file); ("line", JInt line);
                       ("column", JInt column)])
      = Some (mkSymbolInfo name kind file line column "" true "" "public" ""
                           [] "" [] [])).
Proof.
  split_and!.
  - apply from_dict_to_dict.
  - intros s s' H. apply (f_equal from_dict) in H.
    rewrite !from_dict_to_dict in H. congruence.
  - intros fields key value Hin Hk. unfold from_dict. simpl.
    destruct (forallb _ fields) eqn:E; [|done].
    rewrite forallb_forall in E. apply list_elem_of_In, E in Hin.
    simpl in Hin. by apply bool_decide_eq_true in Hin.
  - intros fields H. unfold from_dict. simpl.
    destruct (forallb _ fields); [|done]. by rewrite H.
  - intros. by vm_compute.
Qed.

Lemma load_file_cache_disk file_path current_hash w w' :
  disk w' = disk w →
  (CacheManager.load_file_cache file_path current_hash w').1 =
  (CacheManager.load_file_cache file_path current_hash w).1.
Proof.
  intros H. unfold CacheManager.load_file_cache, bind, get_world. rewrite H.
  destruct (file_caches (disk w) !! file_path) as [[]|]; try done.
  by destruct (CacheManager.differs_from_str _ _).
Qed.

Lemma load_file_cache_same_disk file_path current_hash w w' r :
  disk w' = disk w →
  CacheManager.load_file_cache file_path current_hash w = (Ok r, w) →
  CacheManager.load_file_cache file_path current_hash w' = (Ok r, w').
Proof.
  intros Hd H.
  destruct (load_file_cache_returns file_path current_hash w') as [r' Hr'].
  pose proof (load_file_cache_disk file_path current_hash w w' Hd) as E.
  rewrite H, Hr' in E. simpl in E. by rewrite Hr', E.
Qed.

Lemma index_file_cached env file_path w cached_symbols :
  CacheManager.load_file_cache file_path (get_file_hash env file_path) w
    = (Ok (Some cached_symbols), w) →
  index_file env file_path false w =
  (Ok (Returned true true),
   mkWorld
     (mkAnalyzer (cached_indexes file_path cached_symbols (indexes (analyzer w)))
        (od_set (file_hashes (analyzer w)) file_path
                (get_file_hash env file_path))
        (translation_units (analyzer w)) (indexed_file_count (analyzer w))
        (include_dependencies (analyzer w)) (file_scanner (analyzer w)))
     (disk w) (stderr w)).
Proof. intros H. unfold index_file, bind. by rewrite H. Qed.

Lemma index_file_parsed env file_path (force : bool) w cursor :
  (if force then ret None
   else CacheManager.load_file_cache file_path (get_file_hash env file_path)) w
    = (Ok None, w) →
  parse env file_path = Parsed cursor →
  let ix := parsed_indexes (file_scanner (analyzer w)) file_path cursor
              (indexes (analyzer w)) in
  index_file env file_path force w =
  (Ok (Returned true false),
   mkWorld
     (mkAnalyzer ix
        (od_set (file_hashes (analyzer w)) file_path
                (get_file_hash env file_path))
        (translation_units (analyzer w) ∪ {[file_path]})
        (indexed_file_count (analyzer w))
        (include_dependencies (analyzer w)) (file_scanner (analyzer w)))
     (mkDisk (cache_info (disk w))
        (<[file_path :=
             JObj [("file_path", JStr file_path);
                   ("file_hash", JStr (get_file_hash env file_path));
                   ("timestamp", JInt (now env));
                   ("symbols",
                    JList (to_dict <$>
                             records ix
                               (collected_refs (file_scanner (analyzer w))
                                  file_path cursor (indexes (analyzer w)))))]]>
           (file_caches (disk w))))
     (stderr w)).
Proof.
  intros H Hp ix. unfold index_file, bind. rewrite H, Hp. reflexivity.
Qed.

Lemma index_file_failed env file_path (force : bool) w :
  (if force then ret None
   else CacheManager.load_file_cache file_path (get_file_hash env file_path)) w
    = (Ok None, w) →
  parse env file_path = ParseRaises →
  index_file env file_path force w = (Ok (Returned false false), w).
Proof. intros H Hp. unfold index_file, bind. by rewrite H, Hp. Qed.

Lemma load_file_cache_saved file_path symbols file_hash now a d e ci :
  CacheManager.load_file_cache file_path file_hash
    (mkWorld a
       (mkDisk ci
          (<[file_path :=
               JObj [("file_path", JStr file_path); ("file_hash", JStr file_hash);
                     ("timestamp", JInt now);
                     ("symbols", JList (to_dict <$> symbols))]]> d)) e)
  = (Ok (Some symbols),
     mkWorld a
       (mkDisk ci
          (<[file_path :=
               JObj [("file_path", JStr file_path); ("file_hash", JStr file_hash);
                     ("timestamp", JInt now);
                     ("symbols", JList (to_dict <$> symbols))]]> d)) e).
Proof.
  unfold CacheManager.load_file_cache, bind, get_world.
  cbn [fst snd disk file_caches]. rewrite lookup_insert_eq.
  unfold jget.
  change (od_get _ "file_hash") with (Some (JStr file_hash)).
  change (od_get _ "symbols") with (Some (JList (to_dict <$> symbols))).
  simpl. rewrite String.eqb_refl. simpl. by rewrite mapM_from_dict_to_dict.
Qed.

(** X11. When [index_file] succeeds on a file, by parsing or from the
    cache, calling it again without [force] succeeds from the per-file
    cache: it returns (True, True). *)
Theorem indexed_file_is_served_from_its_cache (env : Env) (file_path : string)
    (force : bool) (w : World) :
  (∃ was_cached,
      result (index_file env file_path force) w = Ok (Returned true was_cached)) →
  result (index_file env file_path false)
         (exec (index_file env file_path force) w)
    = Ok (Returned true true).
Proof.
  intros [was_cached Hr]. unfold result, exec in *.
  assert (∃ cached,
            (if force then ret None
             else CacheManager.load_file_cache file_path
                    (get_file_hash env file_path)) w = (Ok cached, w))
    as [cached Hc].
  { destruct force; [by eexists|]. apply load_file_cache_returns. }
  destruct cached as [cached_symbols|].
  - destruct force; [done|].
    rewrite (index_file_cached _ _ _ _ Hc). cbn [snd].
    erewrite index_file_cached; [done|].
    by apply load_file_cache_same_disk with w.
  - destruct (parse env file_path) as [| |cursor] eqn:Hp.
    + rewrite (index_file_failed _ _ _ _ Hc Hp) in Hr. done.
    + unfold index_file, bind in Hr. rewrite Hc, Hp in Hr. done.
    + rewrite (index_file_parsed _ _ _ _ _ Hc Hp). cbn [snd].
      erewrite index_file_cached; [done|]. apply load_file_cache_saved.
Qed.

Lemma indexed_file_is_served_from_its_cache_witness :
  result (index_file Demo.env Demo.a_cpp false)
         (exec (index_file Demo.env Demo.a_cpp true) (new_world "/proj" true))
    = Ok (Returned true true).
Proof.
  apply indexed_file_is_served_from_its_cache.
  exists false. vm_compute. reflexivity.
Defined.

Lemma foldM_noop {A B} (f : B → A → M B) (b : B) (l : list A) (w : World) :
  (∀ x, x ∈ l → f b x w = (Ok b, w)) → foldM f b l w = (Ok b, w).
Proof.
  induction l as [|x l IH]; intros H; [done|].
  simpl. unfold bind. rewrite H by left. apply IH.
  intros y Hy. apply H. by right.
Qed.

Lemma filter_none {A} (P : A → Prop) `{!∀ x, Decision (P x)} (l : list A) :
  (∀ x, x ∈ l → ¬ P x) → filter P l = [].
Proof.
  induction l as [|x l IH]; intros Hl; [done|].
  rewrite filter_cons_False by (apply Hl; left).
  apply IH. intros y Hy. apply Hl. by right.
Qed.

(** X12. When the tracked files are exactly the scanned files and every
    tracked file that exists still has its recorded hash,
    [refresh_if_needed] returns 0, writes nothing to the caches or to the
    error stream, and leaves the indexes as they were; the only
    assignment is the one of [_find_cpp_files] to
    [file_scanner.include_dependencies]. *)
Theorem refresh_without_changes_is_a_no_op (env : Env) (w : World) :
  let a := analyzer w in
  (∀ f, f ∈ od_keys (file_hashes a) ↔ f ∈ scanned env a) →
  (∀ f h, od_get (file_hashes a) f = Some h → path_exists env f = true →
          get_file_hash env f = h) →
  refresh_if_needed env w =
    (Ok 0%Z,
     mkWorld (with_scanner_flag a (include_dependencies a)) (disk w) (stderr w)).
Proof.
  intros a Hsame Hhash. unfold refresh_if_needed.
  unfold bind at 1. unfold get_world at 1. cbn [fst snd].
  unfold bind at 1. unfold _find_cpp_files at 1.
  unfold bind at 1. unfold get_world at 1. cbn [fst snd].
  unfold bind at 1. unfold put_analyzer at 1. cbn [fst snd]. unfold ret at 1.
  cbn [fst snd].
  fold a. change (Scanner.find_cpp_files _ (tree env)) with (scanned env a).
  set (w1 := mkWorld _ (disk w) (stderr w)).
  rewrite (filter_none (λ f, f ∉ scanned env a)); last first.
  { intros f Hf Hn. apply Hn. by apply Hsame. }
  rewrite (filter_none (λ f, f ∉ od_keys (file_hashes (analyzer w)))); last first.
  { intros f Hf Hn. apply Hn. by apply Hsame. }
  unfold bind at 1. cbn [foldM]. unfold ret at 1. cbn [fst snd].
  unfold bind at 1. unfold get_world at 1. cbn [fst snd].
  unfold bind at 1.
  rewrite foldM_noop.
  - reflexivity.
  - intros f Hf. destruct (path_exists env f) eqn:Hex; [|done]. cbn [negb].
    unfold bind, get_world. cbn [fst snd].
    change (file_hashes (analyzer w1)) with (file_hashes a) in *.
    destruct (od_get (file_hashes a) f) as [h|] eqn:Hg.
    + rewrite (Hhash f h Hg Hex). by rewrite decide_False by naive_solver.
    + apply od_get_None in Hg. done.
Qed.

Lemma refresh_without_changes_is_a_no_op_witness :
  refresh_if_needed plain_env Demo.indexed =
    (Ok 0%Z,
     mkWorld (with_scanner_flag (analyzer Demo.indexed) true)
             (disk Demo.indexed) (stderr Demo.indexed)).
Proof.
  apply (refresh_without_changes_is_a_no_op plain_env Demo.indexed).
  - assert (od_keys (file_hashes (analyzer Demo.indexed))
            = ["/proj/a.cpp"; "/proj/b.cpp"]) as -> by (vm_compute; reflexivity).
    assert (scanned plain_env (analyzer Demo.indexed)
            = ["/proj/a.cpp"; "/proj/b.cpp"]) as -> by (vm_compute; reflexivity).
    done.
  - assert (file_hashes (analyzer Demo.indexed)
            = [("/proj/a.cpp", "md5 of /proj/a.cpp");
               ("/proj/b.cpp", "md5 of /proj/b.cpp")]) as ->
      by (vm_compute; reflexivity).
    intros f h H _. cbn [od_get] in H.
    destruct (decide ("/proj/a.cpp" = f)) as [<-|_].
    { injection H as <-. reflexivity. }
    destruct (decide ("/proj/b.cpp" = f)) as [<-|_]; [|done].
    injection H as <-. reflexivity.
Defined.

(** ** search_engine.py *)

Lemma elem_of_flat_map {A B} (f : A → list B) (l : list A) (y : B) :
  y ∈ flat_map f l ↔ ∃ x, x ∈ l ∧ y ∈ f x.
Proof.
  rewrite list_elem_of_In, in_flat_map. split; intros (x & H1 & H2); exists x.
  - by rewrite !list_elem_of_In.
  - by rewrite <- !list_elem_of_In.
Qed.

Lemma scan_classes_spec ix regex project_only hit :
  hit ∈ SearchEngine.scan_classes ix regex project_only ↔
  ∃ key refs r,
    (key, refs) ∈ class_index ix ∧ r ∈ refs ∧ regex key = true ∧
    (project_only = true → is_project (deref ix r) = true) ∧
    hit = SearchEngine.class_hit (deref ix r).
Proof.
  unfold SearchEngine.scan_classes. rewrite elem_of_flat_map. split.
  - intros ([key refs] & Hk & H). simpl in H.
    destruct (regex key) eqn:Hr; [|by apply elem_of_nil in H].
    apply list_elem_of_fmap in H as (info & -> & Hi).
    apply list_elem_of_filter in Hi as [Hp Hi].
    apply list_elem_of_fmap in Hi as (r & -> & Hin).
    exists key, refs, r. split_and!; try done.
    intros ->. simpl in Hp. done.
  - intros (key & refs & r & Hk & Hin & Hr & Hp & ->).
    exists (key, refs). split; [done|]. simpl. rewrite Hr.
    apply list_elem_of_fmap. exists (deref ix r). split; [done|].
    apply list_elem_of_filter. split.
    + destruct project_only; simpl; [by apply Hp|done].
    + apply list_elem_of_fmap. by exists r.
Qed.

Lemma scan_functions_spec ix regex project_only class_name hit :
  hit ∈ SearchEngine.scan_functions ix regex project_only class_name ↔
  ∃ key refs r,
    (key, refs) ∈ function_index ix ∧ r ∈ refs ∧ regex key = true ∧
    (project_only = true → is_project (deref ix r) = true) ∧
    (∀ c, class_name = Some c → c ≠ "" → parent_class (deref ix r) = c) ∧
    hit = SearchEngine.function_hit (deref ix r).
Proof.
  unfold SearchEngine.scan_functions. rewrite elem_of_flat_map. split.
  - intros ([key refs] & Hk & H). simpl in H.
    destruct (regex key) eqn:Hr; [|by apply elem_of_nil in H].
    apply list_elem_of_fmap in H as (info & -> & Hi).
    apply list_elem_of_filter in Hi as [Hp Hi].
    apply list_elem_of_fmap in Hi as (r & -> & Hin).
    apply andb_true_iff in Hp as [Hp Hc].
    exists key, refs, r. split_and!; try done.
    + intros ->. done.
    + intros c -> Hne. apply negb_true_iff in Hc.
      unfold SearchEngine.other_class in Hc.
      apply andb_false_iff in Hc as [Hc|Hc].
      * by apply truthy_false in Hc.
      * apply negb_false_iff in Hc. by apply String.eqb_eq in Hc.
  - intros (key & refs & r & Hk & Hin & Hr & Hp & Hc & ->).
    exists (key, refs). split; [done|]. simpl. rewrite Hr.
    apply list_elem_of_fmap. exists (deref ix r). split; [done|].
    apply list_elem_of_filter. split.
    + apply andb_true_iff. split.
      * destruct project_only; simpl; [by apply Hp|done].
      * apply negb_true_iff. unfold SearchEngine.other_class.
        destruct class_name as [c|]; [|done].
        destruct (truthy c) eqn:Ht; [|done]. simpl.
        apply negb_false_iff, String.eqb_eq, Hc; [done|].
        by apply truthy_true.
    + apply list_elem_of_fmap. by exists r.
Qed.

(** X13. For a pattern that compiles, [search_classes] returns, without
    changing the state, exactly the hits of the records listed in
    [class_index] under a key the pattern matches, restricted to project
    records when [project_only] is set; with [project_only] every hit is
    marked [is_project]. *)
Theorem search_classes_finds_the_matching_records (re : RegexEngine)
    (pattern : string) (regex : string → bool) (project_only : bool)
    (w : World) :
  re_compile re pattern = inr regex →
  let ix := indexes (analyzer w) in
  ∃ hits,
    search_classes re pattern project_only w = (Ok hits, w) ∧
    (∀ hit, hit ∈ hits ↔
            ∃ key refs r,
              (key, refs) ∈ class_index ix ∧ r ∈ refs ∧ regex key = true ∧
              (project_only = true → is_project (deref ix r) = true) ∧
              hit = SearchEngine.class_hit (deref ix r)) ∧
    (project_only = true →
     ∀ hit, hit ∈ hits → SearchEngine.c_is_project hit = true).
Proof.
  intros Hc ix. exists (SearchEngine.scan_classes ix regex project_only).
  split_and!.
  - unfold search_classes, catching_re_error, bind, get_indexes.
    unfold SearchEngine.search_classes. cbn [fst snd]. by rewrite Hc.
  - intros hit. apply scan_classes_spec.
  - intros Hp hit (key & refs & r & _ & _ & _ & H & ->)%scan_classes_spec.
    simpl. by apply H.
Qed.

(** X14. For a pattern that compiles, [search_functions] returns
    exactly the hits of the records listed in [function_index] under a
    matching key, restricted to project records when [project_only] is
    set and, when a non-empty [class_name] is given, to the records of
    that parent class.  An empty [class_name] filters nothing: it is the
    same as [None]. *)
Theorem search_functions_filters_by_class (re : RegexEngine)
    (pattern : string) (regex : string → bool) (project_only : bool)
    (class_name : option string) (w : World) :
  re_compile re pattern = inr regex →
  let ix := indexes (analyzer w) in
  ∃ hits,
    search_functions re pattern project_only class_name w = (Ok hits, w) ∧
    (∀ hit, hit ∈ hits ↔
            ∃ key refs r,
              (key, refs) ∈ function_index ix ∧ r ∈ refs ∧ regex key = true ∧
              (project_only = true → is_project (deref ix r) = true) ∧
              (∀ c, class_name = Some c → c ≠ "" →
                    parent_class (deref ix r) = c) ∧
              hit = SearchEngine.function_hit (deref ix r)) ∧
    search_functions re pattern project_only (Some "") w =
    search_functions re pattern project_only None w.
Proof.
  intros Hc ix.
  exists (SearchEngine.scan_functions ix regex project_only class_name).
  split_and!.
  - unfold search_functions, catching_re_error, bind, get_indexes.
    unfold SearchEngine.search_functions. cbn [fst snd]. by rewrite Hc.
  - intros hit. apply scan_functions_spec.
  - unfold search_functions, catching_re_error, bind, get_indexes.
    unfold SearchEngine.search_functions. cbn [fst snd]. by rewrite Hc.
Qed.

Lemma search_classes_finds_the_matching_records_witness :
  ∃ hits,
    search_classes LiteralRegex.engine "widget" true sample_world
      = (Ok hits, sample_world) ∧
    SearchEngine.mkClassHit "Widget" "class" "/proj/w.hpp" 1 true ["Base"]
      ∈ hits.
Proof.
  destruct (search_classes_finds_the_matching_records LiteralRegex.engine
              "widget" _ true sample_world eq_refl) as (hits & H1 & H2 & _).
  exists hits. split; [exact H1|]. apply H2.
  exists "Widget", [0%nat], 0%nat. split_and!.
  - by left.
  - by left.
  - vm_compute. reflexivity.
  - intros _. reflexivity.
  - reflexivity.
Defined.

Lemma search_functions_filters_by_class_witness :
  ∃ hits,
    search_functions LiteralRegex.engine "a" true (Some "Widget") sample_world
      = (Ok hits, sample_world) ∧
    SearchEngine.mkFunctionHit "main" "function" "/proj/main.cpp" 5 "int ()"
                               true "" ∉ hits.
Proof.
  destruct (search_functions_filters_by_class LiteralRegex.engine "a"
              _ true (Some "Widget") sample_world eq_refl)
    as (hits & H1 & H2 & _).
  exists hits. split; [exact H1|]. intros Hin.
  apply H2 in Hin as (key & refs & r & _ & _ & _ & _ & Hc & Hh).
  specialize (Hc "Widget" eq_refl).
  apply (f_equal SearchEngine.f_parent_class) in Hh.
  cbn [SearchEngine.f_parent_class SearchEngine.function_hit] in Hh.
  rewrite <- Hh in Hc. by specialize (Hc ltac:(discriminate)).
Defined.

(** X15. [search_symbols] without [symbol_types], or with an empty
    list, is [search_classes] together with [search_functions].  When
    [symbol_types] is not empty and names none of class, struct, function
    and method, both lists are empty and the pattern is never compiled,
    so that even an invalid pattern gives a result. *)
Theorem search_symbols_selects_by_kind (re : RegexEngine) (pattern : string)
    (project_only : bool) (w : World) :
  (∃ class_hits function_hits,
      result (search_classes re pattern project_only) w = Ok class_hits ∧
      result (search_functions re pattern project_only None) w
        = Ok function_hits ∧
      result (search_symbols re pattern project_only None) w
        = Ok (SearchEngine.mkSymbolHits class_hits function_hits) ∧
      search_symbols re pattern project_only (Some []) w
        = search_symbols re pattern project_only None w) ∧
  (∀ symbol_types,
      symbol_types ≠ [] →
      Forall (λ t, t ∉ documented_kinds) symbol_types →
      search_symbols re pattern project_only (Some symbol_types) w
        = (Ok (SearchEngine.mkSymbolHits [] []), w)).
Proof.
  split.
  - unfold result, search_classes, search_functions, search_symbols.
    unfold catching_re_error, bind, get_indexes. cbn [fst snd].
    unfold SearchEngine.search_symbols, SearchEngine.search_classes,
      SearchEngine.search_functions. cbn [SearchEngine.selects].
    destruct (re_compile re pattern) as [msg|regex]; by eexists _, _.
  - intros ts Hne Hts.
    unfold search_symbols, catching_re_error, bind, get_indexes. cbn [fst snd].
    unfold SearchEngine.search_symbols.
    assert (∀ kinds, (∀ k, k ∈ kinds → k ∈ documented_kinds) →
                     SearchEngine.selects (Some ts) kinds = false) as Hsel.
    { intros kinds Hk. destruct ts as [|t ts]; [done|].
      unfold SearchEngine.selects.
      apply not_true_is_false. intros (x & Hx & Hd)%existsb_exists.
      apply bool_decide_eq_true in Hd.
      rewrite Forall_forall in Hts. apply list_elem_of_In in Hx.
      by apply (Hts x Hx), Hk. }
    rewrite !Hsel; [done| |].
    + intros k Hk. unfold documented_kinds. set_solver.
    + intros k Hk. unfold documented_kinds. set_solver.
Qed.

Lemma search_symbols_selects_by_kind_witness :
  search_symbols LiteralRegex.engine "(" true (Some ["enum"]) sample_world
    = (Ok (SearchEngine.mkSymbolHits [] []), sample_world).
Proof.
  destruct (search_symbols_selects_by_kind LiteralRegex.engine "(" true
              sample_world) as [_ H].
  apply H; [done|]. constructor; [|constructor].
  unfold documented_kinds. set_solver.
Defined.






(** X17. [SearchEngine.get_function_signature]: an unknown name gives
    the empty list; without [class_name] there is one signature for each
    record listed under the name; with a [class_name] the signatures are
    a sublist of those, and for a non-empty [class_name] each of them
    begins with the class name followed by two colons. *)
Theorem function_signatures_of_a_class (ix : Indexes) (function_name : string) :
  (od_get (function_index ix) function_name = None →
   ∀ class_name, get_function_signature ix function_name class_name = []) ∧
  length (get_function_signature ix function_name None) =
    length (get_list (function_index ix) function_name) ∧
  ∀ class_name,
    sublist (get_function_signature ix function_name (Some class_name))
            (get_function_signature ix function_name None) ∧
    (class_name ≠ "" →
     ∀ sig, sig ∈ get_function_signature ix function_name (Some class_name) →
            String.prefix (class_name +:+ "::") sig = true).
Proof.
  unfold get_function_signature, get_list, records. split_and!.
  - intros -> class_name. done.
  - generalize (default [] (od_get (function_index ix) function_name)).
    intros refs. induction refs as [|r refs IH]; simpl; [done|]. by f_equal.
  - intros class_name. split.
    + generalize (default [] (od_get (function_index ix) function_name)).
      intros refs. induction refs as [|r refs IH]; simpl; [done|].
      destruct (String.eqb _ class_name); simpl.
      * by apply sublist_skip.
      * by apply sublist_cons.
    + intros Hne sig. rewrite elem_of_flat_map.
      intros (info & _ & Hs).
      destruct (String.eqb_spec (parent_class info) class_name) as [Hp|];
        [|by apply elem_of_nil in Hs].
      apply list_elem_of_singleton in Hs as ->. rewrite Hp.
      rewrite (proj2 (truthy_true class_name) Hne).
      rewrite <- (StringFacts.append_assoc class_name "::"
                    (name info +:+ signature info)).
      apply StringFacts.prefix_append.
Qed.

(** ** The class hierarchy *)

Lemma has_circular_child (ts : list Hier) :
  existsb has_circular ts = true → ∃ t, t ∈ ts ∧ has_circular t = true.
Proof.
  intros (t & Ht & H)%existsb_exists. exists t. by rewrite list_elem_of_In.
Qed.

Lemma Forall2_elem_of_r {A B} (P : A → B → Prop) (l : list A) (k : list B) y :
  Forall2 P l k → y ∈ k → ∃ x, x ∈ l ∧ P x y.
Proof.
  induction 1 as [|x y' l k Hxy _ IH]; [by intros ?%elem_of_nil|].
  intros [->|Hy]%elem_of_cons.
  - exists x. split; [by left|done].
  - destruct (IH Hy) as (x' & ? & ?). exists x'. split; [by right|done].
Qed.

Lemma marked_step c b l (visited : gset string) :
  ¬ NoDup (b :: l) ∨ (∃ x, x ∈ b :: l ∧ x ∈ visited ∪ {[c]}) →
  ¬ NoDup (c :: b :: l) ∨ (∃ x, x ∈ c :: b :: l ∧ x ∈ visited).
Proof.
  intros [H|(x & Hx & [Hv| ->%elem_of_singleton]%elem_of_union)].
  - left. intros Hn. apply H. by apply NoDup_cons in Hn as [_ ?].
  - right. exists x. split; [by right|done].
  - left. intros Hn. by apply NoDup_cons in Hn as [? _].
Qed.

Lemma base_marker_sound ix fuel :
  ∀ c visited t,
    _get_base_hierarchy fuel ix c visited = Some t →
    has_circular t = true →
    ∃ l, chain (direct_bases ix) c l ∧
         (¬ NoDup (c :: l) ∨ ∃ x, x ∈ c :: l ∧ x ∈ visited).
Proof.
  induction fuel as [|fuel IH]; intros c visited t; [done|]. simpl.
  destruct (decide (c ∈ visited)) as [Hc|Hc].
  - intros [= <-] _. exists []. split; [done|]. right. exists c.
    split; [by left|done].
  - destruct (mapM _ _) as [ts|] eqn:E; [|done]. simpl. intros [= <-] H.
    simpl in H. apply has_circular_child in H as (t' & Ht' & Hm).
    apply mapM_Some in E.
    destruct (Forall2_elem_of_r _ _ _ _ E Ht') as (b & Hb & Hbt).
    destruct (IH _ _ _ Hbt Hm) as (l & Hl & Hcyc).
    exists (b :: l). split; [by split|]. by apply marked_step.
Qed.

Lemma derived_marker_sound ix fuel :
  ∀ c visited t,
    _get_derived_hierarchy fuel ix c visited = Some t →
    has_circular t = true →
    ∃ l, chain (derived_names ix) c l ∧
         (¬ NoDup (c :: l) ∨ ∃ x, x ∈ c :: l ∧ x ∈ visited).
Proof.
  induction fuel as [|fuel IH]; intros c visited t; [done|]. simpl.
  destruct (decide (c ∈ visited)) as [Hc|Hc].
  - intros [= <-] _. exists []. split; [done|]. right. exists c.
    split; [by left|done].
  - destruct (mapM _ _) as [ts|] eqn:E; [|done]. simpl. intros [= <-] H.
    simpl in H. apply has_circular_child in H as (t' & Ht' & Hm).
    apply mapM_Some in E.
    destruct (Forall2_elem_of_r _ _ _ _ E Ht') as (d & Hd & Hdt).
    destruct (IH _ _ _ Hdt Hm) as (l & Hl & Hcyc).
    exists (d_name d :: l). split.
    + split; [|done]. unfold derived_names. apply list_elem_of_fmap. by exists d.
    + by apply marked_step.
Qed.

(** X18. In the result of [get_class_hierarchy], a node marked
    [circular_reference] in the base hierarchy stands for a chain of
    direct base classes from the queried class that repeats a class, and
    one in the derived hierarchy for such a chain of derived classes: the
    marker is never a false alarm. *)
Theorem circular_reference_means_a_cycle (ix : Indexes) (class_name : string)
    (fuel : nat) (h : Hierarchy) :
  get_class_hierarchy fuel ix class_name = Some (Some h) →
  (has_circular (base_hierarchy h) = true →
   ∃ l, chain (direct_bases ix) class_name l ∧ ¬ NoDup (class_name :: l)) ∧
  (has_circular (derived_hierarchy h) = true →
   ∃ l, chain (derived_names ix) class_name l ∧ ¬ NoDup (class_name :: l)).
Proof.
  unfold get_class_hierarchy.
  destruct (SearchEngine.get_class_info ix class_name); [|done].
  destruct (_get_base_hierarchy fuel ix class_name ∅) as [bh|] eqn:Eb; [|done].
  destruct (_get_derived_hierarchy fuel ix class_name ∅) as [dh|] eqn:Ed;
    [|done].
  simpl. intros [= <-]. simpl. split; intros H.
  - destruct (base_marker_sound _ _ _ _ _ Eb H) as (l & Hl & [Hn|(x&_&Hx)]);
      [by exists l|set_solver].
  - destruct (derived_marker_sound _ _ _ _ _ Ed H) as (l & Hl & [Hn|(x&_&Hx)]);
      [by exists l|set_solver].
Qed.

Lemma base_hierarchy_root ix fuel c t :
  _get_base_hierarchy fuel ix c ∅ = Some t →
  ∃ children, t = Node c children ∧
              hier_name <$> children = direct_bases ix c.
Proof.
  destruct fuel as [|fuel]; [done|]. simpl.
  rewrite decide_False by set_solver.
  destruct (mapM _ _) as [ts|] eqn:E; [|done]. simpl. intros [= <-].
  exists ts. split; [done|]. apply mapM_Some in E.
  induction E as [|b t' bs ts' Hb _ IH]; [done|]. simpl. f_equal; [|done].
  destruct fuel; [done|]. simpl in Hb. destruct (decide _); [by injection Hb as <-|].
  destruct (mapM _ _); [|done]. by injection Hb as <-.
Qed.

Lemma derived_hierarchy_root ix fuel c t :
  _get_derived_hierarchy fuel ix c ∅ = Some t →
  ∃ children, t = Node c children ∧
              hier_name <$> children = derived_names ix c.
Proof.
  destruct fuel as [|fuel]; [done|]. simpl.
  rewrite decide_False by set_solver.
  destruct (mapM _ _) as [ts|] eqn:E; [|done]. simpl. intros [= <-].
  exists ts. split; [done|]. apply mapM_Some in E. unfold derived_names.
  induction E as [|b t' bs ts' Hb _ IH]; [done|]. simpl. f_equal; [|done].
  destruct fuel; [done|]. simpl in Hb. destruct (decide _); [by injection Hb as <-|].
  destruct (mapM _ _); [|done]. by injection Hb as <-.
Qed.

(** X19. In the result of [get_class_hierarchy], [base_classes] lists
    without repetition exactly the base classes of the records listed
    under the name; the base hierarchy is a node for the class with one
    child for each of them, in that order, and the derived hierarchy a
    node with one child for each result of [get_derived_classes]. *)
Theorem hierarchy_lists_the_direct_relatives (ix : Indexes)
    (class_name : string) (fuel : nat) (h : Hierarchy) :
  get_class_hierarchy fuel ix class_name = Some (Some h) →
  NoDup (h_base_classes h) ∧
  (∀ base, base ∈ h_base_classes h ↔
           ∃ r, r ∈ get_list (class_index ix) class_name ∧
                base ∈ base_classes (deref ix r)) ∧
  (∃ children, base_hierarchy h = Node class_name children ∧
               hier_name <$> children = h_base_classes h) ∧
  (∃ children, derived_hierarchy h = Node class_name children ∧
               hier_name <$> children = derived_names ix class_name).
Proof.
  unfold get_class_hierarchy.
  destruct (SearchEngine.get_class_info ix class_name); [|done].
  destruct (_get_base_hierarchy fuel ix class_name ∅) as [bh|] eqn:Eb; [|done].
  destruct (_get_derived_hierarchy fuel ix class_name ∅) as [dh|] eqn:Ed;
    [|done].
  simpl. intros [= <-]. simpl. split_and!.
  - apply NoDup_elements.
  - intros base. unfold direct_bases.
    rewrite elem_of_elements, elem_of_list_to_set, list_elem_of_In, in_flat_map.
    unfold records. split.
    + intros (s & Hs%list_elem_of_In & Hb%list_elem_of_In).
      apply list_elem_of_fmap in Hs as (r & -> & Hr). by exists r.
    + intros (r & Hr & Hb). exists (deref ix r).
      rewrite <- !list_elem_of_In. split; [|done].
      apply list_elem_of_fmap. by exists r.
  - by eapply base_hierarchy_root.
  - by eapply derived_hierarchy_root.
Qed.

Lemma circular_reference_means_a_cycle_witness :
  ∃ l, chain (direct_bases Demo.cyclic) "P" l ∧ ¬ NoDup ("P" :: l).
Proof.
  destruct (get_class_hierarchy 4 Demo.cyclic "P") as [[h|]|] eqn:E;
    [|vm_compute in E; discriminate..].
  destruct (circular_reference_means_a_cycle _ _ _ _ E) as [H _].
  apply H. vm_compute in E. injection E as <-. reflexivity.
Defined.

Lemma hierarchy_lists_the_direct_relatives_witness :
  ∃ h, get_class_hierarchy 3 sample_indexes "Widget" = Some (Some h) ∧
       h_base_classes h = ["Base"] ∧
       ∃ children, base_hierarchy h = Node "Widget" children ∧
                   hier_name <$> children = h_base_classes h.
Proof.
  destruct (get_class_hierarchy 3 sample_indexes "Widget") as [[h|]|] eqn:E;
    [|vm_compute in E; discriminate..].
  exists h. split; [reflexivity|].
  destruct (hierarchy_lists_the_direct_relatives _ _ _ _ E) as (_ & _ & H & _).
  split; [|exact H].
  vm_compute in E. injection E as <-. reflexivity.
Defined.

(** ** The by-name indexes under [index_file] *)

Section keyed.

Implicit Types (h : list SymbolInfo) (index : list (string * list Ref)).

Lemma od_set_elem {V} (d : list (string * V)) k v k' v' :
  (k', v') ∈ od_set d k v → (k' = k ∧ v' = v) ∨ (k', v') ∈ d.
Proof.
  induction d as [|[k0 v0] d IH]; simpl.
  - intros [= -> ->]%list_elem_of_singleton. by left.
  - case_decide as Hk.
    + intros [[= -> ->]|H]%elem_of_cons; [by left|]. right. by right.
    + intros [[= -> ->]|H]%elem_of_cons; [right; by left|].
      destruct (IH H) as [?|?]; [by left|]. right. by right.
Qed.

Lemma od_del_elem {V} (d : list (string * V)) k k' v' :
  (k', v') ∈ od_del d k → (k', v') ∈ d.
Proof.
  induction d as [|[k0 v0] d IH]; simpl; [done|].
  case_decide as Hk.
  - intros H. by right.
  - intros [[= -> ->]|H]%elem_of_cons; [by left|]. right. by apply IH.
Qed.

Lemma get_list_elem index k r :
  r ∈ get_list index k → ∃ refs, (k, refs) ∈ index ∧ r ∈ refs.
Proof.
  unfold get_list. destruct (od_get index k) as [refs|] eqn:E; simpl.
  - intros Hr. exists refs. split; [|done]. by apply od_get_Some_elem.
  - by intros ?%elem_of_nil.
Qed.

Lemma keyed_nil h : keyed_by_name h [].
Proof. split; [constructor|]. by intros k refs r ?%elem_of_nil. Qed.

Lemma lookup_object_app_l h h' r :
  (r < length h)%nat → lookup_object (h ++ h') r = lookup_object h r.
Proof. intros Hr. unfold lookup_object. by rewrite lookup_app_l. Qed.

Lemma keyed_app h h' index : keyed_by_name h index → keyed_by_name (h ++ h') index.
Proof.
  intros [Hw H]. split; [done|]. intros k refs r Hk Hr.
  destruct (H k refs r Hk Hr) as [Hlt Hn]. split.
  - rewrite length_app. lia.
  - by rewrite lookup_object_app_l.
Qed.

Lemma keyed_set_sub h index k refs :
  keyed_by_name h index →
  (∀ r, r ∈ refs → r ∈ get_list index k) →
  keyed_by_name h (od_set index k refs).
Proof.
  intros [Hw H] Hsub. split; [by apply od_wf_set|].
  intros k' refs' r [[-> ->]|Hk]%od_set_elem Hr.
  - apply Hsub, get_list_elem in Hr as (refs0 & Hk & Hr). by eapply H.
  - by eapply H.
Qed.

Lemma keyed_del h index k : keyed_by_name h index → keyed_by_name h (od_del index k).
Proof.
  intros [Hw H]. split; [by apply od_wf_del|].
  intros k' refs' r Hk%od_del_elem Hr. by eapply H.
Qed.

Lemma keyed_append h index r :
  keyed_by_name h index → (r < length h)%nat →
  keyed_by_name h (od_append index (name (lookup_object h r)) r).
Proof.
  intros [Hw H] Hlt. split; [by apply od_wf_set|].
  intros k' refs' r' [[-> ->]|Hk]%od_set_elem Hr.
  - apply elem_of_app in Hr as [Hr| ->%list_elem_of_singleton]; [|done].
    apply get_list_elem in Hr as (refs0 & Hk & Hr). by eapply H.
  - by eapply H.
Qed.

Lemma keyed_heap_names h h' index :
  length h' = length h →
  (∀ r, name (lookup_object h' r) = name (lookup_object h r)) →
  keyed_by_name h index → keyed_by_name h' index.
Proof.
  intros Hl Hn [Hw H]. split; [done|]. intros k refs r Hk Hr.
  rewrite Hl, Hn. by eapply H.
Qed.

End keyed.

Lemma by_name_ok_register as_class info ix :
  by_name_ok ix → by_name_ok (register as_class info ix).
Proof.
  intros [Hc Hf]. unfold register, by_name_ok. simpl.
  assert (Hnew : name (lookup_object (heap ix ++ [info]) (length (heap ix)))
                 = name info).
  { unfold lookup_object. by rewrite list_lookup_middle. }
  assert (Hlt : (length (heap ix) < length (heap ix ++ [info]))%nat).
  { rewrite length_app. simpl. lia. }
  destruct as_class.
  - split; [|by apply keyed_app].
    rewrite <- Hnew. apply keyed_append; [by apply keyed_app|done].
  - split; [by apply keyed_app|].
    rewrite <- Hnew. apply keyed_append; [by apply keyed_app|done].
Qed.

Lemma by_name_ok_process_cursor sc file_filter cursor pc pfu ix :
  by_name_ok ix → by_name_ok (_process_cursor sc file_filter cursor pc pfu ix).
Proof.
  apply (_process_cursor_ind by_name_ok).
  - intros. by apply by_name_ok_register.
  - by intros ix0 u v H.
Qed.

Lemma by_name_ok_clear_old_entries file_path ix :
  by_name_ok ix → by_name_ok (clear_old_entries file_path ix).
Proof.
  unfold clear_old_entries. destruct (file_index ix !! file_path) as [refs|];
    [|done].
  revert ix. induction refs as [|r refs IH]; intros ix H; simpl; [done|].
  apply IH. destruct H as [Hc Hf].
  destruct (is_class_kind (deref ix r)); split; simpl; try done;
    unfold drop_file; apply keyed_set_sub; try done;
    intros r'; by intros [_ ?]%list_elem_of_filter.
Qed.

Lemma populate_heap ix r :
  length (heap (populate ix r)) = length (heap ix) ∧
  (∀ r', name (lookup_object (heap (populate ix r)) r')
         = name (lookup_object (heap ix) r')) ∧
  class_index (populate ix r) = class_index ix ∧
  function_index (populate ix r) = function_index ix.
Proof.
  unfold populate. destruct (_ && _); [|done]. simpl.
  split_and!; try done; [by rewrite length_insert|].
  intros r'. unfold lookup_object, deref, lookup_object.
  destruct (decide (r = r')) as [<-|Hne].
  - destruct (heap ix !! r) as [s|] eqn:E.
    + rewrite list_lookup_insert_eq by by eapply lookup_lt_Some.
      simpl. by repeat destruct (decide _).
    + rewrite list_insert_ge; [by rewrite E|]. by apply lookup_ge_None.
  - by rewrite list_lookup_insert_ne.
Qed.

Lemma by_name_ok_populate ix r : by_name_ok ix → by_name_ok (populate ix r).
Proof.
  intros [Hc Hf]. destruct (populate_heap ix r) as (Hl & Hn & Ec & Ef).
  unfold by_name_ok. rewrite Ec, Ef.
  split; eapply keyed_heap_names; eauto.
Qed.

Lemma by_name_ok_foldl {A} (f : Indexes → A → Indexes) (l : list A) :
  (∀ ix x, by_name_ok ix → by_name_ok (f ix x)) →
  ∀ ix, by_name_ok ix → by_name_ok (foldl f ix l).
Proof.
  intros Hf. induction l as [|x l IH]; intros ix H; simpl; [done|].
  by apply IH, Hf.
Qed.

Lemma by_name_ok_walked sc file_path cursor ix :
  by_name_ok ix → by_name_ok (walked_indexes sc file_path cursor ix).
Proof.
  intros H. unfold walked_indexes. apply by_name_ok_process_cursor.
  apply (by_name_ok_clear_old_entries file_path) in H.
  by destruct (file_index _ !! file_path).
Qed.

Lemma by_name_ok_parsed sc file_path cursor ix :
  by_name_ok ix → by_name_ok (parsed_indexes sc file_path cursor ix).
Proof.
  intros H. unfold parsed_indexes.
  apply by_name_ok_foldl; [intros; by apply by_name_ok_populate|].
  by apply by_name_ok_walked.
Qed.

Lemma add_cached_symbol_heap ix r :
  heap (add_cached_symbol ix r) = heap ix.
Proof. done. Qed.

Lemma by_name_ok_add_cached_symbol ix r :
  (r < length (heap ix))%nat →
  by_name_ok ix → by_name_ok (add_cached_symbol ix r).
Proof.
  intros Hr [Hc Hf]. unfold add_cached_symbol, by_name_ok. simpl.
  destruct (is_class_kind (deref ix r)); split; try done;
    by apply keyed_append.
Qed.

Lemma by_name_ok_add_cached_symbols refs :
  ∀ ix, Forall (λ r, (r < length (heap ix))%nat) refs →
        by_name_ok ix → by_name_ok (foldl add_cached_symbol ix refs).
Proof.
  induction refs as [|r refs IH]; intros ix Hr H; simpl; [done|].
  apply Forall_cons in Hr as [Hr Hrs]. apply IH.
  - by rewrite add_cached_symbol_heap.
  - by apply by_name_ok_add_cached_symbol.
Qed.

Lemma by_name_ok_cached file_path cached_symbols ix :
  by_name_ok ix → by_name_ok (cached_indexes file_path cached_symbols ix).
Proof.
  intros H. unfold cached_indexes.
  apply (by_name_ok_clear_old_entries file_path) in H as [Hc Hf].
  apply by_name_ok_add_cached_symbols.
  - simpl. apply Forall_forall. intros r Hr%elem_of_seq.
    rewrite length_app. lia.
  - split; simpl; by apply keyed_app.
Qed.

Lemma index_file_indexes env file_path force w :
  let ix := indexes (analyzer w) in
  let ix' := indexes (analyzer (exec (index_file env file_path force) w)) in
  ix' = ix ∨
  (∃ cached_symbols, ix' = cached_indexes file_path cached_symbols ix) ∨
  (∃ cursor, ix' = parsed_indexes (file_scanner (analyzer w)) file_path cursor ix).
Proof.
  intros ix ix'. unfold ix', exec.
  assert (∃ cached,
            (if force then ret None
             else CacheManager.load_file_cache file_path
                    (get_file_hash env file_path)) w = (Ok cached, w))
    as [cached Hc].
  { destruct force; [by eexists|]. apply load_file_cache_returns. }
  destruct cached as [cached_symbols|].
  - destruct force; [done|]. rewrite (index_file_cached _ _ _ _ Hc).
    right. left. by eexists.
  - destruct (parse env file_path) as [| |cursor] eqn:Hp.
    + rewrite (index_file_failed _ _ _ _ Hc Hp). by left.
    + unfold index_file, bind. rewrite Hc, Hp. by left.
    + rewrite (index_file_parsed _ _ _ _ _ Hc Hp). right. right. by eexists.
Qed.

(** X20. [index_file] keeps the two by-name indexes well formed,
    whatever its outcome: each name is a key once, and every record
    listed under a key exists and bears that key as its name. *)
Theorem index_file_keeps_the_indexes_keyed_by_name (env : Env)
    (file_path : string) (force : bool) (w : World) :
  by_name_ok (indexes (analyzer w)) →
  by_name_ok (indexes (analyzer (exec (index_file env file_path force) w))).
Proof.
  intros H.
  destruct (index_file_indexes env file_path force w)
    as [->|[(cached_symbols & ->)|(cursor & ->)]].
  - done.
  - by apply by_name_ok_cached.
  - by apply by_name_ok_parsed.
Qed.

(** ** Removing a file *)

Lemma od_elem_iff {V} (d : list (string * V)) k v :
  od_wf d → (k, v) ∈ d ↔ od_get d k = Some v.
Proof. intros Hw. split; [by apply od_elem_get|apply od_get_Some_elem]. Qed.

Lemma cleaned_cleaned h p entry : cleaned h p (cleaned h p entry) = cleaned h p entry.
Proof.
  destruct entry as [refs|]; [|done]. simpl.
  destruct (filter _ refs) as [|r kept] eqn:E; [done|].
  cbn [cleaned]. rewrite <- E, list_filter_filter.
  erewrite list_filter_iff; [by rewrite E|]. naive_solver.
Qed.

Lemma od_get_remove_from ix p index k k' :
  od_wf index →
  od_get (remove_from ix p index k) k' =
  if decide (k = k') then cleaned (heap ix) p (od_get index k)
  else od_get index k'.
Proof.
  intros Hw. unfold remove_from, cleaned, deref.
  destruct (od_get index k) as [refs|] eqn:E.
  - destruct (filter _ refs) as [|r kept] eqn:Ef.
    + by rewrite od_get_del.
    + by rewrite od_get_set.
  - case_decide as Hk; [by subst|done].
Qed.

Lemma od_wf_remove_from ix p index k : od_wf index → od_wf (remove_from ix p index k).
Proof.
  intros Hw. unfold remove_from. destruct (od_get index k); [|done].
  destruct (filter _ _); [by apply od_wf_del|by apply od_wf_set].
Qed.

Lemma od_get_remove_all ix p (ks : list string) :
  ∀ index k,
    od_wf index →
    od_wf (foldl (remove_from ix p) index ks) ∧
    od_get (foldl (remove_from ix p) index ks) k =
    if decide (k ∈ ks) then cleaned (heap ix) p (od_get index k)
    else od_get index k.
Proof.
  induction ks as [|k0 ks IH]; intros index k Hw; cbn [foldl].
  - split; [done|]. by destruct (decide (k ∈ [])) as [?%elem_of_nil|].
  - destruct (IH (remove_from ix p index k0) k) as [Hw' ->];
      [by apply od_wf_remove_from|].
    split; [done|]. rewrite od_get_remove_from by done.
    destruct (decide (k0 = k)) as [->|Hne].
    + rewrite (decide_True (P := k ∈ k :: ks)) by left.
      rewrite cleaned_cleaned. by destruct (decide _).
    + destruct (decide (k ∈ ks)) as [Hin|Hin].
      * by rewrite decide_True by (by right).
      * rewrite decide_False; [done|]. intros [?|?]%elem_of_cons; by subst.
Qed.

Lemma remove_from_heap ix1 ix2 p index k :
  heap ix1 = heap ix2 → remove_from ix1 p index k = remove_from ix2 p index k.
Proof. intros H. unfold remove_from, deref. by rewrite H. Qed.

Lemma foldl_remove_from_heap ix1 ix2 p ks :
  heap ix1 = heap ix2 →
  ∀ index, foldl (remove_from ix1 p) index ks = foldl (remove_from ix2 p) index ks.
Proof.
  intros H. induction ks as [|k ks IH]; intros index; simpl; [done|].
  by rewrite IH, (remove_from_heap ix1 ix2).
Qed.

Lemma remove_symbols_of p refs :
  ∀ ix,
    let ix' := foldl (remove_symbol_of p) ix refs in
    let symbols := deref ix <$> refs in
    heap ix' = heap ix ∧ file_index ix' = file_index ix ∧
    class_index ix' =
      foldl (remove_from ix p) (class_index ix) (class_keys_of symbols) ∧
    function_index ix' =
      foldl (remove_from ix p) (function_index ix) (function_keys_of symbols) ∧
    usr_index ix' = foldl (λ m u, delete u m) (usr_index ix) (usrs_of symbols) ∧
    call_graph_analyzer ix' =
      foldl CallGraph.remove_symbol (call_graph_analyzer ix) (usrs_of symbols).
Proof.
  induction refs as [|r refs IH]; intros ix; [done|].
  cbn [foldl fmap list_fmap].
  destruct (IH (remove_symbol_of p ix r)) as (Hh & Hf & Hc & Hfn & Hu & Hg).
  assert (Hheap : heap (remove_symbol_of p ix r) = heap ix) by done.
  assert (Hd : deref (remove_symbol_of p ix r) <$> refs = deref ix <$> refs).
  { apply list_fmap_ext. intros _ r' _. unfold deref. by rewrite Hheap. }
  rewrite Hd in *. clear Hd.
  rewrite (foldl_remove_from_heap _ ix) in Hc, Hfn by done.
  split_and!.
  - by rewrite Hh.
  - by rewrite Hf.
  - rewrite Hc. unfold class_keys_of. rewrite filter_cons. simpl.
    destruct (is_class_kind (deref ix r)) eqn:E.
    + by rewrite decide_True.
    + by rewrite decide_False.
  - rewrite Hfn. unfold function_keys_of. rewrite filter_cons. simpl.
    destruct (negb (is_class_kind (deref ix r)) && is_function_kind (deref ix r))
      eqn:E.
    + by rewrite decide_True.
    + by rewrite decide_False.
  - rewrite Hu. unfold usrs_of. rewrite fmap_cons, filter_cons. simpl.
    destruct (truthy (usr (deref ix r))) eqn:E.
    + by rewrite decide_True.
    + by rewrite decide_False.
  - rewrite Hg. unfold usrs_of. rewrite fmap_cons, filter_cons. simpl.
    destruct (truthy (usr (deref ix r))) eqn:E.
    + by rewrite decide_True.
    + by rewrite decide_False.
Qed.

Lemma lookup_delete_all (us : list string) :
  ∀ (m : gmap string Ref) u,
    foldl (λ m u, delete u m) m us !! u =
    if decide (u ∈ us) then None else m !! u.
Proof.
  induction us as [|u0 us IH]; intros m u; cbn [foldl].
  - by destruct (decide (u ∈ [])) as [?%elem_of_nil|].
  - rewrite IH. destruct (decide (u ∈ us)) as [Hin|Hin].
    + by rewrite decide_True by (by right).
    + destruct (decide (u0 = u)) as [->|Hne].
      * rewrite decide_True by left. apply lookup_delete_eq.
      * rewrite lookup_delete_ne by done. rewrite decide_False; [done|].
        intros [?|?]%elem_of_cons; by subst.
Qed.

Lemma find_callees_remove_all (us : list string) :
  ∀ cg, CallGraph.symmetric cg →
        CallGraph.symmetric (foldl CallGraph.remove_symbol cg us) ∧
        ∀ u v, v ∈ CallGraph.find_callees (foldl CallGraph.remove_symbol cg us) u ↔
               v ∈ CallGraph.find_callees cg u ∧ (u ∉ us) ∧ (v ∉ us).
Proof.
  induction us as [|x us IH]; intros cg Hs; cbn [foldl].
  - split; [done|]. intros u v. set_solver.
  - destruct (IH (CallGraph.remove_symbol cg x)) as [Hs' H];
      [by apply CallGraphFacts.symmetric_remove_symbol|].
    split; [done|]. intros u v.
    rewrite H, CallGraphMore.find_callees_remove_symbol by done.
    rewrite !not_elem_of_cons. naive_solver.
Qed.

Lemma cleaned_Some h p entry kept :
  cleaned h p entry = Some kept →
  ∃ refs, entry = Some refs ∧
          kept = filter (λ r, file (lookup_object h r) ≠ p) refs.
Proof.
  destruct entry as [refs|]; [|done]. simpl.
  destruct (filter _ refs) eqn:E; [done|]. intros [= <-]. by exists refs.
Qed.

Lemma removed_index ix p index ks :
  keyed_by_name (heap ix) index →
  let index' := foldl (remove_from ix p) index ks in
  keyed_by_name (heap ix) index' ∧
  (∀ k refs r, (k, refs) ∈ index' → r ∈ refs → file (deref ix r) = p →
               (k ∉ ks) ∧ (k, refs) ∈ index) ∧
  (∀ k refs r, (k, refs) ∈ index → r ∈ refs → file (deref ix r) ≠ p →
               ∃ refs', (k, refs') ∈ index' ∧ r ∈ refs').
Proof.
  intros [Hw Hk] index'.
  assert (Hw' : od_wf index').
  { by destruct (od_get_remove_all ix p ks index "" Hw). }
  assert (Hget : ∀ k, od_get index' k =
                      if decide (k ∈ ks) then cleaned (heap ix) p (od_get index k)
                      else od_get index k).
  { intros k. by destruct (od_get_remove_all ix p ks index k Hw). }
  split_and!.
  - split; [done|]. intros k refs r Hin Hr.
    apply od_elem_iff in Hin; [|done]. rewrite Hget in Hin.
    destruct (decide (k ∈ ks)).
    + apply cleaned_Some in Hin as (refs0 & Hg & ->).
      apply list_elem_of_filter in Hr as [_ Hr].
      apply od_get_Some_elem in Hg. by eapply Hk.
    + apply od_get_Some_elem in Hin. by eapply Hk.
  - intros k refs r Hin Hr Hf.
    apply od_elem_iff in Hin; [|done]. rewrite Hget in Hin.
    destruct (decide (k ∈ ks)).
    + apply cleaned_Some in Hin as (refs0 & Hg & ->).
      by apply list_elem_of_filter in Hr as [Hr _].
    + split; [done|]. by apply od_get_Some_elem.
  - intros k refs r Hin Hr Hf.
    apply od_elem_iff in Hin; [|done].
    destruct (decide (k ∈ ks)).
    + exists (filter (λ r, file (lookup_object (heap ix) r) ≠ p) refs).
      assert (r ∈ filter (λ r, file (lookup_object (heap ix) r) ≠ p) refs) as Hr'
        by by apply list_elem_of_filter.
      split; [|done]. apply od_elem_iff; [done|].
      rewrite Hget, decide_True, Hin by done. simpl.
      destruct (filter _ refs); [by apply elem_of_nil in Hr'|done].
    + exists refs. split; [|done]. apply od_elem_iff; [done|].
      by rewrite Hget, decide_False.
Qed.

(** X21. On well-formed indexes, where [file_index] lists the records
    of the file that the by-name indexes hold (classes in [class_index],
    functions in [function_index]), [_remove_file_from_indexes] removes
    the entry of the file from [file_index], leaves no record of the file
    in either by-name index, keeps the records of other files, removes
    the USRs of the file's records from [usr_index] and from the call
    graph, and keeps the indexes well formed and the call graph
    symmetric. *)
Theorem remove_file_forgets_the_file (file_path : string) (ix : Indexes) :
  let file_refs := default [] (file_index ix !! file_path) in
  let ix' := _remove_file_from_indexes file_path ix in
  by_name_ok ix →
  CallGraph.symmetric (call_graph_analyzer ix) →
  (∀ k refs r, (k, refs) ∈ class_index ix → r ∈ refs →
               file (deref ix r) = file_path →
               r ∈ file_refs ∧ is_class_kind (deref ix r) = true) →
  (∀ k refs r, (k, refs) ∈ function_index ix → r ∈ refs →
               file (deref ix r) = file_path →
               r ∈ file_refs ∧ is_class_kind (deref ix r) = false ∧
               is_function_kind (deref ix r) = true) →
  file_index ix' !! file_path = None ∧
  (∀ k refs r,
      (k, refs) ∈ class_index ix' ∨ (k, refs) ∈ function_index ix' →
      r ∈ refs → file (deref ix' r) ≠ file_path) ∧
  (∀ k refs r,
      r ∈ refs → file (deref ix r) ≠ file_path →
      ((k, refs) ∈ class_index ix →
       ∃ refs', (k, refs') ∈ class_index ix' ∧ r ∈ refs') ∧
      ((k, refs) ∈ function_index ix →
       ∃ refs', (k, refs') ∈ function_index ix' ∧ r ∈ refs')) ∧
  (∀ r, r ∈ file_refs → usr (deref ix r) ≠ "" →
        usr_index ix' !! usr (deref ix r) = None ∧
        CallGraph.find_callees (call_graph_analyzer ix') (usr (deref ix r)) = ∅ ∧
        CallGraph.find_callers (call_graph_analyzer ix') (usr (deref ix r)) = ∅) ∧
  by_name_ok ix' ∧ CallGraph.symmetric (call_graph_analyzer ix').
Proof.
  intros file_refs ix'. subst ix'. unfold _remove_file_from_indexes.
  change (default [] (file_index ix !! file_path)) with file_refs.
  intros [Hkc Hkf] Hsym Hc Hf.
  destruct (remove_symbols_of file_path file_refs ix)
    as (Hh & Hfi & Eci & Efi & Eu & Eg).
  set (symbols := deref ix <$> file_refs) in *.
  destruct (removed_index ix file_path _ (class_keys_of symbols) Hkc)
    as (Kc & Cc & Pc).
  destruct (removed_index ix file_path _ (function_keys_of symbols) Hkf)
    as (Kf & Cf & Pf).
  destruct (find_callees_remove_all (usrs_of symbols) _ Hsym) as [Hsym' Hcg].
  unfold by_name_ok, deref at 1.
  cbn [file_index class_index function_index usr_index call_graph_analyzer heap].
  assert (Hd : ∀ r, lookup_object
                      (heap (foldl (remove_symbol_of file_path) ix file_refs)) r
                    = deref ix r).
  { intros r. by rewrite Hh. }
  rewrite Eci, Efi, Eu, Eg, Hh. split_and!.
  - apply lookup_delete_eq.
  - intros k refs r [Hin|Hin] Hr; rewrite <- Hh, Hd; intros Hp.
    + destruct (Cc k refs r Hin Hr Hp) as [Hk Hin0].
      destruct (Hc k refs r Hin0 Hr Hp) as [Hfr Hkind].
      apply Hk. destruct Hkc as [_ Hname].
      destruct (Hname k refs r Hin0 Hr) as [_ <-].
      unfold class_keys_of. apply list_elem_of_fmap. exists (deref ix r).
      split; [done|]. apply list_elem_of_filter. split; [done|].
      apply list_elem_of_fmap. by exists r.
    + destruct (Cf k refs r Hin Hr Hp) as [Hk Hin0].
      destruct (Hf k refs r Hin0 Hr Hp) as (Hfr & Hk1 & Hk2).
      apply Hk. destruct Hkf as [_ Hname].
      destruct (Hname k refs r Hin0 Hr) as [_ <-].
      unfold function_keys_of. apply list_elem_of_fmap. exists (deref ix r).
      split; [done|]. apply list_elem_of_filter. split.
      * by rewrite Hk1, Hk2.
      * apply list_elem_of_fmap. by exists r.
  - intros k refs r Hr Hp. split; intros Hin; eauto.
  - intros r Hr Hu.
    assert (usr (deref ix r) ∈ usrs_of symbols) as Hin.
    { unfold usrs_of. apply list_elem_of_filter. split; [by apply truthy_true|].
      apply list_elem_of_fmap. exists (deref ix r). split; [done|].
      apply list_elem_of_fmap. by exists r. }
    split_and!.
    + by rewrite lookup_delete_all, decide_True.
    + apply set_eq. intros v. rewrite Hcg. set_solver.
    + apply set_eq. intros v. rewrite <- (Hsym' v _), Hcg. set_solver.
  - done.
  - done.
  - done.
Qed.

Lemma by_name_ok_sample : by_name_ok sample_indexes.
Proof.
  split; (split; [unfold od_wf; simpl; repeat constructor; set_solver|]);
    intros k refs r Hk Hr; simpl in Hk; in_concrete_list; simplify_eq;
    in_concrete_list; simplify_eq; (split; [simpl; lia|reflexivity]).
Qed.

Lemma remove_file_forgets_the_file_witness :
  let ix' := _remove_file_from_indexes "/proj/w.hpp" sample_indexes in
  file_index ix' !! "/proj/w.hpp" = None ∧
  usr_index ix' !! "c:@S@Widget@F@draw#" = None ∧
  CallGraph.find_callers (call_graph_analyzer ix') "c:@S@Widget@F@draw#" = ∅.
Proof.
  intros ix'.
  destruct (remove_file_forgets_the_file "/proj/w.hpp" sample_indexes)
    as (H1 & _ & _ & H4 & _).
  - apply by_name_ok_sample.
  - apply CallGraphFacts.symmetric_add_call, CallGraphFacts.symmetric_init.
  - intros k refs r Hk Hr _. simpl in Hk. in_concrete_list. simplify_eq.
    in_concrete_list. simplify_eq. split; [|reflexivity].
    apply (bool_decide_unpack _). vm_compute. exact I.
  - intros k refs r Hk Hr Hf. simpl in Hk. in_concrete_list; simplify_eq;
      in_concrete_list; simplify_eq.
    split_and!; [|reflexivity..].
    apply (bool_decide_unpack _). vm_compute. exact I.
  - split; [exact H1|].
    destruct (H4 1%nat) as (Hu & _ & Hc).
    + apply (bool_decide_unpack _). vm_compute. exact I.
    + vm_compute. discriminate.
    + split; [exact Hu|exact Hc].
Defined.

Lemma index_file_keeps_the_indexes_keyed_by_name_witness :
  by_name_ok
    (indexes (analyzer (exec (index_file Demo.env Demo.a_cpp true)
                             (new_world "/proj" true)))).
Proof.
  apply index_file_keeps_the_indexes_keyed_by_name.
  split; apply keyed_nil.
Defined.

(** X22. On a class index where every record is listed under its own
    name, [get_derived_classes] with [project_only] off is the converse
    of the base-class lists: [derived] is reported for [base] exactly
    when [base] is a direct base class of some record of [derived]. *)
Theorem bases_and_derived_classes_are_converse (ix : Indexes)
    (base derived : string) :
  keyed_by_name (heap ix) (class_index ix) →
  base ∈ direct_bases ix derived ↔ derived ∈ derived_names ix base.
Proof.
  intros [Hw Hk]. unfold direct_bases, derived_names, get_derived_classes.
  rewrite elem_of_elements, elem_of_list_to_set, elem_of_flat_map.
  rewrite list_elem_of_fmap. unfold records. split.
  - intros (s & (r & -> & Hr)%list_elem_of_fmap & Hb).
    apply get_list_elem in Hr as (refs & Hin & Hr).
    exists (derived_hit (deref ix r)). split.
    + simpl. symmetry. by eapply Hk.
    + apply elem_of_flat_map. exists (derived, refs). split; [done|].
      apply list_elem_of_fmap. exists (deref ix r). split; [done|].
      apply list_elem_of_filter. split.
      * simpl. by apply bool_decide_eq_true.
      * apply list_elem_of_fmap. by exists r.
  - intros (d & -> & ([k refs] & Hin & Hd)%elem_of_flat_map).
    apply list_elem_of_fmap in Hd as (s & -> & Hs).
    apply list_elem_of_filter in Hs as [Hb Hs]. simpl in Hb, Hs.
    apply list_elem_of_fmap in Hs as (r & -> & Hr).
    apply bool_decide_eq_true in Hb. exists (deref ix r). split; [|done].
    simpl. destruct (Hk k refs r Hin Hr) as [_ Hn].
    apply list_elem_of_fmap. exists r. split; [done|].
    unfold deref. rewrite Hn. unfold get_list.
    by rewrite (od_elem_get _ _ _ Hw Hin).
Qed.

Lemma bases_and_derived_classes_are_converse_witness :
  "Base" ∈ direct_bases sample_indexes "Widget" ∧
  "Widget" ∈ derived_names sample_indexes "Base".
Proof.
  assert (H : "Base" ∈ direct_bases sample_indexes "Widget").
  { apply (bool_decide_unpack _). vm_compute. exact I. }
  split; [exact H|].
  apply (bases_and_derived_classes_are_converse sample_indexes "Base" "Widget");
    [apply by_name_ok_sample|exact H].
Defined.

(** ** Completeness of the call path search *)

Section bfs_complete.

Variable cg : CallGraph.CallGraphAnalyzer.
Variable to_usrs : gset string.
Variable from_usr : string.


Lemma explore_fold_sets path (l : list string) :
  ∀ acc : gset string * list (string * list string),
    let acc' := foldl (explore_step path) acc l in
    (∀ z, z ∈ acc'.1 ↔ z ∈ acc.1 ∨ z ∈ l) ∧
    (∀ z, z ∈ acc'.2.*1 ↔ z ∈ acc.2.*1 ∨ (z ∈ l ∧ z ∉ acc.1)).
Proof.
  induction l as [|c l IH]; intros acc; cbn [foldl].
  - split; intros z; rewrite elem_of_nil; naive_solver.
  - destruct (IH (explore_step path acc c)) as [H1 H2]. split; intros z.
    + rewrite H1, elem_of_cons. unfold explore_step.
      destruct (decide (c ∈ acc.1)); simpl; set_solver.
    + rewrite H2, elem_of_cons. unfold explore_step.
      destruct (decide (c ∈ acc.1)) as [Hc|Hc]; simpl.
      * destruct (decide (z = c)); set_solver.
      * rewrite fmap_app, elem_of_app. simpl. rewrite list_elem_of_singleton.
        destruct (decide (z = c)); set_solver.
Qed.

Lemma level_fold_sets (queue : list (string * list string)) :
  ∀ acc : list (list string) * (gset string * list (string * list string)),
    (∀ e, e ∈ queue → e.1 ∉ to_usrs) →
    let acc' := foldl (level_step cg to_usrs) acc queue in
    acc'.1 = acc.1 ∧
    (∀ z, z ∈ acc'.2.1 ↔
          z ∈ acc.2.1 ∨ ∃ e, e ∈ queue ∧ z ∈ CallGraph.find_callees cg e.1) ∧
    (∀ z, z ∈ acc'.2.2.*1 ↔
          z ∈ acc.2.2.*1 ∨
          ((z ∉ acc.2.1) ∧ ∃ e, e ∈ queue ∧ z ∈ CallGraph.find_callees cg e.1)).
Proof.
  induction queue as [|e queue IH]; intros acc Hq; cbn [foldl].
  - split_and!; [done|..]; intros z; split; try tauto.
    + intros [?|(e & ?%elem_of_nil & _)]; done.
    + intros [?|(_ & e & ?%elem_of_nil & _)]; done.
  - destruct (IH (level_step cg to_usrs acc e)) as (H0 & H1 & H2).
    { intros e' He'. apply Hq. by right. }
    assert (Hs : level_step cg to_usrs acc e
                 = (acc.1, explore cg e.1 e.2 acc.2)).
    { unfold level_step. rewrite decide_False; [done|]. apply Hq. by left. }
    rewrite Hs in H0, H1, H2 |- *. cbn [fst snd] in H0, H1, H2.
    destruct (explore_fold_sets e.2 (elements (CallGraph.find_callees cg e.1))
                acc.2) as [E1 E2].
    fold (explore cg e.1 e.2 acc.2) in E1, E2.
    split_and!; [done|..]; intros z.
    + rewrite H1, E1, elem_of_elements. split.
      * intros [[?|?]|(e' & ? & ?)]; [by left|right..].
        -- exists e. split; [by left|done].
        -- exists e'. split; [by right|done].
      * intros [?|(e' & [->|?]%elem_of_cons & ?)].
        -- left. by left.
        -- left. by right.
        -- right. by exists e'.
    + rewrite H2, E2, E1, !elem_of_elements. split.
      * intros [[?|[? ?]]|(Hn & e' & ? & ?)].
        -- by left.
        -- right. split; [done|]. exists e. split; [by left|done].
        -- right. split; [tauto|]. exists e'. split; [by right|done].
      * intros [?|(Hn & e' & [->|?]%elem_of_cons & ?)].
        -- left. by left.
        -- left. by right.
        -- destruct (decide (z ∈ CallGraph.find_callees cg e.1)).
           ++ left. by right.
           ++ right. split; [tauto|]. by exists e'.
Qed.

Lemma level_fold_found (queue : list (string * list string)) e :
  ∀ acc : list (list string) * (gset string * list (string * list string)),
    e ∈ queue → e.1 ∈ to_usrs →
    e.2 ∈ (foldl (level_step cg to_usrs) acc queue).1.
Proof.
  assert (Hmono : ∀ (q : list (string * list string)) acc p,
             p ∈ acc.1 → p ∈ (foldl (level_step cg to_usrs) acc q).1).
  { induction q as [|e' q IH]; intros acc p Hp; cbn [foldl]; [done|].
    apply IH. unfold level_step. destruct (decide _); simpl; [|done].
    apply elem_of_app. by left. }
  induction queue as [|e' queue IH]; intros acc He Ht; cbn [foldl].
  - by apply elem_of_nil in He.
  - apply elem_of_cons in He as [<-|He]; [|by apply IH].
    apply Hmono. unfold level_step. rewrite decide_True by done. simpl.
    apply elem_of_app. right. by left.
Qed.

(** A walk that starts inside the visited set and ends in a target
    leaves the set through a callee of a queued node. *)
Lemma leave_visited (queue : list (string * list string))
    (visited : gset string) (t : string) :
  (∀ e, e ∈ queue → e.1 ∉ to_usrs) →
  (∀ y, y ∈ visited → y ∉ queue.*1 →
        (y ∉ to_usrs) ∧ ∀ z, z ∈ CallGraph.find_callees cg y → z ∈ visited) →
  t ∈ to_usrs →
  ∀ walk y1,
    head walk = Some y1 → y1 ∈ visited → last walk = Some t →
    call_chain cg walk →
    ∃ walk' y e,
      (length walk' < length walk)%nat ∧ head walk' = Some y ∧
      (y ∉ visited) ∧ e ∈ queue ∧ y ∈ CallGraph.find_callees cg e.1 ∧
      last walk' = Some t ∧ call_chain cg walk'.
Proof.
  intros Hq Hclosed Ht. induction walk as [|y walk IH]; intros y1 Hh Hv Hl Hc;
    [done|].
  injection Hh as ->. destruct walk as [|y2 rest].
  - injection Hl as ->. exfalso.
    destruct (decide (t ∈ queue.*1)) as [Hin|Hin].
    + apply list_elem_of_fmap in Hin as (e & -> & He). by apply (Hq e).
    + by destruct (Hclosed t Hv Hin).
  - destruct Hc as [Hy2 Hc].
    destruct (decide (y2 ∈ visited)) as [Hv2|Hv2].
    + destruct (IH y2 eq_refl Hv2 Hl Hc)
        as (walk' & y & e & Hlen & ? & ? & ? & ? & ? & ?).
      exists walk', y, e. split_and!; try done. simpl in *. lia.
    + destruct (decide (y1 ∈ queue.*1)) as [Hin|Hin].
      * apply list_elem_of_fmap in Hin as (e & -> & He).
        exists (y2 :: rest), y2, e. split_and!; try done. simpl. lia.
      * destruct (Hclosed y1 Hv Hin) as [_ Hcl]. destruct Hv2. by apply Hcl.
Qed.

Lemma bfs_loop_complete levels :
  ∀ n queue visited walk y1 t,
    Forall (entry_ok cg from_usr visited n) queue →
    (∀ y, y ∈ visited → y ∉ queue.*1 →
          (y ∉ to_usrs) ∧ ∀ z, z ∈ CallGraph.find_callees cg y → z ∈ visited) →
    head walk = Some y1 → y1 ∈ queue.*1 →
    last walk = Some t → t ∈ to_usrs → call_chain cg walk →
    (length walk ≤ levels)%nat →
    ∃ p, p ∈ bfs_loop cg to_usrs levels queue visited ∧
         (length p < n + length walk)%nat.
Proof.
  induction levels as [|levels IH];
    intros n queue visited walk y1 t Hok Hclosed Hh Hy1 Hl Ht Hc Hlen.
  { destruct walk; [done|simpl in Hlen; lia]. }
  assert (Hwalk : (0 < length walk)%nat) by (destruct walk; [done|simpl; lia]).
  assert (Hloop : bfs_loop cg to_usrs (S levels) queue visited =
                  (bfs_level cg to_usrs queue visited).1 ++
                  bfs_loop cg to_usrs levels
                    (bfs_level cg to_usrs queue visited).2.2
                    (bfs_level cg to_usrs queue visited).2.1).
  { destruct queue; [by apply elem_of_nil in Hy1|reflexivity]. }
  rewrite Hloop. clear Hloop.
  destruct (decide (Exists (λ e, e.1 ∈ to_usrs) queue)) as [Hex|Hnone].
  - apply Exists_exists in Hex as (e & He & Het).
    exists e.2. split.
    + apply elem_of_app. left. by apply level_fold_found.
    + rewrite Forall_forall in Hok. destruct (Hok e He) as (_&_&_&_&_&->). lia.
  - assert (Hq : ∀ e, e ∈ queue → e.1 ∉ to_usrs).
    { intros e He Het. apply Hnone, Exists_exists. by exists e. }
    destruct (level_fold_sets queue ([], (visited, [])) Hq) as (_ & V & Q).
    fold (bfs_level cg to_usrs queue visited) in V, Q.
    cbn [fst snd] in V, Q.
    assert (Hv1 : y1 ∈ visited).
    { apply list_elem_of_fmap in Hy1 as (e & -> & He).
      rewrite Forall_forall in Hok. destruct (Hok e He) as (_&Hlast&_&_&Hin&_).
      apply Hin. destruct (e.2) as [|a l _] using rev_ind; [done|].
      rewrite last_snoc in Hlast. injection Hlast as ->.
      apply elem_of_app. right. by left. }
    destruct (leave_visited queue visited t Hq Hclosed Ht walk y1 Hh Hv1 Hl Hc)
      as (walk' & y & e & Hlen' & Hh' & Hy & He & Hye & Hl' & Hc').
    destruct (bfs_level_inv cg to_usrs from_usr n queue ([], (visited, [])))
      as [_ Hok']; [exact Hok|constructor|constructor|].
    fold (bfs_level cg to_usrs queue visited) in Hok'.
    destruct (IH (S n) (bfs_level cg to_usrs queue visited).2.2
                (bfs_level cg to_usrs queue visited).2.1 walk' y t)
      as (p & Hp & Hplen).
    + exact Hok'.
    + intros y' Hy' Hny'.
      assert (y' ∈ visited) as Hv.
      { apply V in Hy' as [Hy'|(e' & He' & Hc2)]; [done|].
        destruct (decide (y' ∈ visited)) as [Hv|Hv]; [done|].
        destruct Hny'. apply Q. right. split; [done|]. by exists e'. }
      destruct (decide (y' ∈ queue.*1)) as [Hin|Hin].
      * apply list_elem_of_fmap in Hin as (e' & -> & He').
        split; [by apply Hq|]. intros z Hz. apply V. right. by exists e'.
      * destruct (Hclosed y' Hv Hin) as [? Hcl]. split; [done|].
        intros z Hz. apply V. left. by apply Hcl.
    + exact Hh'.
    + apply Q. right. split; [done|]. by exists e.
    + exact Hl'.
    + exact Ht.
    + exact Hc'.
    + lia.
    + exists p. split; [apply elem_of_app; by right|lia].
Qed.

End bfs_complete.

Lemma bfs_paths_complete cg to_usrs max_depth from_usr t walk :
  head walk = Some from_usr → last walk = Some t → t ∈ to_usrs →
  call_chain cg walk → (Z.of_nat (length walk) ≤ max_depth)%Z →
  ∃ p rest, bfs_paths cg to_usrs max_depth from_usr = p :: rest ∧
            (length p ≤ length walk)%nat.
Proof.
  intros Hh Hl Ht Hc Hlen.
  destruct (bfs_loop_complete cg to_usrs from_usr (Z.to_nat max_depth) 1
              [(from_usr, [from_usr])] {[from_usr]} walk from_usr t)
    as (q & Hq & Hqlen); try done.
  - constructor; [|constructor]. unfold entry_ok; simpl.
    split_and!; try done.
    + apply NoDup_singleton.
    + intros x ->%list_elem_of_singleton. by apply elem_of_singleton.
  - intros y ->%elem_of_singleton Hn. destruct Hn. by left.
  - by left.
  - lia.
  - fold (bfs_paths cg to_usrs max_depth from_usr) in Hq.
    destruct (bfs_paths_spec cg to_usrs max_depth from_usr) as [_ Hs].
    destruct (bfs_paths cg to_usrs max_depth from_usr) as [|p rest];
      [by apply elem_of_nil in Hq|].
    exists p, rest. split; [done|].
    apply elem_of_cons in Hq as [->|Hq]; [lia|].
    apply StronglySorted_inv in Hs as [_ Hall].
    rewrite Forall_forall in Hall. specialize (Hall q Hq). lia.
Qed.

Lemma sample_search_main :
  search_functions LiteralRegex.engine (exact_name LiteralRegex.engine "main")
    false None sample_world
  = (Ok [SearchEngine.mkFunctionHit "main" "function" "/proj/main.cpp" 5 "int ()" true ""],
     sample_world).
Proof. vm_compute. reflexivity. Qed.

Lemma sample_search_draw :
  search_functions LiteralRegex.engine (exact_name LiteralRegex.engine "draw")
    false None sample_world
  = (Ok [SearchEngine.mkFunctionHit "draw" "method" "/proj/w.hpp" 3 "void ()" true "Widget"],
     sample_world).
Proof. vm_compute. reflexivity. Qed.

(** X23. [get_call_path] always returns.  Whenever the call graph has a
    chain of calls of at most [max_depth] functions from a USR of
    [from_function] to a USR of [to_function], the search from that USR
    finds a path, the first one it finds is no longer than that chain,
    and the result of [get_call_path] is not empty. *)
Theorem call_path_search_finds_a_shortest_path (re : RegexEngine)
    (from_function to_function : string) (max_depth : Z) (w : World) :
  ∃ from_funcs to_funcs w1 w2 paths,
    search_functions re (exact_name re from_function) false None w
      = (Ok from_funcs, w1) ∧
    search_functions re (exact_name re to_function) false None w1
      = (Ok to_funcs, w2) ∧
    result (get_call_path re from_function to_function max_depth) w = Ok paths ∧
    let ix := indexes (analyzer w) in
    let cg := call_graph_analyzer ix in
    let to_usrs := usrs_of_hits ix to_funcs in
    ∀ from_usr t walk,
      from_usr ∈ usrs_of_hits ix from_funcs → t ∈ to_usrs →
      head walk = Some from_usr → last walk = Some t → call_chain cg walk →
      (Z.of_nat (length walk) ≤ max_depth)%Z →
      (∃ p rest, bfs_paths cg to_usrs max_depth from_usr = p :: rest ∧
                 (length p ≤ length walk)%nat) ∧
      paths ≠ [].
Proof.
  destruct (search_functions_returns re (exact_name re from_function)
              false None w) as (from_funcs & w1 & H1 & Ha1 & _).
  destruct (search_functions_returns re (exact_name re to_function)
              false None w1) as (to_funcs & w2 & H2 & Ha2 & _).
  set (ix := indexes (analyzer w)).
  exists from_funcs, to_funcs, w1, w2,
    (flat_map (λ u, name_path ix <$>
                      bfs_paths (call_graph_analyzer ix)
                        (usrs_of_hits ix to_funcs) max_depth u)
              (elements (usrs_of_hits ix from_funcs))).
  split_and!; [done|done| |].
  - unfold result, get_call_path, bind. rewrite H1, H2.
    destruct from_funcs as [|ff from_funcs].
    { simpl. unfold usrs_of_hits. simpl. by rewrite elements_empty. }
    destruct to_funcs as [|tf to_funcs].
    { simpl. f_equal. symmetry. apply flat_map_nil. intros u.
      unfold usrs_of_hits. simpl. by rewrite bfs_paths_no_target. }
    simpl. unfold get_indexes. rewrite Ha2, Ha1. reflexivity.
  - cbv zeta. intros from_usr t walk Hf Ht Hh Hl Hc Hlen.
    destruct (bfs_paths_complete (call_graph_analyzer ix)
                (usrs_of_hits ix to_funcs) max_depth from_usr t walk)
      as (p & rest & Hp & Hplen); try done.
    split; [by exists p, rest|].
    intros Hnil.
    assert (name_path ix p ∈
              flat_map (λ u, name_path ix <$>
                               bfs_paths (call_graph_analyzer ix)
                                 (usrs_of_hits ix to_funcs) max_depth u)
                       (elements (usrs_of_hits ix from_funcs))) as Hin.
    { apply elem_of_flat_map. exists from_usr.
      split; [by apply elem_of_elements|].
      apply list_elem_of_fmap. exists p. split; [done|].
      rewrite Hp. by left. }
    rewrite Hnil in Hin. by apply elem_of_nil in Hin.
Qed.

Lemma call_path_search_finds_a_shortest_path_witness :
  ∃ paths,
    result (get_call_path LiteralRegex.engine "main" "draw" 2) sample_world
      = Ok paths ∧ paths ≠ [].
Proof.
  destruct (call_path_search_finds_a_shortest_path LiteralRegex.engine
              "main" "draw" 2 sample_world)
    as (ff & tf & w1 & w2 & paths & H1 & H2 & H3 & H).
  exists paths. split; [exact H3|].
  rewrite sample_search_main in H1. injection H1 as <- <-.
  rewrite sample_search_draw in H2. injection H2 as <- <-.
  cbv zeta in H.
  apply (H "c:@F@main#" "c:@S@Widget@F@draw#"
           ["c:@F@main#"; "c:@S@Widget@F@draw#"]).
  - apply (bool_decide_unpack _). vm_compute. exact I.
  - apply (bool_decide_unpack _). vm_compute. exact I.
  - reflexivity.
  - reflexivity.
  - cbn [call_chain]. split; [|exact I].
    apply (bool_decide_unpack _). vm_compute. exact I.
  - vm_compute. discriminate.
Defined.

(** ** Callers and callees *)

Lemma elem_of_hits_of_usrs ix usrs h :
  h ∈ hits_of_usrs ix usrs ↔
  ∃ u r, u ∈ usrs ∧ usr_index ix !! u = Some r ∧ h = call_hit (deref ix r).
Proof.
  unfold hits_of_usrs. rewrite elem_of_flat_map. split.
  - intros (u & Hu & Hh). destruct (usr_index ix !! u) as [r|] eqn:E;
      [|by apply elem_of_nil in Hh].
    apply list_elem_of_singleton in Hh as ->. by exists u, r.
  - intros (u & r & Hu & E & ->). exists u. split; [done|]. rewrite E.
    by left.
Qed.

(** X24. [find_callers] and [find_callees] always return and leave the
    analyzer and the caches as they were.  They report exactly the
    records that [usr_index] holds for the callers, respectively the
    callees, of the USRs that the name (and class) resolves to; a
    neighbour in the call graph without a record in [usr_index] is left
    out. *)
Theorem call_queries_report_the_recorded_neighbours (re : RegexEngine)
    (function_name class_name : string) (w : World) :
  ∃ target w' callers callees,
    search_functions re (exact_name re function_name) false (Some class_name) w
      = (Ok target, w') ∧
    analyzer w' = analyzer w ∧ disk w' = disk w ∧
    find_callers re function_name class_name w = (Ok callers, w') ∧
    find_callees re function_name class_name w = (Ok callees, w') ∧
    let ix := indexes (analyzer w) in
    let cg := call_graph_analyzer ix in
    (∀ h, h ∈ callers ↔
          ∃ u v r, u ∈ usrs_of_hits ix target ∧ v ∈ CallGraph.find_callers cg u ∧
                   usr_index ix !! v = Some r ∧ h = call_hit (deref ix r)) ∧
    (∀ h, h ∈ callees ↔
          ∃ u v r, u ∈ usrs_of_hits ix target ∧ v ∈ CallGraph.find_callees cg u ∧
                   usr_index ix !! v = Some r ∧ h = call_hit (deref ix r)).
Proof.
  destruct (search_functions_returns re (exact_name re function_name) false
              (Some class_name) w) as (target & w' & H & Ha & Hd).
  set (ix := indexes (analyzer w)).
  exists target, w',
    (flat_map (λ usr, hits_of_usrs ix
                        (elements (CallGraph.find_callers
                                     (call_graph_analyzer ix) usr)))
              (elements (usrs_of_hits ix target))),
    (flat_map (λ usr, hits_of_usrs ix
                        (elements (CallGraph.find_callees
                                     (call_graph_analyzer ix) usr)))
              (elements (usrs_of_hits ix target))).
  split_and!; try done.
  - unfold find_callers, bind. rewrite H. unfold get_indexes, ret. cbn [fst snd].
    by rewrite Ha.
  - unfold find_callees, bind. rewrite H. unfold get_indexes, ret. cbn [fst snd].
    by rewrite Ha.
  - cbv zeta. split; intros h; rewrite elem_of_flat_map.
    + split.
      * intros (u & Hu%elem_of_elements & (v & r & Hv%elem_of_elements & E & ->)
                  %elem_of_hits_of_usrs). by exists u, v, r.
      * intros (u & v & r & Hu & Hv & E & ->). exists u.
        split; [by apply elem_of_elements|]. apply elem_of_hits_of_usrs.
        exists v, r. split; [by apply elem_of_elements|done].
    + split.
      * intros (u & Hu%elem_of_elements & (v & r & Hv%elem_of_elements & E & ->)
                  %elem_of_hits_of_usrs). by exists u, v, r.
      * intros (u & v & r & Hu & Hv & E & ->). exists u.
        split; [by apply elem_of_elements|]. apply elem_of_hits_of_usrs.
        exists v, r. split; [by apply elem_of_elements|done].
Qed.
